(** * EqualValueEmbeddedConstraint: a node-to-element equality constraint

    A shallow embedding of [EqualValueEmbeddedConstraint.C] (MOOSE framework).
    The constraint ties the value of a variable at the nodes of a slave block
    to the value of the same variable interpolated on the element of a master
    block that contains the node.

    Conventions of the embedding:
    - [Real] is the C++ [double]: binary64 floats with the kernel's IEEE 754
      operations, so every formula is read with the source's own parentheses
      and operator order;
    - [dof_id_type], [subdomain_id_type] and variable numbers are unsigned
      integers ([N]);
    - [std::vector] and [MooseArray] are lists; reading or writing past the
      end is undefined behaviour in the source and is the outcome
      [Err Undefined] here;
    - [mooseError] never returns: it is the outcome [Err (MooseError msg)];
    - the members of the object and of the framework objects it holds
      references to are the fields of [State], threaded explicitly. *)

From Stdlib Require Import ZArith String Floats.
From stdpp Require Import base option list gmap.

Local Open Scope string_scope.
Local Open Scope list_scope.

(** ** Outcomes *)

Inductive Error : Type :=
| MooseError (msg : string)
| Undefined.

Inductive Result (A : Type) : Type :=
| Ok (a : A)
| Err (e : Error).

Arguments Ok {A} a.
Arguments Err {A} e.

Definition rbind {A B : Type} (r : Result A) (k : A -> Result B) : Result B :=
  match r with
  | Ok a => k a
  | Err e => Err e
  end.

Declare Scope result_scope.
Delimit Scope result_scope with result.
Notation "x <- r ;; k" := (rbind r (fun x => k))
  (at level 100, r at next level, right associativity) : result_scope.
Notation "r ;;; k" := (rbind r (fun _ => k))
  (at level 100, right associativity) : result_scope.
Local Open Scope result_scope.

(** ** Mesh and solver data *)

Abbreviation Real := float (only parsing).
Abbreviation dof_id_type := N (only parsing).
Abbreviation subdomain_id_type := N (only parsing).

Record Point : Type := { pt_x : Real; pt_y : Real; pt_z : Real }.

(** A mesh node: a point with an id; [dof_number sys var comp] is the global
    index of the unknown of variable [var] of system [sys] at the node. *)
Record Node : Type := {
  node_point : Point;
  node_id : dof_id_type;
  dof_number : N -> N -> N -> dof_id_type
}.

Record Elem : Type := {
  elem_id : dof_id_type;
  subdomain_id : subdomain_id_type;
  node_ref_range : list Node
}.

(** What the constraint asks of [MooseMesh]: the active elements of a
    subdomain in iteration order, element lookup by id, and a point locator
    in out-of-mesh mode (no containing element is [None], never an error)
    restricted to a set of subdomains. *)
Record MooseMesh : Type := {
  active_subdomain_elements : subdomain_id_type -> list Elem;
  elemPtr : dof_id_type -> option Elem;
  pointLocator : Point -> gset subdomain_id_type -> option Elem
}.

(** [enum class Formulation] is declared in the header; a value of the
    underlying type that is neither enumerator reaches the [default:] label
    of every switch and is [InvalidFormulation] here. *)
Inductive Formulation : Type :=
| KINEMATIC
| PENALTY
| InvalidFormulation (raw : Z).

(** [Moose::ConstraintType] and [Moose::ConstraintJacobianType]. The switches
    over them list every enumerator, so the [return 0.0] that follows each of
    those switches is never reached. *)
Inductive ConstraintType : Type := Slave | Master.

Inductive ConstraintJacobianType : Type :=
| SlaveSlave | SlaveMaster | MasterSlave | MasterMaster.

Inductive DGJacobianType : Type :=
| ElementElement | ElementNeighbor | NeighborElement | NeighborNeighbor.

#[global] Instance DGJacobianType_eq_dec : EqDecision DGJacobianType.
Proof. solve_decision. Defined.

(** ** Vectors *)

(** [v[k]] *)
Definition at_index {A : Type} (v : list A) (k : nat) : Result A :=
  match v !! k with
  | Some x => Ok x
  | None => Err Undefined
  end.

(** [v[k] = x] *)
Definition store_index {A : Type} (v : list A) (k : nat) (x : A) : Result (list A) :=
  if decide (k < length v) then Ok (<[k := x]> v) else Err Undefined.

(** [std::vector::resize(n)]: the first [n] entries are kept and the vector
    is padded with value-initialised entries [d]. *)
Definition vresize {A : Type} (n : nat) (d : A) (v : list A) : list A :=
  take n v ++ replicate (n - length v) d.

(** [tbl[k][qp]] for a table of shape or test values *)
Definition shape (tbl : list (list Real)) (k qp : nat) : Result Real :=
  row <- at_index tbl k ;;
  at_index row qp.

(** Whether a computation returned the value [y], by the comparison of
    floating-point numbers. *)
Definition result_is (y : Real) (r : Result Real) : bool :=
  match r with
  | Ok x => PrimFloat.eqb x y
  | Err _ => false
  end.

(** ** Dense matrices

    libMesh's [DenseMatrix]: [m] rows, [n] columns, row-major values. *)
Record DenseMatrix : Type := {
  dm_m : nat;
  dm_n : nat;
  dm_val : list Real
}.

(** [DenseMatrix::resize(m, n)] sets the dimensions and zeroes every entry. *)
Definition dm_resize (m n : nat) : DenseMatrix :=
  {| dm_m := m; dm_n := n; dm_val := replicate (m * n) 0%float |}.

(** [K(i, j)] reads [_val[i * _n + j]]. *)
Definition dm_get (K : DenseMatrix) (i j : nat) : Result Real :=
  at_index (dm_val K) (i * dm_n K + j).

(** [K(i, j) += v] *)
Definition dm_add (K : DenseMatrix) (i j : nat) (v : Real) : Result DenseMatrix :=
  old <- dm_get K i j ;;
  val <- store_index (dm_val K) (i * dm_n K + j) (old + v)%float ;;
  Ok {| dm_m := dm_m K; dm_n := dm_n K; dm_val := val |}.

(** ** The state of the constraint and of the objects it refers to *)

(** Constructor parameters; none changes after construction. *)
Record Params : Type := {
  _formulation : Formulation;
  _penalty : Real;
  _slave : subdomain_id_type;
  _master : subdomain_id_type;
  var_number : N;          (* _var.number() *)
  master_var_number : N;   (* _master_var.number() *)
  sys_number : N           (* _sys.number() *)
}.

(** What is read from the nonlinear system: the ghosted copy of the residual
    vector, the Jacobian matrix of the physical system, and the dof index at
    the current node of each variable. *)
Record SystemData : Type := {
  _residual_copy : dof_id_type -> Real;
  _jacobian : dof_id_type -> dof_id_type -> Real;
  nodalDofIndex : N -> dof_id_type
}.

(** Values of the variable on the neighbor (master) element, as
    [reinitNeighborPhys] leaves them. *)
Record NeighborValues : Type := {
  nv_u : list Real;
  nv_phi : list (list Real);
  nv_test : list (list Real)
}.

(** The problem object: the element ids passed to [addGhostedElem], latest
    first, the neighbor context, and the variable data evaluated there. *)
Record FEProblem : Type := {
  ghosted_elems : list dof_id_type;
  neighbor_subdomain : option subdomain_id_type;
  neighbor_elem : option Elem;
  neighbor_points : list Point;
  neighbor_values : NeighborValues
}.

(** The loop counters [_i], [_j] and [_qp]. *)
Record Indices : Type := { _i : nat; _j : nat; _qp : nat }.

Record State : Type := {
  params : Params;
  sys : SystemData;
  fe_problem : FEProblem;
  _slave_to_master_map : gmap dof_id_type dof_id_type;
  _current_node : Node;
  _u_slave : list Real;
  _test_slave : list (list Real);
  _phi_slave : list (list Real);
  _connected_dof_indices : list dof_id_type;
  _constraint_residual : Real;
  idx : Indices;
  _Kee : DenseMatrix;
  _Kne : DenseMatrix;
  jacobianBlockNeighbor : DGJacobianType -> N -> N -> DenseMatrix
}.

Definition _u_master (s : State) : list Real := nv_u (neighbor_values (fe_problem s)).
Definition _phi_master (s : State) : list (list Real) := nv_phi (neighbor_values (fe_problem s)).
Definition _test_master (s : State) : list (list Real) := nv_test (neighbor_values (fe_problem s)).

(** Field updates. *)
Definition with_sys (v : SystemData) (s : State) : State :=
  {| params := params s; sys := v; fe_problem := fe_problem s;
     _slave_to_master_map := _slave_to_master_map s; _current_node := _current_node s;
     _u_slave := _u_slave s; _test_slave := _test_slave s; _phi_slave := _phi_slave s;
     _connected_dof_indices := _connected_dof_indices s;
     _constraint_residual := _constraint_residual s; idx := idx s;
     _Kee := _Kee s; _Kne := _Kne s; jacobianBlockNeighbor := jacobianBlockNeighbor s |}.

Definition with_fe_problem (v : FEProblem) (s : State) : State :=
  {| params := params s; sys := sys s; fe_problem := v;
     _slave_to_master_map := _slave_to_master_map s; _current_node := _current_node s;
     _u_slave := _u_slave s; _test_slave := _test_slave s; _phi_slave := _phi_slave s;
     _connected_dof_indices := _connected_dof_indices s;
     _constraint_residual := _constraint_residual s; idx := idx s;
     _Kee := _Kee s; _Kne := _Kne s; jacobianBlockNeighbor := jacobianBlockNeighbor s |}.

Definition with_map (v : gmap dof_id_type dof_id_type) (s : State) : State :=
  {| params := params s; sys := sys s; fe_problem := fe_problem s;
     _slave_to_master_map := v; _current_node := _current_node s;
     _u_slave := _u_slave s; _test_slave := _test_slave s; _phi_slave := _phi_slave s;
     _connected_dof_indices := _connected_dof_indices s;
     _constraint_residual := _constraint_residual s; idx := idx s;
     _Kee := _Kee s; _Kne := _Kne s; jacobianBlockNeighbor := jacobianBlockNeighbor s |}.

Definition with_phi_slave (v : list (list Real)) (s : State) : State :=
  {| params := params s; sys := sys s; fe_problem := fe_problem s;
     _slave_to_master_map := _slave_to_master_map s; _current_node := _current_node s;
     _u_slave := _u_slave s; _test_slave := _test_slave s; _phi_slave := v;
     _connected_dof_indices := _connected_dof_indices s;
     _constraint_residual := _constraint_residual s; idx := idx s;
     _Kee := _Kee s; _Kne := _Kne s; jacobianBlockNeighbor := jacobianBlockNeighbor s |}.

Definition with_connected (v : list dof_id_type) (s : State) : State :=
  {| params := params s; sys := sys s; fe_problem := fe_problem s;
     _slave_to_master_map := _slave_to_master_map s; _current_node := _current_node s;
     _u_slave := _u_slave s; _test_slave := _test_slave s; _phi_slave := _phi_slave s;
     _connected_dof_indices := v;
     _constraint_residual := _constraint_residual s; idx := idx s;
     _Kee := _Kee s; _Kne := _Kne s; jacobianBlockNeighbor := jacobianBlockNeighbor s |}.

Definition with_constraint_residual (v : Real) (s : State) : State :=
  {| params := params s; sys := sys s; fe_problem := fe_problem s;
     _slave_to_master_map := _slave_to_master_map s; _current_node := _current_node s;
     _u_slave := _u_slave s; _test_slave := _test_slave s; _phi_slave := _phi_slave s;
     _connected_dof_indices := _connected_dof_indices s;
     _constraint_residual := v; idx := idx s;
     _Kee := _Kee s; _Kne := _Kne s; jacobianBlockNeighbor := jacobianBlockNeighbor s |}.

Definition with_idx (v : Indices) (s : State) : State :=
  {| params := params s; sys := sys s; fe_problem := fe_problem s;
     _slave_to_master_map := _slave_to_master_map s; _current_node := _current_node s;
     _u_slave := _u_slave s; _test_slave := _test_slave s; _phi_slave := _phi_slave s;
     _connected_dof_indices := _connected_dof_indices s;
     _constraint_residual := _constraint_residual s; idx := v;
     _Kee := _Kee s; _Kne := _Kne s; jacobianBlockNeighbor := jacobianBlockNeighbor s |}.

Definition with_Kee (v : DenseMatrix) (s : State) : State :=
  {| params := params s; sys := sys s; fe_problem := fe_problem s;
     _slave_to_master_map := _slave_to_master_map s; _current_node := _current_node s;
     _u_slave := _u_slave s; _test_slave := _test_slave s; _phi_slave := _phi_slave s;
     _connected_dof_indices := _connected_dof_indices s;
     _constraint_residual := _constraint_residual s; idx := idx s;
     _Kee := v; _Kne := _Kne s; jacobianBlockNeighbor := jacobianBlockNeighbor s |}.

Definition with_Kne (v : DenseMatrix) (s : State) : State :=
  {| params := params s; sys := sys s; fe_problem := fe_problem s;
     _slave_to_master_map := _slave_to_master_map s; _current_node := _current_node s;
     _u_slave := _u_slave s; _test_slave := _test_slave s; _phi_slave := _phi_slave s;
     _connected_dof_indices := _connected_dof_indices s;
     _constraint_residual := _constraint_residual s; idx := idx s;
     _Kee := _Kee s; _Kne := v; jacobianBlockNeighbor := jacobianBlockNeighbor s |}.

Definition with_blocks (v : DGJacobianType -> N -> N -> DenseMatrix) (s : State) : State :=
  {| params := params s; sys := sys s; fe_problem := fe_problem s;
     _slave_to_master_map := _slave_to_master_map s; _current_node := _current_node s;
     _u_slave := _u_slave s; _test_slave := _test_slave s; _phi_slave := _phi_slave s;
     _connected_dof_indices := _connected_dof_indices s;
     _constraint_residual := _constraint_residual s; idx := idx s;
     _Kee := _Kee s; _Kne := _Kne s; jacobianBlockNeighbor := v |}.

Definition set_i (k : nat) (s : State) : State :=
  with_idx {| _i := k; _j := _j (idx s); _qp := _qp (idx s) |} s.
Definition set_j (k : nat) (s : State) : State :=
  with_idx {| _i := _i (idx s); _j := k; _qp := _qp (idx s) |} s.
Definition set_qp (k : nat) (s : State) : State :=
  with_idx {| _i := _i (idx s); _j := _j (idx s); _qp := k |} s.

(** The solver writes a new ghosted residual between two evaluations. *)
Definition with_residual_copy (r : dof_id_type -> Real) (s : State) : State :=
  with_sys {| _residual_copy := r; _jacobian := _jacobian (sys s);
              nodalDofIndex := nodalDofIndex (sys s) |} s.

(** Computations that change the state, or stop with an error. *)
Definition M (A : Type) : Type := State -> Result (A * State).

(** The dof of the constrained variable at the current node:
    [_current_node->dof_number(sys_num, _var.number(), 0)]. *)
Definition slave_dof (s : State) : dof_id_type :=
  dof_number (_current_node s) (sys_number (params s)) (var_number (params s)) 0%N.

(** ** reinitConstraint *)

Definition reinitConstraint : M unit := fun s =>
  let dof := slave_dof s in
  match _formulation (params s) with
  | KINEMATIC =>
      Ok (tt, with_constraint_residual (- _residual_copy (sys s) dof)%float s)
  | PENALTY =>
      us <- at_index (_u_slave s) 0 ;;
      um <- at_index (_u_master s) 0 ;;
      Ok (tt, with_constraint_residual (_penalty (params s) * (us - um))%float s)
  | InvalidFormulation _ => Err (MooseError "Invalid formulation")
  end.

(** ** computeQpSlaveValue *)

Definition computeQpSlaveValue (s : State) : Result Real :=
  at_index (_u_slave s) (_qp (idx s)).

(** ** computeQpResidual *)

Definition computeQpResidual (type : ConstraintType) (s : State) : Result Real :=
  let resid := _constraint_residual s in
  match type with
  | Slave =>
      resid <-
        match _formulation (params s) with
        | KINEMATIC =>
            us <- at_index (_u_slave s) (_qp (idx s)) ;;
            um <- at_index (_u_master s) (_qp (idx s)) ;;
            let pen_force := (_penalty (params s) * (us - um))%float in
            Ok (resid + pen_force)%float
        | _ => Ok resid
        end ;;
      t <- shape (_test_slave s) (_i (idx s)) (_qp (idx s)) ;;
      Ok (t * resid)%float
  | Master =>
      t <- shape (_test_master s) (_i (idx s)) (_qp (idx s)) ;;
      Ok (t * - resid)%float
  end.

(** ** computeQpJacobian *)

(** The entry of the system Jacobian at (slave dof, [_connected_dof_indices[_j]]). *)
Definition slave_jacobian_entry (s : State) : Result Real :=
  c <- at_index (_connected_dof_indices s) (_j (idx s)) ;;
  Ok (_jacobian (sys s) (slave_dof s) c).

Definition computeQpJacobian (type : ConstraintJacobianType) (s : State) : Result Real :=
  let penalty := _penalty (params s) in
  let i := _i (idx s) in
  let j := _j (idx s) in
  let qp := _qp (idx s) in
  match type with
  | SlaveSlave =>
      match _formulation (params s) with
      | KINEMATIC =>
          curr_jac <- slave_jacobian_entry s ;;
          phi <- shape (_phi_slave s) j qp ;;
          test <- shape (_test_slave s) i qp ;;
          Ok (- curr_jac + phi * penalty * test)%float
      | PENALTY =>
          phi <- shape (_phi_slave s) j qp ;;
          test <- shape (_test_slave s) i qp ;;
          Ok (phi * penalty * test)%float
      | InvalidFormulation _ => Err (MooseError "Invalid formulation")
      end
  | SlaveMaster =>
      match _formulation (params s) with
      | KINEMATIC =>
          phi <- shape (_phi_master s) j qp ;;
          test <- shape (_test_slave s) i qp ;;
          Ok (- phi * penalty * test)%float
      | PENALTY =>
          phi <- shape (_phi_master s) j qp ;;
          test <- shape (_test_slave s) i qp ;;
          Ok (- phi * penalty * test)%float
      | InvalidFormulation _ => Err (MooseError "Invalid formulation")
      end
  | MasterSlave =>
      match _formulation (params s) with
      | KINEMATIC =>
          slave_jac <- slave_jacobian_entry s ;;
          test <- shape (_test_master s) i qp ;;
          Ok (slave_jac * test)%float
      | PENALTY =>
          phi <- shape (_phi_slave s) j qp ;;
          test <- shape (_test_master s) i qp ;;
          Ok (- phi * penalty * test)%float
      | InvalidFormulation _ => Err (MooseError "Invalid formulation")
      end
  | MasterMaster =>
      match _formulation (params s) with
      | KINEMATIC => Ok 0%float
      | PENALTY =>
          test <- shape (_test_master s) i qp ;;
          phi <- shape (_phi_master s) j qp ;;
          Ok (test * penalty * phi)%float
      | InvalidFormulation _ => Err (MooseError "Invalid formulation")
      end
  end.

(** ** computeQpOffDiagJacobian *)

Definition computeQpOffDiagJacobian (type : ConstraintJacobianType) (jvar : N) (s : State)
  : Result Real :=
  match type with
  | SlaveSlave =>
      curr_jac <- slave_jacobian_entry s ;;
      Ok (- curr_jac)%float
  | SlaveMaster => Ok 0%float
  | MasterSlave =>
      match _formulation (params s) with
      | KINEMATIC =>
          slave_jac <- slave_jacobian_entry s ;;
          test <- shape (_test_master s) (_i (idx s)) (_qp (idx s)) ;;
          Ok (slave_jac * test)%float
      | PENALTY => Ok 0%float
      | InvalidFormulation _ => Err (MooseError "Invalid formulation")
      end
  | MasterMaster => Ok 0%float
  end.

(** ** Sequencing of state-changing computations *)

Definition mret {A : Type} (a : A) : M A := fun s => Ok (a, s).

Definition mbind {A B : Type} (m : M A) (k : A -> M B) : M B := fun s =>
  match m s with
  | Ok (a, s') => k a s'
  | Err e => Err e
  end.

Definition gets {A : Type} (f : State -> A) : M A := fun s => Ok (f s, s).
Definition modify (f : State -> State) : M unit := fun s => Ok (tt, f s).
Definition lift {A : Type} (r : State -> Result A) : M A := fun s =>
  a <- r s ;; Ok (a, s).

Declare Scope m_scope.
Delimit Scope m_scope with M.
Notation "x <~ m ;; k" := (mbind m (fun x => k))
  (at level 100, m at next level, right associativity) : m_scope.
Notation "m >> k" := (mbind m (fun _ => k))
  (at level 100, right associativity) : m_scope.

(** [for (k = first; k < first + count; k++) body k] *)
Fixpoint for_range (count first : nat) (body : nat -> M unit) : M unit :=
  match count with
  | 0 => mret tt
  | S c => (body first >> for_range c (S first) body)%M
  end.

(** [for (_i = 0; _i < n; _i++) body]; the bound [n] is not changed by any
    loop body of this file, and the counter is left at [n]. *)
Definition for_i (n : nat) (body : M unit) : M unit :=
  (for_range n 0 (fun k => modify (set_i k) >> body) >> modify (set_i n))%M.

Definition for_j (n : nat) (body : M unit) : M unit :=
  (for_range n 0 (fun k => modify (set_j k) >> body) >> modify (set_j n))%M.

(** ** Framework calls on the problem object *)

Definition addGhostedElem (mid : dof_id_type) (s : State) : State :=
  let fe := fe_problem s in
  with_fe_problem
    {| ghosted_elems := mid :: ghosted_elems fe;
       neighbor_subdomain := neighbor_subdomain fe;
       neighbor_elem := neighbor_elem fe;
       neighbor_points := neighbor_points fe;
       neighbor_values := neighbor_values fe |} s.

Definition setNeighborSubdomainID (e : Elem) (s : State) : State :=
  let fe := fe_problem s in
  with_fe_problem
    {| ghosted_elems := ghosted_elems fe;
       neighbor_subdomain := Some (subdomain_id e);
       neighbor_elem := neighbor_elem fe;
       neighbor_points := neighbor_points fe;
       neighbor_values := neighbor_values fe |} s.

(** [K(_i, _j) += v] on the constraint's own blocks and on a block of the
    assembly. *)
Definition Kee_add (v : Real) : M unit := fun s =>
  K <- dm_add (_Kee s) (_i (idx s)) (_j (idx s)) v ;;
  Ok (tt, with_Kee K s).

Definition Kne_add (v : Real) : M unit := fun s =>
  K <- dm_add (_Kne s) (_i (idx s)) (_j (idx s)) v ;;
  Ok (tt, with_Kne K s).

Definition set_block (t : DGJacobianType) (ivar jvar : N) (K : DenseMatrix)
    (blocks : DGJacobianType -> N -> N -> DenseMatrix)
  : DGJacobianType -> N -> N -> DenseMatrix :=
  fun t' ivar' jvar' =>
    if decide (t' = t /\ ivar' = ivar /\ jvar' = jvar) then K else blocks t' ivar' jvar'.

Definition block_add (t : DGJacobianType) (ivar jvar : N) (v : Real) : M unit := fun s =>
  K <- dm_add (jacobianBlockNeighbor s t ivar jvar) (_i (idx s)) (_j (idx s)) v ;;
  Ok (tt, with_blocks (set_block t ivar jvar K (jacobianBlockNeighbor s)) s).

(** [K.m() && K.n()] *)
Definition dm_nonempty (K : DenseMatrix) : bool :=
  negb (Nat.eqb (dm_m K) 0) && negb (Nat.eqb (dm_n K) 0).

Section Framework.

(** The mesh the constraint was built on. *)
Variable mesh : MooseMesh.

(** [reinitNeighborPhys(elem, points, tid)] evaluates the variable and its
    shape and test functions on [elem] at the given physical points. *)
Variable neighborPhys : Elem -> list Point -> NeighborValues.

(** [NodeElemConstraint::getConnectedDofIndices(var_num)], the base-class
    resolver: the dof indices it leaves in [_connected_dof_indices]. *)
Variable connectedDofIndices : N -> State -> list dof_id_type.

Definition reinitNeighborPhys (e : Elem) (points : list Point) (s : State) : State :=
  let fe := fe_problem s in
  with_fe_problem
    {| ghosted_elems := ghosted_elems fe;
       neighbor_subdomain := neighbor_subdomain fe;
       neighbor_elem := Some e;
       neighbor_points := points;
       neighbor_values := neighborPhys e points |} s.

(** ** prepareSlaveToMasterMap *)

(** The body of the inner loop for one slave node. The first component
    collects the nodes handed to the point locator, latest first. *)
Definition map_slave_node (acc : list Node * State) (sn : Node) : list Node * State :=
  let '(queried, s) := acc in
  let sid := node_id sn in
  match _slave_to_master_map s !! sid with
  | Some _ => (queried, s)
  | None =>
      match pointLocator mesh (node_point sn) {[ _master (params s) ]} with
      | Some me =>
          let mid := elem_id me in
          (sn :: queried,
           addGhostedElem mid (with_map (<[sid := mid]> (_slave_to_master_map s)) s))
      | None => (sn :: queried, s)
      end
  end.

Definition map_slave_elem (acc : list Node * State) (elem : Elem) : list Node * State :=
  foldl map_slave_node acc (node_ref_range elem).

Definition prepareSlaveToMasterMap_trace (s : State) : list Node * State :=
  foldl map_slave_elem ([], s) (active_subdomain_elements mesh (_slave (params s))).

Definition prepareSlaveToMasterMap : M unit := fun s =>
  Ok (tt, snd (prepareSlaveToMasterMap_trace s)).

(** ** shouldApply *)

Definition shouldApply : M bool := fun s =>
  match _slave_to_master_map s !! node_id (_current_node s) with
  | Some mid =>
      match elemPtr mesh mid with
      | Some master_elem =>
          let points := [node_point (_current_node s)] in
          let s := setNeighborSubdomainID master_elem s in
          let s := reinitNeighborPhys master_elem points s in
          (reinitConstraint >> mret true)%M s
      | None => Err Undefined
      end
  | None => Ok (false, s)
  end.

(** ** getConnectedDofIndices *)

(** One iteration of the loop that fills [_phi_slave]. *)
Definition fill_phi_slave (current_node_var_dof_index : dof_id_type) (j : nat) : M unit :=
  fun s =>
    row <- at_index (_phi_slave s) j ;;
    let row := vresize 1 0%float row in
    c <- at_index (_connected_dof_indices s) j ;;
    row <- store_index row (_qp (idx s))
             (if decide (c = current_node_var_dof_index) then 1%float else 0%float) ;;
    Ok (tt, with_phi_slave (<[j := row]> (_phi_slave s)) s).

Definition getConnectedDofIndices (var_num : N) : M unit :=
  (conn <~ gets (connectedDofIndices var_num) ;;
   modify (with_connected conn) >>
   modify (fun s => with_phi_slave
                      (vresize (length (_connected_dof_indices s)) [] (_phi_slave s)) s) >>
   current_node_var_dof_index <~ gets (fun s => nodalDofIndex (sys s) var_num) ;;
   modify (set_qp 0) >>
   n <~ gets (fun s => length (_connected_dof_indices s)) ;;
   for_range n 0 (fill_phi_slave current_node_var_dof_index))%M.

(** ** computeJacobian *)

Definition computeJacobian : M unit :=
  (var <~ gets (fun s => var_number (params s)) ;;
   master_var <~ gets (fun s => master_var_number (params s)) ;;
   getConnectedDofIndices var >>
   modify (fun s => with_Kee (dm_resize (length (_test_slave s))
                                        (length (_connected_dof_indices s))) s) >>
   n_test_slave <~ gets (fun s => length (_test_slave s)) ;;
   n_connected <~ gets (fun s => length (_connected_dof_indices s)) ;;
   n_test_master <~ gets (fun s => length (_test_master s)) ;;
   n_phi_master <~ gets (fun s => length (_phi_master s)) ;;
   for_i n_test_slave
     (for_j n_connected
        (v <~ lift (computeQpJacobian SlaveSlave) ;; Kee_add v)) >>
   Ken <~ gets (fun s => jacobianBlockNeighbor s ElementNeighbor var var) ;;
   (if dm_nonempty Ken then
      for_i n_test_slave
        (for_j n_phi_master
           (v <~ lift (computeQpJacobian SlaveMaster) ;;
            block_add ElementNeighbor var var v))
    else mret tt) >>
   modify (fun s => with_Kne (dm_resize n_test_master n_connected) s) >>
   for_i n_test_master
     (for_j n_connected
        (v <~ lift (computeQpJacobian MasterSlave) ;; Kne_add v)) >>
   Knn <~ gets (fun s => jacobianBlockNeighbor s NeighborNeighbor master_var var) ;;
   (if dm_nonempty Knn then
      for_i n_test_master
        (for_j n_phi_master
           (v <~ lift (computeQpJacobian MasterMaster) ;;
            block_add NeighborNeighbor master_var var v))
    else mret tt))%M.

(** ** computeOffDiagJacobian *)

Definition computeOffDiagJacobian (jvar : N) : M unit :=
  (var <~ gets (fun s => var_number (params s)) ;;
   master_var <~ gets (fun s => master_var_number (params s)) ;;
   getConnectedDofIndices jvar >>
   modify (fun s => with_Kee (dm_resize (length (_test_slave s))
                                        (length (_connected_dof_indices s))) s) >>
   n_test_slave <~ gets (fun s => length (_test_slave s)) ;;
   n_connected <~ gets (fun s => length (_connected_dof_indices s)) ;;
   n_test_master <~ gets (fun s => length (_test_master s)) ;;
   n_phi_master <~ gets (fun s => length (_phi_master s)) ;;
   for_i n_test_slave
     (for_j n_connected
        (v <~ lift (computeQpOffDiagJacobian SlaveSlave jvar) ;; Kee_add v)) >>
   for_i n_test_slave
     (for_j n_phi_master
        (v <~ lift (computeQpOffDiagJacobian SlaveMaster jvar) ;;
         block_add ElementNeighbor var jvar v)) >>
   modify (fun s => with_Kne (dm_resize n_test_master n_connected) s) >>
   Kne <~ gets _Kne ;;
   (if dm_nonempty Kne then
      for_i n_test_master
        (for_j n_connected
           (v <~ lift (computeQpOffDiagJacobian MasterSlave jvar) ;; Kne_add v))
    else mret tt) >>
   for_i n_test_master
     (for_j n_phi_master
        (v <~ lift (computeQpOffDiagJacobian MasterMaster jvar) ;;
         block_add NeighborNeighbor master_var jvar v)))%M.

End Framework.

(** ** Exchanging the two sides

    The state in which the slave tables of shape and test values hold the
    master values and conversely. *)
Definition swap_sides (s : State) : State :=
  let fe := fe_problem s in
  let nv := neighbor_values fe in
  {| params := params s; sys := sys s;
     fe_problem :=
       {| ghosted_elems := ghosted_elems fe;
          neighbor_subdomain := neighbor_subdomain fe;
          neighbor_elem := neighbor_elem fe;
          neighbor_points := neighbor_points fe;
          neighbor_values :=
            {| nv_u := nv_u nv; nv_phi := _phi_slave s; nv_test := _test_slave s |} |};
     _slave_to_master_map := _slave_to_master_map s; _current_node := _current_node s;
     _u_slave := _u_slave s; _test_slave := nv_test nv; _phi_slave := nv_phi nv;
     _connected_dof_indices := _connected_dof_indices s;
     _constraint_residual := _constraint_residual s; idx := idx s;
     _Kee := _Kee s; _Kne := _Kne s; jacobianBlockNeighbor := jacobianBlockNeighbor s |}.


(** ** The basis of a single node

    The table that is 1 at the connected dofs equal to [dof] and 0 at the
    others, with one quadrature point per row. *)
Definition point_basis (dof : dof_id_type) (connected : list dof_id_type)
  : list (list Real) :=
  (fun c => [if decide (c = dof) then 1%float else 0%float]) <$> connected.

(** ** Reading the slave-to-master map

    The slave nodes in the order prepareSlaveToMasterMap visits them, the
    answer of the point locator for one of them, the element id of the first
    node with id [k] that the locator finds an element for, and the number
    of times nodes with id [k] were handed to the locator. *)
Definition slave_nodes (mesh : MooseMesh) (s : State) : list Node :=
  active_subdomain_elements mesh (_slave (params s)) ≫= node_ref_range.

Definition locate (mesh : MooseMesh) (s : State) (sn : Node) : option Elem :=
  pointLocator mesh (node_point sn) {[ _master (params s) ]}.

Fixpoint first_located (loc : Node -> option Elem) (k : dof_id_type) (nodes : list Node)
  : option dof_id_type :=
  match nodes with
  | [] => None
  | sn :: rest =>
      if decide (node_id sn = k) then
        match loc sn with
        | Some me => Some (elem_id me)
        | None => first_located loc k rest
        end
      else first_located loc k rest
  end.

Definition queries_of (k : dof_id_type) (queried : list Node) : nat :=
  length (filter (fun sn => node_id sn = k) queried).

(** Node ids identify the nodes of a mesh: two entries with the same id are
    the same point. *)
Definition unique_node_ids (nodes : list Node) : Prop :=
  forall n1 n2, n1 ∈ nodes -> n2 ∈ nodes -> node_id n1 = node_id n2 ->
    node_point n1 = node_point n2.

(** ** Accumulated blocks

    [K'] is [K] after [K(i, j) += vals i j] for the rows [i0 <= i < i0 + r]
    and the columns [j0 <= j < j0 + c]: the same dimensions, the addressed
    entries increased once, every other entry untouched. *)
Definition acc_rect (K : DenseMatrix) (i0 r j0 c : nat) (vals : nat -> nat -> Real)
    (K' : DenseMatrix) : Prop :=
  dm_m K' = dm_m K
  /\ dm_n K' = dm_n K
  /\ length (dm_val K') = length (dm_val K)
  /\ (forall i j, i0 <= i < i0 + r -> j0 <= j < j0 + c ->
        dm_val K' !! (i * dm_n K + j)
        = (fun x => (x + vals i j)%float) <$> dm_val K !! (i * dm_n K + j))
  /\ (forall p,
        (forall i j, i0 <= i < i0 + r -> j0 <= j < j0 + c -> p <> i * dm_n K + j) ->
        dm_val K' !! p = dm_val K !! p).

(** The result of a double loop over [rows] test indices and [cols] trial
    indices. *)
Definition accumulated (K : DenseMatrix) (rows cols : nat) (vals : nat -> nat -> Real)
    (K' : DenseMatrix) : Prop :=
  acc_rect K 0 rows 0 cols vals K'.

(** What the per-quadrature-point functions and the loop bounds read:
    every member but the loop counters and the Jacobian blocks. *)
Definition inputs (s : State) :=
  (params s, sys s, fe_problem s, _slave_to_master_map s, _current_node s,
   _u_slave s, _test_slave s, _phi_slave s, _connected_dof_indices s,
   _constraint_residual s).

(** The state that getConnectedDofIndices(var_num) leaves: the connectivity
    of the base class, the counter [_qp] at 0 and the basis of the current
    node. *)
Definition after_connectivity (connectedDofIndices : N -> State -> list dof_id_type)
    (var_num : N) (s : State) : State :=
  with_phi_slave
    (point_basis (nodalDofIndex (sys s) var_num) (connectedDofIndices var_num s))
    (set_qp 0 (with_connected (connectedDofIndices var_num s) s)).

(** A function of the state that depends on the loop counters and on
    [inputs] only. *)
Definition reads_inputs (f : State -> Result Real) : Prop :=
  forall s1 s2, inputs s1 = inputs s2 -> idx s1 = idx s2 -> f s1 = f s2.

(** A block has storage for [rows] x [cols] contributions. *)
Definition has_storage (K : DenseMatrix) (rows cols : nat) : Prop :=
  cols <= dm_n K /\ rows * dm_n K <= length (dm_val K).

(** The contribution [f] at the counters (i, j) evaluates to [vals i j] on
    the state [s], for [i < rows] and [j < cols]. *)
Definition contributions (f : State -> Result Real) (vals : nat -> nat -> Real)
    (rows cols : nat) (s : State) : Prop :=
  forall i j, i < rows -> j < cols ->
    f (with_idx {| _i := i; _j := j; _qp := _qp (idx s) |} s) = Ok (vals i j).

(** ** A two-block example

    Two one-element blocks on a line whose meshes do not match. The slave
    element (block 1) spans x in [0, 1] with nodes 0 and 1; the master element
    (block 2) spans x in [0.5, 2.5] with nodes 2 and 3. Slave node 1 lies
    inside the master element, slave node 0 lies outside every master element.
    One variable (number 0) in system 0; the dof at a node is the node id. *)
Module Example.

Definition at_x (x : Real) : Point := {| pt_x := x; pt_y := 0%float; pt_z := 0%float |}.

Definition node (id : N) (x : Real) : Node :=
  {| node_point := at_x x; node_id := id;
     dof_number := fun _ var _ => (id + 100 * var)%N |}.

Definition slave_elem : Elem :=
  {| elem_id := 0%N; subdomain_id := 1%N;
     node_ref_range := [node 0 0%float; node 1 1%float] |}.

Definition master_elem : Elem :=
  {| elem_id := 1%N; subdomain_id := 2%N;
     node_ref_range := [node 2 0.5%float; node 3 2.5%float] |}.

Definition mesh : MooseMesh :=
  {| active_subdomain_elements := fun sd =>
       if decide (sd = 1%N) then [slave_elem]
       else if decide (sd = 2%N) then [master_elem] else [];
     elemPtr := fun id =>
       if decide (id = 0%N) then Some slave_elem
       else if decide (id = 1%N) then Some master_elem else None;
     pointLocator := fun p allowed =>
       if bool_decide (2%N ∈ allowed) && PrimFloat.leb 0.5%float (pt_x p)
          && PrimFloat.leb (pt_x p) 2.5%float
       then Some master_elem else None |}.

(** Linear shape functions of the master element at x = 1: 0.75 and 0.25;
    the master field value there is 1. *)
Definition neighborPhys (e : Elem) (points : list Point) : NeighborValues :=
  {| nv_u := [1%float];
     nv_phi := [[0.75%float]; [0.25%float]];
     nv_test := [[0.75%float]; [0.25%float]] |}.

(** The slave dof followed by the dofs of the master element. *)
Definition connectedDofIndices (var_num : N) (s : State) : list dof_id_type :=
  [(1 + 100 * var_num)%N; (2 + 100 * var_num)%N; (3 + 100 * var_num)%N].

Definition no_neighbor : FEProblem :=
  {| ghosted_elems := []; neighbor_subdomain := None; neighbor_elem := None;
     neighbor_points := [];
     neighbor_values := {| nv_u := []; nv_phi := []; nv_test := [] |} |}.

Definition empty_matrix : DenseMatrix := {| dm_m := 0; dm_n := 0; dm_val := [] |}.

(** The assembly holds a slave-master block of 1 x 2 entries and a
    master-master block of 2 x 2 entries for the coupling with variable 0,
    and blocks without storage for every other variable. *)
Definition blocks (t : DGJacobianType) (ivar jvar : N) : DenseMatrix :=
  if decide (jvar = 0%N) then
    match t with
    | ElementNeighbor => dm_resize 1 2
    | NeighborNeighbor => dm_resize 2 2
    | _ => empty_matrix
    end
  else empty_matrix.

(** The object as its constructor leaves it, before the map is prepared,
    with the assembly positioned on slave node 1 (slave value 2). *)
Definition initial (f : Formulation) : State :=
  {| params := {| _formulation := f; _penalty := 10%float;
                  _slave := 1%N; _master := 2%N;
                  var_number := 0%N; master_var_number := 0%N; sys_number := 0%N |};
     sys := {| _residual_copy := fun dof => if decide (dof = 1%N) then 3%float else 0%float;
               _jacobian := fun r c => if decide (r = c) then 4%float else 0.5%float;
               nodalDofIndex := fun var => (1 + 100 * var)%N |};
     fe_problem := no_neighbor;
     _slave_to_master_map := ∅;
     _current_node := node 1 1%float;
     _u_slave := [2%float];
     _test_slave := [[1%float]];
     _phi_slave := [];
     _connected_dof_indices := [];
     _constraint_residual := 0%float;
     idx := {| _i := 0; _j := 0; _qp := 0 |};
     _Kee := empty_matrix; _Kne := empty_matrix;
     jacobianBlockNeighbor := blocks |}.

(** The object once slave node 1 is mapped to the master element. *)
Definition mapped (f : Formulation) : State :=
  with_map {[ 1%N := 1%N ]} (initial f).

(** The same object once the master element is the neighbor context and
    the connectivity of variable 0 is resolved. *)
Definition on_master (f : Formulation) : State :=
  with_phi_slave [[1%float]; [0%float]; [0%float]]
    (with_connected [1%N; 2%N; 3%N]
       (reinitNeighborPhys neighborPhys master_elem [at_x 1%float]
          (setNeighborSubdomainID master_elem (mapped f)))).

(** The same object when the assembly holds no storage at all. *)
Definition without_storage (f : Formulation) : State :=
  with_blocks (fun _ _ _ => empty_matrix) (on_master f).

Definition value_of (r : Result Real) : Real :=
  match r with
  | Ok v => v
  | Err _ => 0%float
  end.

(** The contributions of the four blocks at the counters (i, j). *)
Definition jacobian_vals (f : Formulation) (type : ConstraintJacobianType) (i j : nat)
  : Real :=
  value_of (computeQpJacobian type
              (with_idx {| _i := i; _j := j; _qp := 0 |}
                 (after_connectivity connectedDofIndices 0 (on_master f)))).

End Example.

(** ** The assembly loop over the slave nodes

    The framework positions the constraint on a node before it calls
    shouldApply. *)
Definition with_current_node (sn : Node) (s : State) : State :=
  {| params := params s; sys := sys s; fe_problem := fe_problem s;
     _slave_to_master_map := _slave_to_master_map s; _current_node := sn;
     _u_slave := _u_slave s; _test_slave := _test_slave s; _phi_slave := _phi_slave s;
     _connected_dof_indices := _connected_dof_indices s;
     _constraint_residual := _constraint_residual s; idx := idx s;
     _Kee := _Kee s; _Kne := _Kne s; jacobianBlockNeighbor := jacobianBlockNeighbor s |}.

(** An element the point locator returns is an element of the mesh, found
    again under its id. *)
Definition locator_consistent (mesh : MooseMesh) : Prop :=
  forall p allowed me,
    pointLocator mesh p allowed = Some me -> elemPtr mesh (elem_id me) = Some me.

(** Two states that differ at most in the slave-to-master map and in the
    elements registered for ghosting. *)
Definition same_but_map (s s' : State) : Prop :=
  params s' = params s /\ sys s' = sys s
  /\ neighbor_subdomain (fe_problem s') = neighbor_subdomain (fe_problem s)
  /\ neighbor_elem (fe_problem s') = neighbor_elem (fe_problem s)
  /\ neighbor_points (fe_problem s') = neighbor_points (fe_problem s)
  /\ neighbor_values (fe_problem s') = neighbor_values (fe_problem s)
  /\ _current_node s' = _current_node s
  /\ _u_slave s' = _u_slave s /\ _test_slave s' = _test_slave s
  /\ _phi_slave s' = _phi_slave s
  /\ _connected_dof_indices s' = _connected_dof_indices s
  /\ _constraint_residual s' = _constraint_residual s
  /\ idx s' = idx s /\ _Kee s' = _Kee s /\ _Kne s' = _Kne s
  /\ jacobianBlockNeighbor s' = jacobianBlockNeighbor s.

(** ** A second example: two slave elements sharing a node

    The slave block of the two-block example with one more element, spanning
    x in [-1, 0] with nodes 4 and 0, visited first. Node 0 belongs to both
    slave elements and lies outside the master element. *)
Module Example2.

Definition slave_elem2 : Elem :=
  {| elem_id := 2%N; subdomain_id := 1%N;
     node_ref_range := [Example.node 4 (-1)%float; Example.node 0 0%float] |}.

Definition mesh : MooseMesh :=
  {| active_subdomain_elements := fun sd =>
       if decide (sd = 1%N) then [slave_elem2; Example.slave_elem]
       else if decide (sd = 2%N) then [Example.master_elem] else [];
     elemPtr := fun id =>
       if decide (id = 0%N) then Some Example.slave_elem
       else if decide (id = 1%N) then Some Example.master_elem
       else if decide (id = 2%N) then Some slave_elem2 else None;
     pointLocator := pointLocator Example.mesh |}.

(** An object whose map already holds an entry for node 1 that the mesh
    would not give: element 7. *)
Definition stale : State :=
  with_map {[ 1%N := 7%N ]} (Example.initial PENALTY).

End Example2.

(** ** Values met by the assembly

    [tbl[k][0]], the value of shape or test function [k] at the single
    evaluation point; the value of the basis of the current node at the
    connected dof [j]; and the entry of the system Jacobian at (slave dof,
    connected dof [j]). Indices past the end give 0; the assembly loops never
    use them. *)
Definition first_qp (tbl : list (list Real)) (k : nat) : Real :=
  match tbl !! k with
  | Some (x :: _) => x
  | _ => 0%float
  end.

Definition basis_at (dof : dof_id_type) (connected : list dof_id_type) (j : nat) : Real :=
  match connected !! j with
  | Some c => if decide (c = dof) then 1%float else 0%float
  | None => 0%float
  end.

Definition jacobian_at (s : State) (connected : list dof_id_type) (j : nat) : Real :=
  match connected !! j with
  | Some c => _jacobian (sys s) (slave_dof s) c
  | None => 0%float
  end.

(** Every shape or test function of the table has a value at the
    evaluation point. *)
Definition evaluated (tbl : list (list Real)) : Prop :=
  Forall (fun row => row <> []) tbl.

(** The contribution of computeQpJacobian to block [type] at the counters
    (i, j) under the penalty formulation, with the basis of the node whose
    dof is [dof] on the slave side. *)
Definition penalty_contribution (s : State) (dof : dof_id_type)
    (connected : list dof_id_type) (type : ConstraintJacobianType) (i j : nat) : Real :=
  let penalty := _penalty (params s) in
  match type with
  | SlaveSlave =>
      (basis_at dof connected j * penalty * first_qp (_test_slave s) i)%float
  | SlaveMaster =>
      (- first_qp (_phi_master s) j * penalty * first_qp (_test_slave s) i)%float
  | MasterSlave =>
      (- basis_at dof connected j * penalty * first_qp (_test_master s) i)%float
  | MasterMaster =>
      (first_qp (_test_master s) i * penalty * first_qp (_phi_master s) j)%float
  end.

(** The contribution of computeQpJacobian to block [type] at the counters
    (i, j) under the kinematic formulation: the slave rows reuse the entry
    of the system Jacobian at (slave dof, connected dof [j]). *)
Definition kinematic_contribution (s : State) (dof : dof_id_type)
    (connected : list dof_id_type) (type : ConstraintJacobianType) (i j : nat) : Real :=
  let penalty := _penalty (params s) in
  match type with
  | SlaveSlave =>
      (- jacobian_at s connected j
       + basis_at dof connected j * penalty * first_qp (_test_slave s) i)%float
  | SlaveMaster =>
      (- first_qp (_phi_master s) j * penalty * first_qp (_test_slave s) i)%float
  | MasterSlave =>
      (jacobian_at s connected j * first_qp (_test_master s) i)%float
  | MasterMaster => 0%float
  end.

(** * Properties *)

(** ** Reading the tables *)

Lemma at_index_Ok {A : Type} (v : list A) (k : nat) (x : A) :
  at_index v k = Ok x <-> v !! k = Some x.
Proof.
  unfold at_index. destruct (v !! k); split; intros H; inversion H; reflexivity.
Qed.

Lemma shape_Ok (tbl : list (list Real)) (k qp : nat) (x : Real) :
  shape tbl k qp = Ok x <->
  exists row, tbl !! k = Some row /\ row !! qp = Some x.
Proof.
  unfold shape, rbind, at_index. split.
  - destruct (tbl !! k) as [row|]; [|discriminate].
    destruct (row !! qp) eqn:E; [|discriminate].
    intros H. inversion H. subst. eauto.
  - intros (row & -> & ->). reflexivity.
Qed.


(** ** The constraint residual (reinitConstraint) *)

(** C1. Every activation recomputes the constraint residual from the current
    inputs. Under the kinematic formulation the new value is the negation of
    the ghosted residual at the slave node's dof of the constrained variable;
    under the penalty formulation it is penalty * (slave value - master
    value) at the evaluation point. The value stored by an earlier activation
    has no influence, and when the ghosted residual is replaced between two
    activations the second activation yields the negation of the new entry. *)
Theorem reinitConstraint_recomputes (s : State) :
  (_formulation (params s) = KINEMATIC ->
     reinitConstraint s =
       Ok (tt, with_constraint_residual (- _residual_copy (sys s) (slave_dof s))%float s))
  /\ (_formulation (params s) = PENALTY ->
      forall us um : Real,
        _u_slave s !! 0 = Some us -> _u_master s !! 0 = Some um ->
        reinitConstraint s =
          Ok (tt, with_constraint_residual (_penalty (params s) * (us - um))%float s))
  /\ (forall stale : Real,
        reinitConstraint (with_constraint_residual stale s) = reinitConstraint s)
  /\ (_formulation (params s) = KINEMATIC ->
      forall (s1 : State) (r : dof_id_type -> Real),
        reinitConstraint s = Ok (tt, s1) ->
        exists s2,
          reinitConstraint (with_residual_copy r s1) = Ok (tt, s2)
          /\ _constraint_residual s2 = (- r (slave_dof s))%float).
Proof.
  split; [|split; [|split]].
  - intros Hf. unfold reinitConstraint. rewrite Hf. reflexivity.
  - intros Hf us um Hus Hum. unfold reinitConstraint. rewrite Hf.
    apply at_index_Ok in Hus.
    apply at_index_Ok in Hum.
    rewrite Hus. cbn [rbind]. rewrite Hum. reflexivity.
  - intros stale. unfold reinitConstraint. cbn [params with_constraint_residual].
    destruct (_formulation (params s)); reflexivity.
  - intros Hf s1 r Hs1. unfold reinitConstraint in Hs1. rewrite Hf in Hs1.
    inversion Hs1; subst s1; clear Hs1.
    eexists. split.
    + unfold reinitConstraint. cbn [params with_residual_copy with_sys
        with_constraint_residual]. rewrite Hf. reflexivity.
    + reflexivity.
Qed.

(** ** Residual contributions (computeQpResidual) *)

(** C2, as the code has it. For every test function index [_i] and
    quadrature point [_qp], each side under the lookups that side reads: the
    slave-side residual is test_slave * (constraint residual + penalty *
    (slave - master)) under the kinematic formulation and test_slave *
    constraint residual otherwise, where the field values are not read; the
    master-side residual is test_master * (- constraint residual) whatever
    the slave tables hold. With the penalty formulation, penalty 10, slave
    value 2 and master value 1 the constraint residual is 10, the slave
    contribution is test_slave * 10 and the master contribution is
    test_master * (-10). *)
Theorem computeQpResidual_formula (s : State) :
  (forall psi_slave : Real,
     shape (_test_slave s) (_i (idx s)) (_qp (idx s)) = Ok psi_slave ->
     (_formulation (params s) = KINEMATIC ->
      forall us um : Real,
        _u_slave s !! _qp (idx s) = Some us ->
        _u_master s !! _qp (idx s) = Some um ->
        computeQpResidual Slave s =
          Ok (psi_slave * (_constraint_residual s + _penalty (params s) * (us - um)))%float)
     /\ (_formulation (params s) <> KINEMATIC ->
         computeQpResidual Slave s = Ok (psi_slave * _constraint_residual s)%float))
  /\ (forall psi_master : Real,
        shape (_test_master s) (_i (idx s)) (_qp (idx s)) = Ok psi_master ->
        computeQpResidual Master s = Ok (psi_master * - _constraint_residual s)%float)
  /\ (_formulation (params s) = PENALTY -> _penalty (params s) = 10%float ->
      _u_slave s !! 0 = Some 2%float -> _u_master s !! 0 = Some 1%float ->
      exists s',
        reinitConstraint s = Ok (tt, s')
        /\ _constraint_residual s' = 10%float
        /\ (forall psi_slave : Real,
              shape (_test_slave s) (_i (idx s)) (_qp (idx s)) = Ok psi_slave ->
              computeQpResidual Slave s' = Ok (psi_slave * 10)%float)
        /\ (forall psi_master : Real,
              shape (_test_master s) (_i (idx s)) (_qp (idx s)) = Ok psi_master ->
              computeQpResidual Master s' = Ok (psi_master * - 10)%float)).
Proof.
  split; [|split].
  - intros psi_slave Hts. split.
    + intros Hf us um Hus Hum.
      apply at_index_Ok in Hus. apply at_index_Ok in Hum.
      unfold computeQpResidual. rewrite Hf, Hus. cbn [rbind].
      rewrite Hum. cbn [rbind]. rewrite Hts. reflexivity.
    + intros Hf. unfold computeQpResidual.
      destruct (_formulation (params s)); [contradiction|..];
        cbn [rbind]; rewrite Hts; reflexivity.
  - intros psi_master Htm. unfold computeQpResidual. rewrite Htm. reflexivity.
  - intros Hf Hpen Hus Hum.
    apply at_index_Ok in Hus. apply at_index_Ok in Hum.
    eexists. split; [|split; [|split]].
    + unfold reinitConstraint. rewrite Hf, Hus. cbn [rbind]. rewrite Hum.
      cbn [rbind]. reflexivity.
    + cbn [_constraint_residual with_constraint_residual]. rewrite Hpen. reflexivity.
    + intros psi_slave Hts. unfold computeQpResidual.
      cbn [params idx _test_slave _constraint_residual with_constraint_residual].
      rewrite Hf, Hpen. cbn [rbind]. rewrite Hts. reflexivity.
    + intros psi_master Htm. unfold computeQpResidual.
      change (_test_master (with_constraint_residual ?v s)) with (_test_master s).
      cbn [params idx _constraint_residual with_constraint_residual].
      rewrite Htm, Hpen. reflexivity.
Qed.

(** C2, the worked instance with a slave contribution of test_slave * 20
    does not hold: in the two-block example (penalty formulation, penalty 10,
    slave value 2, master value 1, test_slave 1) the constraint residual is
    10 and the slave contribution is 10, which differs from 1 * 20. *)
Lemma computeQpResidual_penalty_slave_is_not_20 :
  exists s',
    reinitConstraint (Example.on_master PENALTY) = Ok (tt, s')
    /\ shape (_test_slave s') (_i (idx s')) (_qp (idx s')) = Ok 1%float
    /\ _constraint_residual s' = 10%float
    /\ computeQpResidual Slave s' = Ok 10%float
    /\ computeQpResidual Slave s' <> Ok (1 * 20)%float.
Proof.
  eexists. split; [reflexivity|]. split; [reflexivity|]. split; [reflexivity|].
  split; [reflexivity|].
  intros H. apply (f_equal (result_is 20%float)) in H.
  vm_compute in H. discriminate H.
Qed.

Lemma computeQpResidual_formula_witness :
  (exists s',
     reinitConstraint (Example.on_master PENALTY) = Ok (tt, s')
     /\ _constraint_residual s' = 10%float
     /\ computeQpResidual Slave s' = Ok (1 * 10)%float
     /\ computeQpResidual Master s' = Ok (0.75 * - 10)%float)
  /\ computeQpResidual Slave (Example.on_master KINEMATIC) = Ok (1 * (0 + 10 * (2 - 1)))%float
  /\ shape (_test_slave (set_i 1 (Example.on_master PENALTY))) 1 0 = Err Undefined
  /\ computeQpResidual Master (set_i 1 (Example.on_master PENALTY)) = Ok (0.25 * - 0)%float.
Proof.
  split; [|split; [|split]].
  - destruct (proj2 (proj2 (computeQpResidual_formula (Example.on_master PENALTY)))
                eq_refl eq_refl eq_refl eq_refl) as (s' & Hr & Hc & Hs & Hm).
    exists s'. split; [exact Hr|]. split; [exact Hc|]. split.
    + apply Hs. reflexivity.
    + apply Hm. reflexivity.
  - apply (proj1 (proj1 (computeQpResidual_formula (Example.on_master KINEMATIC))
                    1%float eq_refl) eq_refl 2%float 1%float); reflexivity.
  - reflexivity.
  - apply (proj1 (proj2 (computeQpResidual_formula (set_i 1 (Example.on_master PENALTY))))
             0.25%float). reflexivity.
Defined.

(** ** Jacobian contributions (computeQpJacobian) *)

(** C3. For all test and trial indices [_i], [_j] and both formulations,
    each block under the lookups that block reads, with phi the trial values
    and psi the test values at the indices of the state and J the entry of
    the system Jacobian at (slave node dof, connected dof [_j]): slave-slave
    is - J + phi_slave * penalty * psi_slave (kinematic) or phi_slave *
    penalty * psi_slave (penalty); slave-master is - phi_master * penalty *
    psi_slave in both; master-slave is J * psi_master (kinematic) or
    - phi_slave * penalty * psi_master (penalty); master-master is 0
    (kinematic, whatever the state holds) or psi_master * penalty *
    phi_master (penalty). *)
Theorem computeQpJacobian_table (s : State) :
  (_formulation (params s) = KINEMATIC ->
     (forall (phi_slave psi_slave : Real) (c : dof_id_type),
        shape (_phi_slave s) (_j (idx s)) (_qp (idx s)) = Ok phi_slave ->
        shape (_test_slave s) (_i (idx s)) (_qp (idx s)) = Ok psi_slave ->
        _connected_dof_indices s !! _j (idx s) = Some c ->
        computeQpJacobian SlaveSlave s =
          Ok (- _jacobian (sys s) (slave_dof s) c
              + phi_slave * _penalty (params s) * psi_slave)%float)
     /\ (forall phi_master psi_slave : Real,
           shape (_phi_master s) (_j (idx s)) (_qp (idx s)) = Ok phi_master ->
           shape (_test_slave s) (_i (idx s)) (_qp (idx s)) = Ok psi_slave ->
           computeQpJacobian SlaveMaster s =
             Ok (- phi_master * _penalty (params s) * psi_slave)%float)
     /\ (forall (psi_master : Real) (c : dof_id_type),
           shape (_test_master s) (_i (idx s)) (_qp (idx s)) = Ok psi_master ->
           _connected_dof_indices s !! _j (idx s) = Some c ->
           computeQpJacobian MasterSlave s =
             Ok (_jacobian (sys s) (slave_dof s) c * psi_master)%float)
     /\ computeQpJacobian MasterMaster s = Ok 0%float)
  /\ (_formulation (params s) = PENALTY ->
      (forall phi_slave psi_slave : Real,
         shape (_phi_slave s) (_j (idx s)) (_qp (idx s)) = Ok phi_slave ->
         shape (_test_slave s) (_i (idx s)) (_qp (idx s)) = Ok psi_slave ->
         computeQpJacobian SlaveSlave s =
           Ok (phi_slave * _penalty (params s) * psi_slave)%float)
      /\ (forall phi_master psi_slave : Real,
            shape (_phi_master s) (_j (idx s)) (_qp (idx s)) = Ok phi_master ->
            shape (_test_slave s) (_i (idx s)) (_qp (idx s)) = Ok psi_slave ->
            computeQpJacobian SlaveMaster s =
              Ok (- phi_master * _penalty (params s) * psi_slave)%float)
      /\ (forall phi_slave psi_master : Real,
            shape (_phi_slave s) (_j (idx s)) (_qp (idx s)) = Ok phi_slave ->
            shape (_test_master s) (_i (idx s)) (_qp (idx s)) = Ok psi_master ->
            computeQpJacobian MasterSlave s =
              Ok (- phi_slave * _penalty (params s) * psi_master)%float)
      /\ (forall psi_master phi_master : Real,
            shape (_test_master s) (_i (idx s)) (_qp (idx s)) = Ok psi_master ->
            shape (_phi_master s) (_j (idx s)) (_qp (idx s)) = Ok phi_master ->
            computeQpJacobian MasterMaster s =
              Ok (psi_master * _penalty (params s) * phi_master)%float)).
Proof.
  split; intros Hf; unfold computeQpJacobian, slave_jacobian_entry; rewrite Hf.
  - split; [|split; [|split]].
    + intros phi_slave psi_slave c Hps Hts Hc. apply at_index_Ok in Hc.
      rewrite Hc. cbn [rbind]. rewrite Hps. cbn [rbind]. rewrite Hts. reflexivity.
    + intros phi_master psi_slave Hpm Hts.
      rewrite Hpm. cbn [rbind]. rewrite Hts. reflexivity.
    + intros psi_master c Htm Hc. apply at_index_Ok in Hc.
      rewrite Hc. cbn [rbind]. rewrite Htm. reflexivity.
    + reflexivity.
  - split; [|split; [|split]].
    + intros phi_slave psi_slave Hps Hts.
      rewrite Hps. cbn [rbind]. rewrite Hts. reflexivity.
    + intros phi_master psi_slave Hpm Hts.
      rewrite Hpm. cbn [rbind]. rewrite Hts. reflexivity.
    + intros phi_slave psi_master Hps Htm.
      rewrite Hps. cbn [rbind]. rewrite Htm. reflexivity.
    + intros psi_master phi_master Htm Hpm.
      rewrite Htm. cbn [rbind]. rewrite Hpm. reflexivity.
Qed.

Lemma computeQpJacobian_table_witness :
  (computeQpJacobian SlaveSlave (Example.on_master KINEMATIC) = Ok (- 4 + 1 * 10 * 1)%float
   /\ computeQpJacobian SlaveMaster (Example.on_master KINEMATIC) = Ok (- 0.75 * 10 * 1)%float
   /\ computeQpJacobian MasterSlave (Example.on_master KINEMATIC) = Ok (4 * 0.75)%float
   /\ computeQpJacobian MasterMaster (Example.on_master KINEMATIC) = Ok 0%float)
  /\ shape (_test_slave (set_i 1 (Example.on_master PENALTY))) 1 0 = Err Undefined
  /\ computeQpJacobian MasterMaster (set_i 1 (Example.on_master PENALTY))
     = Ok (0.25 * 10 * 0.75)%float
  /\ computeQpJacobian MasterSlave (set_i 1 (Example.on_master PENALTY))
     = Ok (- 1 * 10 * 0.25)%float
  /\ computeQpJacobian MasterSlave (set_i 1 (Example.on_master KINEMATIC))
     = Ok (4 * 0.25)%float.
Proof.
  split; [|split; [|split; [|split]]].
  - destruct (proj1 (computeQpJacobian_table (Example.on_master KINEMATIC)) eq_refl)
      as (Hss & Hsm & Hms & Hmm).
    split; [|split; [|split]].
    + apply (Hss 1%float 1%float 1%N); reflexivity.
    + apply (Hsm 0.75%float 1%float); reflexivity.
    + apply (Hms 0.75%float 1%N); reflexivity.
    + exact Hmm.
  - reflexivity.
  - apply (proj2 (proj2 (proj2 (proj2 (computeQpJacobian_table
              (set_i 1 (Example.on_master PENALTY))) eq_refl)))
             0.25%float 0.75%float); reflexivity.
  - apply (proj1 (proj2 (proj2 (proj2 (computeQpJacobian_table
              (set_i 1 (Example.on_master PENALTY))) eq_refl)))
             1%float 0.25%float); reflexivity.
  - apply (proj1 (proj2 (proj2 (proj1 (computeQpJacobian_table
              (set_i 1 (Example.on_master KINEMATIC))) eq_refl)))
             0.25%float 1%N); reflexivity.
Defined.

(** ** Cross-variable Jacobian contributions (computeQpOffDiagJacobian) *)

(** C4. For every other variable [jvar]: the slave-master and master-master
    values are 0 under every formulation; the slave-slave value is - J, with
    no penalty term, under every formulation; the master-slave value is
    J * psi_master under the kinematic formulation and 0 under the penalty
    formulation. *)
Theorem computeQpOffDiagJacobian_table (s : State) (jvar : N) :
  computeQpOffDiagJacobian SlaveMaster jvar s = Ok 0%float
  /\ computeQpOffDiagJacobian MasterMaster jvar s = Ok 0%float
  /\ (_formulation (params s) = PENALTY ->
      computeQpOffDiagJacobian MasterSlave jvar s = Ok 0%float)
  /\ (forall (c : dof_id_type),
        _connected_dof_indices s !! _j (idx s) = Some c ->
        let J := _jacobian (sys s) (slave_dof s) c in
        computeQpOffDiagJacobian SlaveSlave jvar s = Ok (- J)%float
        /\ (forall psi_master : Real,
              shape (_test_master s) (_i (idx s)) (_qp (idx s))
                = Ok psi_master ->
              _formulation (params s) = KINEMATIC ->
              computeQpOffDiagJacobian MasterSlave jvar s = Ok (J * psi_master)%float)).
Proof.
  split; [reflexivity|]. split; [reflexivity|]. split.
  - intros Hf. unfold computeQpOffDiagJacobian. rewrite Hf. reflexivity.
  - intros c Hc J.
    apply at_index_Ok in Hc.
    split.
    + unfold computeQpOffDiagJacobian, slave_jacobian_entry. rewrite Hc. reflexivity.
    + intros psi_master Htm Hf.
      unfold computeQpOffDiagJacobian, slave_jacobian_entry.
      rewrite Hf, Hc. cbn [rbind]. rewrite Htm. reflexivity.
Qed.

Lemma computeQpOffDiagJacobian_table_witness :
  computeQpOffDiagJacobian SlaveSlave 1 (Example.on_master KINEMATIC) = Ok (- 4)%float
  /\ computeQpOffDiagJacobian MasterSlave 1 (Example.on_master KINEMATIC)
     = Ok (4 * 0.75)%float.
Proof.
  destruct (proj2 (proj2 (proj2
              (computeQpOffDiagJacobian_table (Example.on_master KINEMATIC) 1%N)))
              1%N eq_refl) as [Hss Hms].
  split; [exact Hss|]. apply Hms; reflexivity.
Defined.

(** C8, the slave-master value is not the negative of the master-slave
    value: in the two-block example under the penalty formulation both
    values at the indices (0, 0) are -7.5. *)
Lemma computeQpJacobian_penalty_not_antisymmetric :
  computeQpJacobian SlaveMaster (Example.on_master PENALTY) = Ok (-7.5)%float
  /\ computeQpJacobian MasterSlave (Example.on_master PENALTY) = Ok (-7.5)%float
  /\ computeQpJacobian SlaveMaster (Example.on_master PENALTY)
     <> (v <- computeQpJacobian MasterSlave (Example.on_master PENALTY) ;; Ok (- v)%float).
Proof.
  split; [reflexivity|]. split; [reflexivity|].
  intros H. apply (f_equal (result_is (-7.5)%float)) in H.
  vm_compute in H. discriminate H.
Qed.

(** C8, as the code has it. Under the penalty formulation, for every penalty
    value and at matching indices, the slave-master value is
    - phi_master * penalty * psi_slave and the master-slave value is
    - phi_slave * penalty * psi_master: the slave-master value is the
    master-slave value computed with the slave and the master tables
    exchanged, with the same sign. *)
Theorem computeQpJacobian_penalty_exchange (s : State) :
  _formulation (params s) = PENALTY ->
  computeQpJacobian SlaveMaster s = computeQpJacobian MasterSlave (swap_sides s)
  /\ forall phi_slave psi_slave phi_master psi_master : Real,
       shape (_phi_slave s) (_j (idx s)) (_qp (idx s)) = Ok phi_slave ->
       shape (_test_slave s) (_i (idx s)) (_qp (idx s)) = Ok psi_slave ->
       shape (_phi_master s) (_j (idx s)) (_qp (idx s)) = Ok phi_master ->
       shape (_test_master s) (_i (idx s)) (_qp (idx s)) = Ok psi_master ->
       computeQpJacobian SlaveMaster s
         = Ok (- phi_master * _penalty (params s) * psi_slave)%float
       /\ computeQpJacobian MasterSlave s
          = Ok (- phi_slave * _penalty (params s) * psi_master)%float.
Proof.
  intros Hf. split.
  - unfold computeQpJacobian. cbn [params swap_sides]. rewrite Hf. reflexivity.
  - intros phi_slave psi_slave phi_master psi_master Hps Hts Hpm Htm.
    unfold computeQpJacobian. rewrite Hf, Hps, Hts, Hpm, Htm. split; reflexivity.
Qed.

Lemma computeQpJacobian_penalty_exchange_witness :
  computeQpJacobian SlaveMaster (Example.on_master PENALTY)
  = computeQpJacobian MasterSlave (swap_sides (Example.on_master PENALTY)).
Proof.
  exact (proj1 (computeQpJacobian_penalty_exchange (Example.on_master PENALTY) eq_refl)).
Defined.

(** ** Invalid formulation *)

(** C5. When the formulation is neither kinematic nor penalty, every switch
    over the formulation stops with the fatal error: the one of
    reinitConstraint, those of the four blocks of computeQpJacobian and the
    one of the master-slave block of computeQpOffDiagJacobian. A node the
    constraint applies to reaches the first of them inside shouldApply, so no
    residual or Jacobian value is returned for it. *)
Theorem invalid_formulation_is_fatal (s : State) (raw : Z) :
  _formulation (params s) = InvalidFormulation raw ->
  reinitConstraint s = Err (MooseError "Invalid formulation")
  /\ (forall type, computeQpJacobian type s = Err (MooseError "Invalid formulation"))
  /\ (forall jvar,
        computeQpOffDiagJacobian MasterSlave jvar s = Err (MooseError "Invalid formulation"))
  /\ (forall (mesh : MooseMesh) (neighborPhys : Elem -> list Point -> NeighborValues)
             (mid : dof_id_type) (master_elem : Elem),
        _slave_to_master_map s !! node_id (_current_node s) = Some mid ->
        elemPtr mesh mid = Some master_elem ->
        shouldApply mesh neighborPhys s = Err (MooseError "Invalid formulation")).
Proof.
  intros Hf. split; [|split; [|split]].
  - unfold reinitConstraint. rewrite Hf. reflexivity.
  - intros []; unfold computeQpJacobian; rewrite Hf; reflexivity.
  - intros jvar. unfold computeQpOffDiagJacobian. rewrite Hf. reflexivity.
  - intros mesh neighborPhys mid master_elem Hmap Helem.
    unfold shouldApply. rewrite Hmap, Helem.
    unfold mbind, reinitConstraint.
    cbn [params setNeighborSubdomainID reinitNeighborPhys with_fe_problem].
    rewrite Hf. reflexivity.
Qed.

Lemma invalid_formulation_is_fatal_witness :
  reinitConstraint (Example.on_master (InvalidFormulation 2))
  = Err (MooseError "Invalid formulation")
  /\ computeQpJacobian MasterMaster (Example.on_master (InvalidFormulation 2))
     = Err (MooseError "Invalid formulation")
  /\ computeQpOffDiagJacobian MasterSlave 1 (Example.on_master (InvalidFormulation 2))
     = Err (MooseError "Invalid formulation")
  /\ shouldApply Example.mesh Example.neighborPhys
       (Example.on_master (InvalidFormulation 2))
     = Err (MooseError "Invalid formulation").
Proof.
  destruct (invalid_formulation_is_fatal (Example.on_master (InvalidFormulation 2)) 2
              eq_refl) as (H1 & H2 & H3 & H4).
  split; [exact H1|]. split; [exact (H2 MasterMaster)|]. split; [exact (H3 1%N)|].
  exact (H4 Example.mesh Example.neighborPhys 1%N Example.master_elem eq_refl eq_refl).
Defined.

(** The remaining branches do not switch over the formulation: the residual
    contributions only test it against the kinematic enumerator, and three
    cross-variable blocks never read it. *)
Lemma branches_without_formulation_switch (s : State) (raw : Z) (jvar : N) :
  _formulation (params s) = InvalidFormulation raw ->
  computeQpResidual Slave s
    = (t <- shape (_test_slave s) (_i (idx s)) (_qp (idx s)) ;;
       Ok (t * _constraint_residual s)%float)
  /\ computeQpResidual Master s
     = (t <- shape (_test_master s) (_i (idx s)) (_qp (idx s)) ;;
        Ok (t * - _constraint_residual s)%float)
  /\ computeQpOffDiagJacobian SlaveSlave jvar s
     = (J <- slave_jacobian_entry s ;; Ok (- J)%float)
  /\ computeQpOffDiagJacobian SlaveMaster jvar s = Ok 0%float
  /\ computeQpOffDiagJacobian MasterMaster jvar s = Ok 0%float.
Proof.
  intros Hf. unfold computeQpResidual. rewrite Hf. repeat split.
Qed.

(** ** The synthetic slave basis (getConnectedDofIndices) *)

Lemma float_1_neq_0 : 1%float <> 0%float.
Proof.
  intros H. apply (f_equal (fun x => PrimFloat.eqb x 0%float)) in H.
  vm_compute in H. discriminate H.
Qed.

Lemma vresize_1 {A : Type} (d : A) (row : list A) : exists x, vresize 1 d row = [x].
Proof. destruct row as [|x row]; [exists d | exists x]; reflexivity. Qed.

(** The filling loop, started at row [length done], rewrites the remaining
    rows one after the other. *)
Lemma fill_phi_slave_loop (dof : dof_id_type) :
  forall (rest : list (list Real)) (conn_rest : list dof_id_type)
         (done : list (list Real)) (conn_done : list dof_id_type) (s : State),
    length rest = length conn_rest ->
    length done = length conn_done ->
    _phi_slave s = done ++ rest ->
    _connected_dof_indices s = conn_done ++ conn_rest ->
    _qp (idx s) = 0 ->
    for_range (length rest) (length done) (fill_phi_slave dof) s
    = Ok (tt, with_phi_slave (done ++ point_basis dof conn_rest) s).
Proof.
  induction rest as [|row rest IH]; intros conn_rest done conn_done s Hlen Hdone Hphi Hconn Hqp.
  - destruct conn_rest; [|discriminate]. cbn. unfold mret.
    rewrite app_nil_r in *. rewrite <- Hphi. destruct s; reflexivity.
  - destruct conn_rest as [|c conn_rest]; [discriminate|].
    cbn [length for_range]. unfold mbind at 1.
    assert (Hstep : fill_phi_slave dof (length done) s
                    = Ok (tt, with_phi_slave
                                (done ++ [if decide (c = dof) then 1%float else 0%float]
                                      :: rest) s)).
    { unfold fill_phi_slave. rewrite Hphi, Hconn, Hqp.
      unfold at_index.
      rewrite (list_lookup_middle done rest row (length done) eq_refl).
      rewrite (list_lookup_middle conn_done conn_rest c (length done) Hdone).
      unfold rbind.
      destruct (vresize_1 0%float row) as [x ->].
      unfold store_index. cbn [length]. destruct (decide (0 < 1)); [|lia].
      do 3 f_equal.
      rewrite insert_app_r_alt by apply Nat.le_refl.
      rewrite Nat.sub_diag. reflexivity. }
    rewrite Hstep.
    specialize (IH conn_rest
                  (done ++ [[if decide (c = dof) then 1%float else 0%float]])
                  (conn_done ++ [c])
                  (with_phi_slave
                     (done ++ [if decide (c = dof) then 1%float else 0%float] :: rest) s)).
    rewrite length_app in IH. cbn [length] in IH.
    replace (length done + 1) with (S (length done)) in IH by lia.
    rewrite IH.
    + cbn [with_phi_slave]. unfold point_basis. cbn [fmap list_fmap].
      rewrite <- app_assoc. reflexivity.
    + cbn in Hlen. lia.
    + rewrite length_app. cbn. lia.
    + cbn [_phi_slave with_phi_slave]. rewrite <- app_assoc. reflexivity.
    + cbn [_connected_dof_indices with_phi_slave]. rewrite Hconn, <- app_assoc. reflexivity.
    + exact Hqp.
Qed.

Lemma length_vresize {A : Type} (n : nat) (d : A) (v : list A) : length (vresize n d v) = n.
Proof. unfold vresize. rewrite length_app, length_take, length_replicate. lia. Qed.

Lemma fill_phi_slave_all (dof : dof_id_type) (s : State) :
  length (_phi_slave s) = length (_connected_dof_indices s) ->
  _qp (idx s) = 0 ->
  for_range (length (_connected_dof_indices s)) 0 (fill_phi_slave dof) s
  = Ok (tt, with_phi_slave (point_basis dof (_connected_dof_indices s)) s).
Proof.
  intros Hlen Hqp. rewrite <- Hlen.
  apply (fill_phi_slave_loop dof (_phi_slave s) (_connected_dof_indices s) [] [] s);
    auto.
Qed.

(** The state that getConnectedDofIndices leaves. *)
Lemma getConnectedDofIndices_state
    (connectedDofIndices : N -> State -> list dof_id_type) (var_num : N) (s : State) :
  getConnectedDofIndices connectedDofIndices var_num s
  = Ok (tt, after_connectivity connectedDofIndices var_num s).
Proof.
  unfold getConnectedDofIndices, mbind, gets, modify.
  cbn [_connected_dof_indices with_connected with_phi_slave set_qp with_idx sys].
  lazymatch goal with
  | |- for_range _ _ (fill_phi_slave ?dof) ?s' = _ => apply (fill_phi_slave_all dof s')
  end.
  - apply length_vresize.
  - reflexivity.
Qed.

Lemma point_basis_lookup (dof : dof_id_type) (connected : list dof_id_type) (j : nat) :
  point_basis dof connected !! j
  = (fun c => [if decide (c = dof) then 1%float else 0%float]) <$> connected !! j.
Proof. unfold point_basis. apply list_lookup_fmap. Qed.

Lemma point_basis_one (dof : dof_id_type) (connected : list dof_id_type) (j : nat) :
  point_basis dof connected !! j = Some [1%float] <-> connected !! j = Some dof.
Proof.
  rewrite point_basis_lookup. destruct (connected !! j) as [c|]; cbn.
  - destruct (decide (c = dof)) as [->|Hne]; [split; reflexivity|].
    split; intros H.
    + apply (f_equal (fun o => match o with Some [x] => x | _ => 1%float end)) in H.
      cbn in H. symmetry in H. destruct (float_1_neq_0 H).
    + congruence.
  - split; discriminate.
Qed.

(** C10. After getConnectedDofIndices(var_num) the synthetic slave basis has
    one row per connected dof index, every row holds exactly one
    quadrature-point value, that value is 1 where the connected dof index is
    the dof index of the current node for the variable and 0 elsewhere. The
    connected dof indices come from the base-class resolver without
    repetition, so at most one row is 1; when no connected dof index is the
    node's, every row is 0, and the call returns normally. *)
Theorem getConnectedDofIndices_point_basis
    (connectedDofIndices : N -> State -> list dof_id_type) (var_num : N) (s : State) :
  let conn := connectedDofIndices var_num s in
  let dof := nodalDofIndex (sys s) var_num in
  exists s',
    getConnectedDofIndices connectedDofIndices var_num s = Ok (tt, s')
    /\ _connected_dof_indices s' = conn
    /\ _qp (idx s') = 0
    /\ length (_phi_slave s') = length conn
    /\ (forall j c, conn !! j = Some c ->
          _phi_slave s' !! j = Some [if decide (c = dof) then 1%float else 0%float])
    /\ (forall j row, _phi_slave s' !! j = Some row ->
          row = [1%float] \/ row = [0%float])
    /\ (forall j, _phi_slave s' !! j = Some [1%float] <-> conn !! j = Some dof)
    /\ (NoDup conn ->
        forall j1 j2,
          _phi_slave s' !! j1 = Some [1%float] ->
          _phi_slave s' !! j2 = Some [1%float] -> j1 = j2)
    /\ (dof ∉ conn ->
        forall j row, _phi_slave s' !! j = Some row -> row = [0%float]).
Proof.
  intros conn dof. eexists. split; [apply getConnectedDofIndices_state|].
  unfold after_connectivity.
  cbn [_connected_dof_indices _phi_slave idx _qp with_phi_slave set_qp with_idx
         with_connected sys].
  fold conn. fold dof.
  split; [reflexivity|]. split; [reflexivity|].
  split; [unfold point_basis; apply length_fmap|].
  split; [|split; [|split; [|split]]].
  - intros j c Hc. rewrite point_basis_lookup, Hc. reflexivity.
  - intros j row. rewrite point_basis_lookup.
    destruct (conn !! j) as [c|]; [|discriminate]. cbn.
    intros H. inversion H. destruct (decide (c = dof)); auto.
  - intros j. apply point_basis_one.
  - intros Hnd j1 j2 H1 H2.
    apply point_basis_one in H1. apply point_basis_one in H2.
    exact (NoDup_lookup conn j1 j2 dof Hnd H1 H2).
  - intros Hnotin j row. rewrite point_basis_lookup.
    destruct (conn !! j) as [c|] eqn:Hc; [|discriminate]. cbn.
    intros H. inversion H. destruct (decide (c = dof)) as [->|]; [|reflexivity].
    destruct Hnotin. eapply list_elem_of_lookup_2. exact Hc.
Qed.

Lemma getConnectedDofIndices_point_basis_witness :
  exists s',
    getConnectedDofIndices Example.connectedDofIndices 0 (Example.initial PENALTY)
    = Ok (tt, s')
    /\ _phi_slave s' !! 0 = Some [1%float]
    /\ _phi_slave s' !! 1 = Some [0%float]
    /\ (forall j, _phi_slave s' !! j = Some [1%float] -> j = 0).
Proof.
  destruct (getConnectedDofIndices_point_basis
              Example.connectedDofIndices 0 (Example.initial PENALTY))
    as (s' & Hrun & _ & _ & _ & Hrow & _ & _ & Hone & _).
  exists s'. split; [exact Hrun|].
  assert (H0 := Hrow 0 1%N eq_refl). assert (H1 := Hrow 1 2%N eq_refl).
  split; [exact H0|]. split; [exact H1|].
  assert (Hnd : NoDup (Example.connectedDofIndices 0 (Example.initial PENALTY))).
  { apply (bool_decide_unpack _). reflexivity. }
  intros j Hj. exact (Hone Hnd j 0 Hj H0).
Defined.

(** ** The activation gate (shouldApply) *)

(** C7. When the id of the current node is no key of the slave-to-master
    map, shouldApply returns false and leaves the state as it was. When it is
    a key, the stored master element is resolved and becomes the neighbor
    context, the field and shape data are reinitialised on that element at
    the single point of the slave node, the constraint residual of the
    formulation is computed, and shouldApply returns true. *)
Theorem shouldApply_gate
    (mesh : MooseMesh) (neighborPhys : Elem -> list Point -> NeighborValues) (s : State) :
  (_slave_to_master_map s !! node_id (_current_node s) = None ->
     shouldApply mesh neighborPhys s = Ok (false, s))
  /\ (forall (mid : dof_id_type) (master_elem : Elem),
        _slave_to_master_map s !! node_id (_current_node s) = Some mid ->
        elemPtr mesh mid = Some master_elem ->
        let point := node_point (_current_node s) in
        let s1 := reinitNeighborPhys neighborPhys master_elem [point]
                    (setNeighborSubdomainID master_elem s) in
        neighbor_elem (fe_problem s1) = Some master_elem
        /\ neighbor_subdomain (fe_problem s1) = Some (subdomain_id master_elem)
        /\ neighbor_points (fe_problem s1) = [point]
        /\ neighbor_values (fe_problem s1) = neighborPhys master_elem [point]
        /\ (_formulation (params s) = KINEMATIC ->
            shouldApply mesh neighborPhys s =
              Ok (true,
                  with_constraint_residual
                    (- _residual_copy (sys s) (slave_dof s))%float s1))
        /\ (_formulation (params s) = PENALTY ->
            forall us um : Real,
              _u_slave s !! 0 = Some us ->
              nv_u (neighborPhys master_elem [point]) !! 0 = Some um ->
              shouldApply mesh neighborPhys s =
                Ok (true,
                    with_constraint_residual (_penalty (params s) * (us - um))%float s1))).
Proof.
  split.
  - intros Hmap. unfold shouldApply. rewrite Hmap. reflexivity.
  - intros mid master_elem Hmap Helem point s1.
    do 4 (split; [reflexivity|]).
    split.
    + intros Hf. unfold shouldApply. rewrite Hmap, Helem.
      unfold mbind, mret, reinitConstraint. fold point. fold s1.
      change (_formulation (params s1)) with (_formulation (params s)).
      rewrite Hf. reflexivity.
    + intros Hf us um Hus Hum. unfold shouldApply. rewrite Hmap, Helem.
      unfold mbind, mret, reinitConstraint. fold point. fold s1.
      change (_formulation (params s1)) with (_formulation (params s)).
      rewrite Hf.
      change (_u_slave s1) with (_u_slave s).
      change (_u_master s1) with (nv_u (neighborPhys master_elem [point])).
      apply at_index_Ok in Hus. apply at_index_Ok in Hum.
      rewrite Hus. unfold rbind at 1. rewrite Hum. reflexivity.
Qed.

Lemma shouldApply_gate_witness :
  shouldApply Example.mesh Example.neighborPhys (Example.initial PENALTY)
  = Ok (false, Example.initial PENALTY)
  /\ exists s',
       shouldApply Example.mesh Example.neighborPhys (Example.mapped PENALTY)
       = Ok (true, s')
       /\ neighbor_elem (fe_problem s') = Some Example.master_elem
       /\ neighbor_points (fe_problem s') = [Example.at_x 1%float]
       /\ _constraint_residual s' = 10%float.
Proof.
  split.
  - apply (proj1 (shouldApply_gate Example.mesh Example.neighborPhys
                    (Example.initial PENALTY))). reflexivity.
  - destruct (proj2 (shouldApply_gate Example.mesh Example.neighborPhys
                       (Example.mapped PENALTY))
                1%N Example.master_elem ltac:(vm_compute; reflexivity) eq_refl)
      as (_ & _ & _ & _ & _ & Hpen).
    eexists. split; [exact (Hpen eq_refl 2%float 1%float eq_refl eq_refl)|].
    repeat split.
Defined.

(** ** The slave-to-master map (prepareSlaveToMasterMap) *)

Section MapBuilder.

Variable mesh : MooseMesh.

(** The locator restricted to the subdomain [m]. *)
Let loc_of (m : subdomain_id_type) (sn : Node) : option Elem :=
  pointLocator mesh (node_point sn) {[ m ]}.

Lemma foldl_slave_elems (elems : list Elem) :
  forall acc,
    foldl (map_slave_elem mesh) acc elems
    = foldl (map_slave_node mesh) acc (elems ≫= node_ref_range).
Proof.
  induction elems as [|e elems IH]; intros acc; [reflexivity|].
  cbn [foldl]. rewrite IH. unfold map_slave_elem at 1.
  rewrite bind_cons, foldl_app. reflexivity.
Qed.

(** The three outcomes of the loop body for one node. *)
Lemma map_slave_node_cases (q : list Node) (s : State) (sn : Node) :
  (is_Some (_slave_to_master_map s !! node_id sn)
   /\ map_slave_node mesh (q, s) sn = (q, s))
  \/ (_slave_to_master_map s !! node_id sn = None
      /\ loc_of (_master (params s)) sn = None
      /\ map_slave_node mesh (q, s) sn = (sn :: q, s))
  \/ (exists me,
        _slave_to_master_map s !! node_id sn = None
        /\ loc_of (_master (params s)) sn = Some me
        /\ map_slave_node mesh (q, s) sn
           = (sn :: q,
              addGhostedElem (elem_id me)
                (with_map (<[node_id sn := elem_id me]> (_slave_to_master_map s)) s))).
Proof.
  unfold map_slave_node, loc_of.
  destruct (_slave_to_master_map s !! node_id sn) as [mid|] eqn:Hmap.
  - left. split; [eexists; reflexivity | reflexivity].
  - destruct (pointLocator mesh (node_point sn) {[ _master (params s) ]}) as [me|] eqn:Hloc.
    + right. right. exists me. repeat split; reflexivity.
    + right. left. repeat split; reflexivity.
Qed.

(** What the loop over the nodes leaves in the map, and which element ids it
    registers for ghosting. *)
Lemma foldl_slave_nodes (m : subdomain_id_type) (nodes : list Node) :
  forall (q0 : list Node) (s0 : State),
    _master (params s0) = m ->
    let r := foldl (map_slave_node mesh) (q0, s0) nodes in
    _master (params (snd r)) = m
    /\ (forall k,
          _slave_to_master_map (snd r) !! k
          = match _slave_to_master_map s0 !! k with
            | Some v => Some v
            | None => first_located (loc_of m) k nodes
            end)
    /\ (forall mid, mid ∈ ghosted_elems (fe_problem s0) ->
          mid ∈ ghosted_elems (fe_problem (snd r)))
    /\ (forall k mid,
          _slave_to_master_map s0 !! k = None ->
          _slave_to_master_map (snd r) !! k = Some mid ->
          mid ∈ ghosted_elems (fe_problem (snd r)))
    /\ length (ghosted_elems (fe_problem (snd r))) + size (_slave_to_master_map s0)
       = length (ghosted_elems (fe_problem s0)) + size (_slave_to_master_map (snd r)).
Proof.
  induction nodes as [|sn nodes IH]; intros q0 s0 Hm r.
  - subst r. cbn. split; [exact Hm|]. split.
    + intros k. destruct (_slave_to_master_map s0 !! k); reflexivity.
    + split; [auto|]. split; [|lia]. intros k mid H1 H2. congruence.
  - subst r. cbn [foldl first_located].
    destruct (map_slave_node_cases q0 s0 sn)
      as [[[v Hv] ->] | [(Hnone & Hloc & ->) | (me & Hnone & Hloc & ->)]].
    + (* the node id is already a key *)
      destruct (IH q0 s0 Hm) as (Hm' & Hmap & Hgh & Hins & Hlen).
      split; [exact Hm'|]. split; [|auto].
      intros k. rewrite Hmap.
      destruct (_slave_to_master_map s0 !! k) eqn:Hk; [reflexivity|].
      destruct (decide (node_id sn = k)) as [Heq|]; [|reflexivity].
      rewrite Heq in Hv. congruence.
    + (* the locator finds no element *)
      destruct (IH (sn :: q0) s0 Hm) as (Hm' & Hmap & Hgh & Hins & Hlen).
      split; [exact Hm'|]. split; [|auto].
      intros k. rewrite Hmap. rewrite Hm in Hloc. rewrite Hloc.
      destruct (decide (node_id sn = k)); reflexivity.
    + (* the locator finds [me]: the entry is inserted and registered *)
      set (s1 := addGhostedElem (elem_id me)
                   (with_map (<[node_id sn := elem_id me]> (_slave_to_master_map s0)) s0)).
      destruct (IH (sn :: q0) s1 Hm) as (Hm' & Hmap & Hgh & Hins & Hlen).
      rewrite Hm in Hloc.
      assert (Hkept : _slave_to_master_map
                        (snd (foldl (map_slave_node mesh) (sn :: q0, s1) nodes))
                        !! node_id sn = Some (elem_id me)).
      { rewrite Hmap. subst s1. cbn [_slave_to_master_map addGhostedElem with_fe_problem
          with_map]. rewrite lookup_insert_eq. reflexivity. }
      split; [exact Hm'|]. split; [|split; [|split]].
      * intros k. rewrite Hmap. subst s1.
        cbn [_slave_to_master_map addGhostedElem with_fe_problem with_map].
        rewrite Hloc.
        destruct (decide (node_id sn = k)) as [<-|Hne].
        -- rewrite lookup_insert_eq, Hnone. reflexivity.
        -- rewrite lookup_insert_ne by exact Hne. reflexivity.
      * intros mid Hin. apply Hgh. subst s1. cbn. apply list_elem_of_further. exact Hin.
      * intros k mid Hk0 Hk.
        destruct (decide (node_id sn = k)) as [<-|Hne].
        -- rewrite Hkept in Hk. inversion Hk; subst mid.
           apply Hgh. subst s1. cbn. apply list_elem_of_here.
        -- apply (Hins k mid); [|exact Hk]. subst s1.
           cbn [_slave_to_master_map addGhostedElem with_fe_problem with_map].
           rewrite lookup_insert_ne by exact Hne. exact Hk0.
      * revert Hlen. subst s1.
        cbn [_slave_to_master_map addGhostedElem with_fe_problem with_map fe_problem
               ghosted_elems length].
        rewrite map_size_insert_None by exact Hnone. lia.
Qed.

End MapBuilder.

Lemma first_located_Some (loc : Node -> option Elem) (k mid : dof_id_type)
    (nodes : list Node) :
  first_located loc k nodes = Some mid ->
  exists sn me, sn ∈ nodes /\ node_id sn = k /\ loc sn = Some me /\ elem_id me = mid.
Proof.
  induction nodes as [|sn nodes IH]; cbn [first_located]; [discriminate|].
  destruct (decide (node_id sn = k)) as [Hk|Hk].
  - destruct (loc sn) as [me|] eqn:Hloc.
    + intros H. inversion H. exists sn, me. split; [apply list_elem_of_here | auto].
    + intros H. destruct (IH H) as (sn' & me & Hin & ?).
      exists sn', me. split; [apply list_elem_of_further; exact Hin | assumption].
  - intros H. destruct (IH H) as (sn' & me & Hin & ?).
    exists sn', me. split; [apply list_elem_of_further; exact Hin | assumption].
Qed.

Lemma first_located_None (loc : Node -> option Elem) (k : dof_id_type) (nodes : list Node) :
  (forall sn, sn ∈ nodes -> node_id sn = k -> loc sn = None) ->
  first_located loc k nodes = None.
Proof.
  induction nodes as [|sn nodes IH]; intros Hall; cbn [first_located]; [reflexivity|].
  assert (Hrest : first_located loc k nodes = None).
  { apply IH. intros sn' Hin. apply Hall. apply list_elem_of_further. exact Hin. }
  destruct (decide (node_id sn = k)) as [Hk|Hk]; [|exact Hrest].
  rewrite (Hall sn (list_elem_of_here _ _) Hk). exact Hrest.
Qed.

(** When equal ids answer alike, the first located element of a node's id is
    the locator's answer for that very node. *)
Lemma first_located_own (loc : Node -> option Elem) (nodes : list Node) :
  (forall n1 n2, n1 ∈ nodes -> n2 ∈ nodes -> node_id n1 = node_id n2 -> loc n1 = loc n2) ->
  forall sn, sn ∈ nodes -> first_located loc (node_id sn) nodes = elem_id <$> loc sn.
Proof.
  induction nodes as [|sn' nodes IH]; intros Huniq sn Hin.
  - inversion Hin.
  - cbn [first_located].
    assert (Hrest : forall n1 n2, n1 ∈ nodes -> n2 ∈ nodes ->
                      node_id n1 = node_id n2 -> loc n1 = loc n2).
    { intros n1 n2 H1 H2. apply Huniq; apply list_elem_of_further; assumption. }
    destruct (decide (node_id sn' = node_id sn)) as [Hk|Hk].
    + rewrite (Huniq sn' sn (list_elem_of_here _ _) Hin Hk).
      destruct (loc sn) as [me|] eqn:Hloc; [reflexivity|]. cbn.
      apply first_located_None. intros n Hn Hid.
      rewrite (Huniq n sn (list_elem_of_further _ _ _ Hn) Hin Hid). exact Hloc.
    + apply IH; [exact Hrest|].
      apply elem_of_cons in Hin. destruct Hin as [->|Hin]; [congruence | exact Hin].
Qed.

Lemma indicator_iff (P Q : Prop) `{Decision P, Decision Q} :
  (P <-> Q) -> (if decide P then 1 else 0) = (if decide Q then 1 else 0).
Proof. intros HPQ. destruct (decide P), (decide Q); tauto. Qed.

Lemma indicator_true (P : Prop) `{Decision P} : P -> (if decide P then 1 else 0) = 1.
Proof. intros HP. destruct (decide P); tauto. Qed.

Lemma indicator_false (P : Prop) `{Decision P} : ~ P -> (if decide P then 1 else 0) = 0.
Proof. intros HP. destruct (decide P); tauto. Qed.

Lemma queries_of_cons (k : dof_id_type) (sn : Node) (q : list Node) :
  queries_of k (sn :: q)
  = if decide (node_id sn = k) then S (queries_of k q) else queries_of k q.
Proof.
  unfold queries_of. rewrite filter_cons.
  destruct (decide (node_id sn = k)); reflexivity.
Qed.

Section MapQueries.

Variable mesh : MooseMesh.

(** Nodes with id [k] that the locator finds an element for are handed to it
    once, by the first of them that meets a map without the key [k]. *)
Lemma foldl_slave_nodes_queries (m : subdomain_id_type) (k : dof_id_type)
    (nodes : list Node) :
  (forall sn, sn ∈ nodes -> node_id sn = k ->
     is_Some (pointLocator mesh (node_point sn) {[ m ]})) ->
  forall (q0 : list Node) (s0 : State),
    _master (params s0) = m ->
    queries_of k (fst (foldl (map_slave_node mesh) (q0, s0) nodes))
    = queries_of k q0
      + (if decide (_slave_to_master_map s0 !! k = None /\ k ∈ node_id <$> nodes)
         then 1 else 0).
Proof.
  induction nodes as [|sn nodes IH]; intros Hall q0 s0 Hm.
  - cbn [foldl fst]. case_decide as H; [|lia].
    destruct H as [_ H]. inversion H.
  - assert (Hall' : forall sn', sn' ∈ nodes -> node_id sn' = k ->
                      is_Some (pointLocator mesh (node_point sn') {[ m ]})).
    { intros sn' Hin. apply Hall. apply list_elem_of_further. exact Hin. }
    specialize (IH Hall').
    cbn [foldl]. rewrite fmap_cons.
    destruct (map_slave_node_cases mesh q0 s0 sn)
      as [[[v Hv] ->] | [(Hnone & Hloc & ->) | (me & Hnone & Hloc & ->)]].
    + rewrite (IH q0 s0 Hm). f_equal. apply indicator_iff.
      split; intros [H1 H2]; (split; [exact H1|]).
      * apply list_elem_of_further. exact H2.
      * apply elem_of_cons in H2. destruct H2 as [->|H2]; [congruence | exact H2].
    + destruct (decide (node_id sn = k)) as [Hk|Hk].
      { rewrite Hm in Hloc. destruct (Hall sn (list_elem_of_here _ _) Hk) as [me Hme].
        congruence. }
      rewrite (IH (sn :: q0) s0 Hm), queries_of_cons.
      destruct (decide (node_id sn = k)); [contradiction|].
      f_equal. apply indicator_iff.
      split; intros [H1 H2]; (split; [exact H1|]).
      * apply list_elem_of_further. exact H2.
      * apply elem_of_cons in H2. destruct H2 as [->|H2]; [congruence | exact H2].
    + set (s1 := addGhostedElem (elem_id me)
                   (with_map (<[node_id sn := elem_id me]> (_slave_to_master_map s0)) s0)).
      rewrite (IH (sn :: q0) s1 Hm), queries_of_cons.
      assert (Hlook : forall k', _slave_to_master_map s1 !! k'
                = <[node_id sn := elem_id me]> (_slave_to_master_map s0) !! k')
        by reflexivity.
      destruct (decide (node_id sn = k)) as [Hk|Hk].
      * subst k. rewrite indicator_false, indicator_true; [lia | |].
        -- split; [exact Hnone | apply list_elem_of_here].
        -- intros [H1 _]. rewrite Hlook, lookup_insert_eq in H1. discriminate.
      * f_equal. apply indicator_iff. rewrite Hlook, lookup_insert_ne by exact Hk.
        split; intros [H1 H2]; (split; [exact H1|]).
        -- apply list_elem_of_further. exact H2.
        -- apply elem_of_cons in H2. destruct H2 as [->|H2]; [congruence | exact H2].
Qed.

End MapQueries.

(** C6. After prepareSlaveToMasterMap has run over the active elements of
    the slave subdomain, starting from the empty map of a new object: the
    entry of a node id is the element the locator returned for the first
    node of that id it located (a map holds at most one entry per id); every
    entry comes from a located slave node and its element id is registered
    for ghosting, one registration per entry; and, node ids identifying the
    nodes, a node the locator finds an element for has exactly the entry
    (node id, element id) and was handed to the locator once, while a node the
    locator finds nothing for has no entry. The call returns normally. *)
Theorem prepareSlaveToMasterMap_first_located (mesh : MooseMesh) (s : State) :
  _slave_to_master_map s = ∅ ->
  let nodes := slave_nodes mesh s in
  let loc := locate mesh s in
  exists queried s',
    prepareSlaveToMasterMap_trace mesh s = (queried, s')
    /\ prepareSlaveToMasterMap mesh s = Ok (tt, s')
    /\ (forall k, _slave_to_master_map s' !! k = first_located loc k nodes)
    /\ (forall k mid,
          _slave_to_master_map s' !! k = Some mid ->
          mid ∈ ghosted_elems (fe_problem s')
          /\ exists sn me,
               sn ∈ nodes /\ node_id sn = k /\ loc sn = Some me /\ elem_id me = mid)
    /\ length (ghosted_elems (fe_problem s'))
       = length (ghosted_elems (fe_problem s)) + size (_slave_to_master_map s')
    /\ (unique_node_ids nodes ->
        forall sn, sn ∈ nodes ->
          _slave_to_master_map s' !! node_id sn = elem_id <$> loc sn
          /\ (is_Some (loc sn) -> queries_of (node_id sn) queried = 1)).
Proof.
  intros Hempty nodes loc.
  unfold prepareSlaveToMasterMap, prepareSlaveToMasterMap_trace.
  rewrite foldl_slave_elems. fold (slave_nodes mesh s). fold nodes.
  pose proof (foldl_slave_nodes mesh (_master (params s)) nodes [] s eq_refl)
    as (_ & Hmap & _ & Hins & Hlen).
  cbv zeta in Hmap, Hins, Hlen.
  destruct (foldl (map_slave_node mesh) ([], s) nodes) as [queried s'] eqn:Hfold.
  cbn [snd] in *. exists queried, s'.
  assert (Hmap' : forall k, _slave_to_master_map s' !! k = first_located loc k nodes).
  { intros k. rewrite Hmap, Hempty, lookup_empty. reflexivity. }
  split; [reflexivity|]. split; [reflexivity|]. split; [exact Hmap'|].
  split; [|split].
  - intros k mid Hk. split.
    + apply (Hins k mid); [|exact Hk]. rewrite Hempty. apply lookup_empty.
    + apply first_located_Some. rewrite <- Hmap'. exact Hk.
  - rewrite Hempty, map_size_empty in Hlen. lia.
  - intros Huniq sn Hin.
    assert (Hloc : forall n1 n2, n1 ∈ nodes -> n2 ∈ nodes ->
                     node_id n1 = node_id n2 -> loc n1 = loc n2).
    { intros n1 n2 H1 H2 Hid. unfold loc, locate. rewrite (Huniq n1 n2 H1 H2 Hid).
      reflexivity. }
    split.
    + rewrite Hmap'. apply first_located_own; assumption.
    + intros Hsome.
      pose proof (foldl_slave_nodes_queries mesh (_master (params s)) (node_id sn) nodes)
        as Hq.
      assert (Hall : forall sn', sn' ∈ nodes -> node_id sn' = node_id sn ->
                       is_Some (pointLocator mesh (node_point sn') {[ _master (params s) ]})).
      { intros sn' Hin' Hid. change (is_Some (loc sn')).
        rewrite (Hloc sn' sn Hin' Hin Hid). exact Hsome. }
      specialize (Hq Hall [] s eq_refl). rewrite Hfold in Hq. cbn [fst] in Hq.
      rewrite Hq, indicator_true; [reflexivity|].
      split; [rewrite Hempty; apply lookup_empty|].
      apply list_elem_of_fmap_2. exact Hin.
Qed.

Lemma example_unique_node_ids :
  unique_node_ids (slave_nodes Example.mesh (Example.initial PENALTY)).
Proof.
  assert (Hn : slave_nodes Example.mesh (Example.initial PENALTY)
               = [Example.node 0 0%float; Example.node 1 1%float]) by reflexivity.
  intros n1 n2 H1 H2 Hid. rewrite Hn in H1, H2.
  apply elem_of_cons in H1. apply elem_of_cons in H2.
  rewrite list_elem_of_singleton in H1, H2.
  destruct H1 as [->| ->], H2 as [->| ->]; try reflexivity; discriminate Hid.
Qed.

Lemma prepareSlaveToMasterMap_first_located_witness :
  exists queried s',
    prepareSlaveToMasterMap_trace Example.mesh (Example.initial PENALTY) = (queried, s')
    /\ prepareSlaveToMasterMap Example.mesh (Example.initial PENALTY) = Ok (tt, s')
    /\ _slave_to_master_map s' !! 1%N = Some 1%N
    /\ _slave_to_master_map s' !! 0%N = None
    /\ length (ghosted_elems (fe_problem s')) = 0 + size (_slave_to_master_map s')
    /\ queries_of 1%N queried = 1.
Proof.
  destruct (prepareSlaveToMasterMap_first_located Example.mesh (Example.initial PENALTY)
              eq_refl) as (queried & s' & Htrace & Hrun & Hmap & _ & Hlen & Huniq).
  exists queried, s'. split; [exact Htrace|]. split; [exact Hrun|].
  split; [rewrite Hmap; reflexivity|]. split; [rewrite Hmap; reflexivity|].
  split; [exact Hlen|].
  destruct (Huniq example_unique_node_ids (Example.node 1 1%float)) as [_ Hq].
  - apply list_elem_of_further, list_elem_of_here.
  - apply Hq. eexists. reflexivity.
Defined.

(** ** Accumulation into a dense block *)

Lemma dm_add_Ok (K : DenseMatrix) (i j : nat) (v : Real) :
  i * dm_n K + j < length (dm_val K) ->
  exists old,
    dm_val K !! (i * dm_n K + j) = Some old
    /\ dm_add K i j v
       = Ok {| dm_m := dm_m K; dm_n := dm_n K;
               dm_val := <[i * dm_n K + j := (old + v)%float]> (dm_val K) |}.
Proof.
  intros Hlt. destruct (lookup_lt_is_Some_2 _ _ Hlt) as [old Hold].
  exists old. split; [exact Hold|].
  unfold dm_add, dm_get, at_index, rbind, store_index. rewrite Hold.
  destruct (decide (i * dm_n K + j < length (dm_val K))); [reflexivity | contradiction].
Qed.

Lemma acc_rect_no_columns (K : DenseMatrix) (i0 r j0 : nat) (vals : nat -> nat -> Real) :
  acc_rect K i0 r j0 0 vals K.
Proof.
  unfold acc_rect. repeat split; try reflexivity. intros i j _ Hj. lia.
Qed.

Lemma acc_rect_no_rows (K : DenseMatrix) (i0 j0 c : nat) (vals : nat -> nat -> Real) :
  acc_rect K i0 0 j0 c vals K.
Proof.
  unfold acc_rect. repeat split; try reflexivity. intros i j Hi _. lia.
Qed.

(** One more column of row [i], added before the others. *)
Lemma acc_rect_column_step (K K' : DenseMatrix) (i j0 c : nat) (old : Real)
    (vals : nat -> nat -> Real) :
  dm_val K !! (i * dm_n K + j0) = Some old ->
  acc_rect {| dm_m := dm_m K; dm_n := dm_n K;
              dm_val := <[i * dm_n K + j0 := (old + vals i j0)%float]> (dm_val K) |}
           i 1 (S j0) c vals K' ->
  acc_rect K i 1 j0 (S c) vals K'.
Proof.
  intros Hold (Hm & Hn & Hlen & Hin & Hout). cbn [dm_m dm_n dm_val] in *.
  rewrite length_insert in Hlen.
  assert (Hlt : i * dm_n K + j0 < length (dm_val K)) by (eapply lookup_lt_Some; eauto).
  unfold acc_rect. split; [exact Hm|]. split; [exact Hn|]. split; [exact Hlen|]. split.
  - intros i' j Hi Hj. assert (i' = i) by lia. subst i'.
    destruct (decide (j = j0)) as [->|Hne].
    + rewrite Hout.
      * rewrite list_lookup_insert_eq by exact Hlt. rewrite Hold. reflexivity.
      * intros i' j' Hi' Hj'. assert (i' = i) by lia. subst i'. lia.
    + rewrite Hin by lia. rewrite list_lookup_insert_ne by lia. reflexivity.
  - intros p Hp. rewrite Hout.
    + rewrite list_lookup_insert_ne; [reflexivity|].
      intros Heq. apply (Hp i j0); lia.
    + intros i' j' Hi' Hj'. apply Hp; lia.
Qed.

(** One more row, added before the others; the rows do not overlap because
    a row is no longer than the row length of the storage. *)
Lemma acc_rect_row_step (K K1 K' : DenseMatrix) (i0 r cols : nat)
    (vals : nat -> nat -> Real) :
  cols <= dm_n K ->
  acc_rect K i0 1 0 cols vals K1 ->
  acc_rect K1 (S i0) r 0 cols vals K' ->
  acc_rect K i0 (S r) 0 cols vals K'.
Proof.
  intros Hcols (Hm1 & Hn1 & Hlen1 & Hin1 & Hout1) (Hm & Hn & Hlen & Hin & Hout).
  rewrite Hn1 in *.
  unfold acc_rect. split; [congruence|]. split; [congruence|]. split; [congruence|]. split.
  - intros i j Hi Hj. destruct (decide (i = i0)) as [->|Hne].
    + rewrite Hout; [apply Hin1; lia|].
      intros i' j' Hi' Hj'. nia.
    + rewrite Hin by lia. rewrite Hout1; [reflexivity|].
      intros i' j' Hi' Hj'. nia.
  - intros p Hp. rewrite Hout.
    + apply Hout1. intros i j Hi Hj. apply Hp; lia.
    + intros i j Hi Hj. apply Hp; lia.
Qed.

(** ** The accumulation loops

    The double loops of computeJacobian and computeOffDiagJacobian, for any
    of the blocks they write: [get] and [put] read and replace the block,
    [add] is its [+=], [f] computes the contribution at the current
    counters, and [peek] reads the other blocks. *)
Section Accumulate.

Variable get : State -> DenseMatrix.
Variable put : DenseMatrix -> State -> State.
Variable add : Real -> M unit.
Variable f : State -> Result Real.
Variables other T : Type.
Variable peek : other -> State -> T.

Hypothesis add_spec : forall v s,
  add v s = (K <- dm_add (get s) (_i (idx s)) (_j (idx s)) v ;; Ok (tt, put K s)).
Hypothesis get_put : forall K s, get (put K s) = K.
Hypothesis inputs_put : forall K s, inputs (put K s) = inputs s.
Hypothesis idx_put : forall K s, idx (put K s) = idx s.
Hypothesis peek_put : forall o K s, peek o (put K s) = peek o s.
Hypothesis get_idx : forall ix s, get (with_idx ix s) = get s.
Hypothesis peek_idx : forall o ix s, peek o (with_idx ix s) = peek o s.

Let body : M unit := (v <~ lift f ;; add v)%M.

Lemma for_range_columns (vals : nat -> nat -> Real) (i qp : nat) :
  forall (c j0 : nat) (s : State),
    _i (idx s) = i -> _qp (idx s) = qp ->
    (forall j s', j0 <= j < j0 + c -> inputs s' = inputs s ->
       idx s' = {| _i := i; _j := j; _qp := qp |} -> f s' = Ok (vals i j)) ->
    (c = 0 \/ i * dm_n (get s) + j0 + c <= length (dm_val (get s))) ->
    exists s',
      for_range c j0 (fun k => modify (set_j k) >> body)%M s = Ok (tt, s')
      /\ acc_rect (get s) i 1 j0 c vals (get s')
      /\ inputs s' = inputs s
      /\ _i (idx s') = i /\ _qp (idx s') = qp
      /\ forall o, peek o s' = peek o s.
Proof.
  induction c as [|c IH]; intros j0 s Hi Hqp Hf Hbound.
  - exists s. split; [reflexivity|]. split; [apply acc_rect_no_columns|]. auto.
  - destruct Hbound as [Hbound|Hbound]; [discriminate|].
    cbn [for_range]. unfold mbind at 1. unfold mbind at 1. unfold modify at 1.
    unfold body at 1. unfold mbind at 1. unfold lift.
    rewrite (Hf j0 (set_j j0 s)); [|lia|reflexivity|cbn; congruence].
    unfold rbind at 1. rewrite add_spec.
    unfold set_j at 1 2 3. rewrite get_idx.
    cbn [idx with_idx _i _j]. rewrite Hi.
    destruct (dm_add_Ok (get s) i j0 (vals i j0)) as (old & Hold & ->); [lia|].
    unfold rbind at 1.
    set (K1 := {| dm_m := dm_m (get s); dm_n := dm_n (get s);
                  dm_val := <[i * dm_n (get s) + j0 := (old + vals i j0)%float]>
                              (dm_val (get s)) |}).
    set (s1 := put K1 (set_j j0 s)).
    destruct (IH (S j0) s1) as (s' & Hrun & Hacc & Hin & Hi' & Hqp' & Hpeek).
    + subst s1. rewrite idx_put. exact Hi.
    + subst s1. rewrite idx_put. exact Hqp.
    + intros j s2 Hj Hin2 Hidx. apply Hf; [lia| |exact Hidx].
      rewrite Hin2. subst s1. rewrite inputs_put. reflexivity.
    + right. subst s1. rewrite get_put. subst K1. cbn [dm_n dm_val].
      rewrite length_insert. lia.
    + exists s'. split; [exact Hrun|]. split; [|split; [|split; [|split]]].
      * apply (acc_rect_column_step (get s) (get s') i j0 c old vals Hold).
        subst s1. rewrite get_put in Hacc. exact Hacc.
      * rewrite Hin. subst s1. rewrite inputs_put. reflexivity.
      * exact Hi'.
      * exact Hqp'.
      * intros o. rewrite Hpeek. subst s1. rewrite peek_put. apply peek_idx.
Qed.

Lemma for_range_rows (vals : nat -> nat -> Real) (qp cols : nat) :
  forall (r i0 : nat) (s : State),
    _qp (idx s) = qp ->
    (forall i j s', i0 <= i < i0 + r -> j < cols -> inputs s' = inputs s ->
       idx s' = {| _i := i; _j := j; _qp := qp |} -> f s' = Ok (vals i j)) ->
    cols <= dm_n (get s) ->
    (cols = 0 \/ (i0 + r) * dm_n (get s) <= length (dm_val (get s))) ->
    exists s',
      for_range r i0 (fun k => modify (set_i k) >> for_j cols body)%M s = Ok (tt, s')
      /\ acc_rect (get s) i0 r 0 cols vals (get s')
      /\ inputs s' = inputs s
      /\ _qp (idx s') = qp
      /\ forall o, peek o s' = peek o s.
Proof.
  induction r as [|r IH]; intros i0 s Hqp Hf Hcols Hbound.
  - exists s. split; [reflexivity|]. split; [apply acc_rect_no_rows|]. auto.
  - cbn [for_range]. unfold mbind at 1. unfold mbind at 1. unfold modify at 1.
    unfold for_j at 1. unfold mbind at 1.
    destruct (for_range_columns vals i0 qp cols 0 (set_i i0 s))
      as (sa & Hrun & Hacc & Hin & Hi & Hqpa & Hpeek).
    + reflexivity.
    + exact Hqp.
    + intros j s' Hj Hin' Hidx. apply Hf; [lia|lia|exact Hin'|exact Hidx].
    + unfold set_i. rewrite get_idx. destruct Hbound as [->|Hbound]; [left; reflexivity|].
      right. nia.
    + rewrite Hrun. unfold modify at 1.
      unfold set_i in Hacc. rewrite get_idx in Hacc.
      destruct Hacc as (Hm & Hn & Hlen & Hacc).
      destruct (IH (S i0) (set_j cols sa)) as (s' & Hrun' & Hacc' & Hin' & Hqp' & Hpeek').
      * cbn. exact Hqpa.
      * intros i j s2 Hi2 Hj2 Hin2 Hidx. apply Hf; [lia|lia| |exact Hidx].
        rewrite Hin2. exact Hin.
      * unfold set_j. rewrite get_idx, Hn. exact Hcols.
      * unfold set_j. rewrite get_idx, Hn, Hlen.
        destruct Hbound as [->|Hbound]; [left; reflexivity | right; lia].
      * exists s'. split; [exact Hrun'|]. split; [|split; [|split]].
        -- apply (acc_rect_row_step (get s) (get sa) (get s') i0 r cols vals Hcols).
           ++ unfold acc_rect. auto.
           ++ unfold set_j in Hacc'. rewrite get_idx in Hacc'. exact Hacc'.
        -- rewrite Hin'. exact Hin.
        -- exact Hqp'.
        -- intros o. rewrite Hpeek'. unfold set_j. rewrite peek_idx, Hpeek.
           unfold set_i. apply peek_idx.
Qed.

(** The whole double loop. *)
Lemma double_loop_accumulates (vals : nat -> nat -> Real) (rows cols : nat) (s : State) :
  (forall i j s', i < rows -> j < cols -> inputs s' = inputs s ->
     idx s' = {| _i := i; _j := j; _qp := _qp (idx s) |} -> f s' = Ok (vals i j)) ->
  cols <= dm_n (get s) ->
  (cols = 0 \/ rows * dm_n (get s) <= length (dm_val (get s))) ->
  exists s',
    for_i rows (for_j cols body) s = Ok (tt, s')
    /\ accumulated (get s) rows cols vals (get s')
    /\ inputs s' = inputs s
    /\ _qp (idx s') = _qp (idx s)
    /\ forall o, peek o s' = peek o s.
Proof.
  intros Hf Hcols Hbound.
  destruct (for_range_rows vals (_qp (idx s)) cols rows 0 s)
    as (s' & Hrun & Hacc & Hin & Hqp & Hpeek); auto.
  { intros i j s' Hi Hj. apply Hf; lia. }
  exists (set_i rows s'). unfold for_i. unfold mbind at 1. rewrite Hrun. unfold modify.
  split; [reflexivity|]. split; [|split; [|split]].
  - unfold accumulated, set_i. rewrite get_idx. exact Hacc.
  - exact Hin.
  - exact Hqp.
  - intros o. unfold set_i. rewrite peek_idx. apply Hpeek.
Qed.

End Accumulate.

Lemma computeQpJacobian_reads_inputs (type : ConstraintJacobianType) :
  reads_inputs (computeQpJacobian type).
Proof.
  intros s1 s2 Hin Hidx. destruct s1, s2. unfold inputs in Hin.
  cbn in Hin, Hidx. inversion Hin. subst. reflexivity.
Qed.

Lemma computeQpOffDiagJacobian_reads_inputs (type : ConstraintJacobianType) (jvar : N) :
  reads_inputs (computeQpOffDiagJacobian type jvar).
Proof.
  intros s1 s2 Hin Hidx. destruct s1, s2. unfold inputs in Hin.
  cbn in Hin, Hidx. inversion Hin. subst. reflexivity.
Qed.

Lemma dm_resize_has_storage (rows cols : nat) : has_storage (dm_resize rows cols) rows cols.
Proof.
  unfold has_storage, dm_resize. cbn [dm_n dm_val]. rewrite length_replicate. lia.
Qed.

Section Loops.

Variable f : State -> Result Real.
Hypothesis f_reads_inputs : reads_inputs f.

Variable vals : nat -> nat -> Real.
Variables rows cols : nat.

Lemma contributions_at (s s' : State) (i j : nat) :
  contributions f vals rows cols s -> i < rows -> j < cols ->
  inputs s' = inputs s ->
  idx s' = {| _i := i; _j := j; _qp := _qp (idx s) |} ->
  f s' = Ok (vals i j).
Proof.
  intros Hc Hi Hj Hin Hidx. rewrite <- (Hc i j Hi Hj).
  apply f_reads_inputs; [rewrite Hin; reflexivity | rewrite Hidx; reflexivity].
Qed.

Lemma Kee_loop (s : State) :
  contributions f vals rows cols s ->
  has_storage (_Kee s) rows cols ->
  exists s',
    for_i rows (for_j cols (v <~ lift f ;; Kee_add v)%M) s = Ok (tt, s')
    /\ accumulated (_Kee s) rows cols vals (_Kee s')
    /\ inputs s' = inputs s
    /\ _qp (idx s') = _qp (idx s)
    /\ _Kne s' = _Kne s
    /\ jacobianBlockNeighbor s' = jacobianBlockNeighbor s.
Proof.
  intros Hc [Hcols Hlen].
  destruct (double_loop_accumulates _Kee with_Kee Kee_add f unit _
              (fun _ s => (_Kne s, jacobianBlockNeighbor s))
              ltac:(reflexivity) ltac:(reflexivity) ltac:(reflexivity) ltac:(reflexivity)
              ltac:(reflexivity) ltac:(reflexivity) ltac:(reflexivity)
              vals rows cols s)
    as (s' & Hrun & Hacc & Hin & Hqp & Hpeek).
  - intros i j s' Hi Hj. apply contributions_at; assumption.
  - exact Hcols.
  - right. exact Hlen.
  - exists s'. split; [exact Hrun|]. split; [exact Hacc|]. split; [exact Hin|].
    split; [exact Hqp|]. specialize (Hpeek tt). inversion Hpeek. auto.
Qed.

Lemma Kne_loop (s : State) :
  contributions f vals rows cols s ->
  has_storage (_Kne s) rows cols ->
  exists s',
    for_i rows (for_j cols (v <~ lift f ;; Kne_add v)%M) s = Ok (tt, s')
    /\ accumulated (_Kne s) rows cols vals (_Kne s')
    /\ inputs s' = inputs s
    /\ _qp (idx s') = _qp (idx s)
    /\ _Kee s' = _Kee s
    /\ jacobianBlockNeighbor s' = jacobianBlockNeighbor s.
Proof.
  intros Hc [Hcols Hlen].
  destruct (double_loop_accumulates _Kne with_Kne Kne_add f unit _
              (fun _ s => (_Kee s, jacobianBlockNeighbor s))
              ltac:(reflexivity) ltac:(reflexivity) ltac:(reflexivity) ltac:(reflexivity)
              ltac:(reflexivity) ltac:(reflexivity) ltac:(reflexivity)
              vals rows cols s)
    as (s' & Hrun & Hacc & Hin & Hqp & Hpeek).
  - intros i j s' Hi Hj. apply contributions_at; assumption.
  - exact Hcols.
  - right. exact Hlen.
  - exists s'. split; [exact Hrun|]. split; [exact Hacc|]. split; [exact Hin|].
    split; [exact Hqp|]. specialize (Hpeek tt). inversion Hpeek. auto.
Qed.

Lemma set_block_same (t : DGJacobianType) (ivar jvar : N) (K : DenseMatrix)
    (blocks : DGJacobianType -> N -> N -> DenseMatrix) :
  set_block t ivar jvar K blocks t ivar jvar = K.
Proof. unfold set_block. case_decide as H; [reflexivity|]. destruct H; auto. Qed.

Lemma set_block_other (t t' : DGJacobianType) (ivar jvar ivar' jvar' : N) (K : DenseMatrix)
    (blocks : DGJacobianType -> N -> N -> DenseMatrix) :
  (t', ivar', jvar') <> (t, ivar, jvar) ->
  set_block t ivar jvar K blocks t' ivar' jvar' = blocks t' ivar' jvar'.
Proof.
  intros Hne. unfold set_block. case_decide as H; [|reflexivity].
  destruct H as (-> & -> & ->). contradiction.
Qed.

Lemma block_loop (t : DGJacobianType) (ivar jvar : N) (s : State) :
  contributions f vals rows cols s ->
  has_storage (jacobianBlockNeighbor s t ivar jvar) rows cols ->
  exists s',
    for_i rows (for_j cols (v <~ lift f ;; block_add t ivar jvar v)%M) s = Ok (tt, s')
    /\ accumulated (jacobianBlockNeighbor s t ivar jvar) rows cols vals
         (jacobianBlockNeighbor s' t ivar jvar)
    /\ inputs s' = inputs s
    /\ _qp (idx s') = _qp (idx s)
    /\ _Kee s' = _Kee s
    /\ _Kne s' = _Kne s
    /\ (forall t' ivar' jvar', (t', ivar', jvar') <> (t, ivar, jvar) ->
          jacobianBlockNeighbor s' t' ivar' jvar' = jacobianBlockNeighbor s t' ivar' jvar').
Proof.
  intros Hc [Hcols Hlen].
  destruct (double_loop_accumulates
              (fun s => jacobianBlockNeighbor s t ivar jvar)
              (fun K s => with_blocks (set_block t ivar jvar K (jacobianBlockNeighbor s)) s)
              (block_add t ivar jvar) f
              (bool + {k : DGJacobianType * N * N | k <> (t, ivar, jvar)}) _
              (fun o s =>
                 match o with
                 | inl true => _Kee s
                 | inl false => _Kne s
                 | inr (exist _ (t', ivar', jvar') _) => jacobianBlockNeighbor s t' ivar' jvar'
                 end)
              ltac:(reflexivity)
              ltac:(intros; apply set_block_same)
              ltac:(reflexivity) ltac:(reflexivity)
              ltac:(intros [[|]|[[[t' ivar'] jvar'] Hne]] K s0;
                    [reflexivity | reflexivity | apply set_block_other; exact Hne])
              ltac:(reflexivity)
              ltac:(intros [[|]|[[[t' ivar'] jvar'] Hne]] ix s0; reflexivity)
              vals rows cols s)
    as (s' & Hrun & Hacc & Hin & Hqp & Hpeek).
  - intros i j s' Hi Hj. apply contributions_at; assumption.
  - exact Hcols.
  - right. exact Hlen.
  - exists s'. split; [exact Hrun|]. split; [exact Hacc|]. split; [exact Hin|].
    split; [exact Hqp|]. split; [exact (Hpeek (inl true))|].
    split; [exact (Hpeek (inl false))|].
    intros t' ivar' jvar' Hne. exact (Hpeek (inr (exist _ (t', ivar', jvar') Hne))).
Qed.

Lemma contributions_frame (s s' : State) :
  inputs s' = inputs s -> _qp (idx s') = _qp (idx s) ->
  contributions f vals rows cols s -> contributions f vals rows cols s'.
Proof.
  intros Hin Hqp Hc i j Hi Hj. rewrite <- (Hc i j Hi Hj).
  apply f_reads_inputs; [exact Hin | cbn; rewrite Hqp; reflexivity].
Qed.

(** A block of the assembly that is written only when it has storage. *)
Lemma guarded_block_loop (t : DGJacobianType) (ivar jvar : N) (s : State) :
  (dm_nonempty (jacobianBlockNeighbor s t ivar jvar) = true ->
     contributions f vals rows cols s /\ has_storage (jacobianBlockNeighbor s t ivar jvar) rows cols) ->
  exists s',
    (if dm_nonempty (jacobianBlockNeighbor s t ivar jvar)
     then for_i rows (for_j cols (v <~ lift f ;; block_add t ivar jvar v)%M)
     else mret tt) s = Ok (tt, s')
    /\ (if dm_nonempty (jacobianBlockNeighbor s t ivar jvar)
        then accumulated (jacobianBlockNeighbor s t ivar jvar) rows cols vals
               (jacobianBlockNeighbor s' t ivar jvar)
        else jacobianBlockNeighbor s' t ivar jvar = jacobianBlockNeighbor s t ivar jvar)
    /\ inputs s' = inputs s
    /\ _qp (idx s') = _qp (idx s)
    /\ _Kee s' = _Kee s
    /\ _Kne s' = _Kne s
    /\ (forall t' ivar' jvar', (t', ivar', jvar') <> (t, ivar, jvar) ->
          jacobianBlockNeighbor s' t' ivar' jvar' = jacobianBlockNeighbor s t' ivar' jvar').
Proof.
  intros Hguard. destruct (dm_nonempty (jacobianBlockNeighbor s t ivar jvar)).
  - destruct (Hguard eq_refl) as [Hc Hst]. apply block_loop; assumption.
  - exists s. repeat split; reflexivity.
Qed.

End Loops.

Lemma mbind_gets {A B : Type} (g : State -> A) (k : A -> M B) (s : State) :
  mbind (gets g) k s = k (g s) s.
Proof. reflexivity. Qed.

Lemma mbind_modify {B : Type} (g : State -> State) (k : unit -> M B) (s : State) :
  mbind (modify g) k s = k tt (g s).
Proof. reflexivity. Qed.

Lemma mbind_Ok {A B : Type} (m : M A) (k : A -> M B) (s s' : State) (a : A) :
  m s = Ok (a, s') -> mbind m k s = k a s'.
Proof. intros H. unfold mbind. rewrite H. reflexivity. Qed.

(** ** Assembly of the blocks (computeJacobian, computeOffDiagJacobian) *)

Lemma accumulated_empty (K : DenseMatrix) (rows cols : nat) (vals : nat -> nat -> Real) :
  rows = 0 \/ cols = 0 -> accumulated K rows cols vals K.
Proof.
  intros [-> | ->]; [apply acc_rect_no_rows | apply acc_rect_no_columns].
Qed.

Lemma dm_nonempty_resize_false (rows cols : nat) :
  dm_nonempty (dm_resize rows cols) = false -> rows = 0 \/ cols = 0.
Proof.
  unfold dm_nonempty, dm_resize. cbn [dm_m dm_n].
  destruct rows, cols; cbn; auto. discriminate.
Qed.

(** The master-slave block of the cross-variable assembly, skipped when the
    block it was just resized to has a zero dimension. *)
Lemma guarded_Kne_loop (f : State -> Result Real) (vals : nat -> nat -> Real)
    (rows cols : nat) (s : State) :
  reads_inputs f ->
  contributions f vals rows cols s ->
  _Kne s = dm_resize rows cols ->
  exists s',
    (if dm_nonempty (_Kne s)
     then for_i rows (for_j cols (v <~ lift f ;; Kne_add v)%M)
     else mret tt) s = Ok (tt, s')
    /\ accumulated (_Kne s) rows cols vals (_Kne s')
    /\ (dm_nonempty (_Kne s) = false -> _Kne s' = _Kne s)
    /\ inputs s' = inputs s
    /\ _qp (idx s') = _qp (idx s)
    /\ _Kee s' = _Kee s
    /\ jacobianBlockNeighbor s' = jacobianBlockNeighbor s.
Proof.
  intros Hreads Hc HK. destruct (dm_nonempty (_Kne s)) eqn:Hne.
  - destruct (Kne_loop f Hreads vals rows cols s Hc) as (s' & Hrun & Hacc & Hrest).
    { rewrite HK. apply dm_resize_has_storage. }
    exists s'. split; [exact Hrun|]. split; [exact Hacc|]. split; [discriminate|].
    exact Hrest.
  - exists s. split; [reflexivity|]. split; [|auto].
    apply accumulated_empty. apply dm_nonempty_resize_false. rewrite <- HK. exact Hne.
Qed.

(** C9. computeJacobian resizes and fills the slave-slave and master-slave
    blocks whatever their size, and adds to the slave-master and
    master-master blocks of the assembly only when their storage has nonzero
    dimensions, leaving them unchanged otherwise. computeOffDiagJacobian adds
    to the slave-slave, slave-master and master-master blocks without any
    test of their dimensions, the added value being 0 for the last two, and
    skips only the master-slave block when the dimensions it was just given
    are zero. No other block of the assembly is written. Here [vals type i j]
    is the value of the contribution to block [type] at the counters (i, j). *)
Theorem jacobian_blocks_accumulate :
  (forall (connectedDofIndices : N -> State -> list dof_id_type) (s : State)
          (vals : ConstraintJacobianType -> nat -> nat -> Real),
      let var := var_number (params s) in
      let master_var := master_var_number (params s) in
      let s0 := after_connectivity connectedDofIndices var s in
      let n_test_slave := length (_test_slave s) in
      let n_test_master := length (_test_master s) in
      let n_phi_master := length (_phi_master s) in
      let n_connected := length (connectedDofIndices var s) in
      let Ken := jacobianBlockNeighbor s ElementNeighbor var var in
      let Knn := jacobianBlockNeighbor s NeighborNeighbor master_var var in
      contributions (computeQpJacobian SlaveSlave) (vals SlaveSlave)
        n_test_slave n_connected s0 ->
      contributions (computeQpJacobian MasterSlave) (vals MasterSlave)
        n_test_master n_connected s0 ->
      (dm_nonempty Ken = true ->
         contributions (computeQpJacobian SlaveMaster) (vals SlaveMaster)
           n_test_slave n_phi_master s0
         /\ has_storage Ken n_test_slave n_phi_master) ->
      (dm_nonempty Knn = true ->
         contributions (computeQpJacobian MasterMaster) (vals MasterMaster)
           n_test_master n_phi_master s0
         /\ has_storage Knn n_test_master n_phi_master) ->
      exists s',
        computeJacobian connectedDofIndices s = Ok (tt, s')
        /\ accumulated (dm_resize n_test_slave n_connected) n_test_slave n_connected
             (vals SlaveSlave) (_Kee s')
        /\ accumulated (dm_resize n_test_master n_connected) n_test_master n_connected
             (vals MasterSlave) (_Kne s')
        /\ (if dm_nonempty Ken
            then accumulated Ken n_test_slave n_phi_master (vals SlaveMaster)
                   (jacobianBlockNeighbor s' ElementNeighbor var var)
            else jacobianBlockNeighbor s' ElementNeighbor var var = Ken)
        /\ (if dm_nonempty Knn
            then accumulated Knn n_test_master n_phi_master (vals MasterMaster)
                   (jacobianBlockNeighbor s' NeighborNeighbor master_var var)
            else jacobianBlockNeighbor s' NeighborNeighbor master_var var = Knn)
        /\ (forall t ivar jvar,
              (t, ivar, jvar) <> (ElementNeighbor, var, var) ->
              (t, ivar, jvar) <> (NeighborNeighbor, master_var, var) ->
              jacobianBlockNeighbor s' t ivar jvar = jacobianBlockNeighbor s t ivar jvar))
  /\ (forall (connectedDofIndices : N -> State -> list dof_id_type) (s : State) (jvar : N)
             (vals : ConstraintJacobianType -> nat -> nat -> Real),
        let var := var_number (params s) in
        let master_var := master_var_number (params s) in
        let s0 := after_connectivity connectedDofIndices jvar s in
        let n_test_slave := length (_test_slave s) in
        let n_test_master := length (_test_master s) in
        let n_phi_master := length (_phi_master s) in
        let n_connected := length (connectedDofIndices jvar s) in
        let Ken := jacobianBlockNeighbor s ElementNeighbor var jvar in
        let Knn := jacobianBlockNeighbor s NeighborNeighbor master_var jvar in
        contributions (computeQpOffDiagJacobian SlaveSlave jvar) (vals SlaveSlave)
          n_test_slave n_connected s0 ->
        contributions (computeQpOffDiagJacobian MasterSlave jvar) (vals MasterSlave)
          n_test_master n_connected s0 ->
        has_storage Ken n_test_slave n_phi_master ->
        has_storage Knn n_test_master n_phi_master ->
        exists s',
          computeOffDiagJacobian connectedDofIndices jvar s = Ok (tt, s')
          /\ accumulated (dm_resize n_test_slave n_connected) n_test_slave n_connected
               (vals SlaveSlave) (_Kee s')
          /\ accumulated (dm_resize n_test_master n_connected) n_test_master n_connected
               (vals MasterSlave) (_Kne s')
          /\ (dm_nonempty (dm_resize n_test_master n_connected) = false ->
              _Kne s' = dm_resize n_test_master n_connected)
          /\ accumulated Ken n_test_slave n_phi_master (fun _ _ => 0%float)
               (jacobianBlockNeighbor s' ElementNeighbor var jvar)
          /\ accumulated Knn n_test_master n_phi_master (fun _ _ => 0%float)
               (jacobianBlockNeighbor s' NeighborNeighbor master_var jvar)
          /\ (forall t ivar jvar',
                (t, ivar, jvar') <> (ElementNeighbor, var, jvar) ->
                (t, ivar, jvar') <> (NeighborNeighbor, master_var, jvar) ->
                jacobianBlockNeighbor s' t ivar jvar' = jacobianBlockNeighbor s t ivar jvar')).
Proof.
  split.
  { intros connectedDofIndices s vals.
    intros var master_var s0 n_test_slave n_test_master n_phi_master n_connected Ken Knn
           Hss Hms Hsm Hmm.
    unfold computeJacobian.
    rewrite !mbind_gets.
    rewrite (mbind_Ok _ _ _ _ _ (getConnectedDofIndices_state connectedDofIndices var s)).
    fold s0. rewrite mbind_modify. rewrite !mbind_gets.
    set (sa := with_Kee _ s0).
    change (length (_test_slave sa)) with n_test_slave.
    change (length (_test_master sa)) with n_test_master.
    change (length (_phi_master sa)) with n_phi_master.
    change (length (_connected_dof_indices sa)) with n_connected.
    fold var. fold master_var.
    (* slave-slave *)
    destruct (Kee_loop (computeQpJacobian SlaveSlave)
                (computeQpJacobian_reads_inputs SlaveSlave)
                (vals SlaveSlave) n_test_slave n_connected sa)
      as (s1 & Hrun1 & Hacc1 & Hin1 & Hqp1 & Hkne1 & Hblk1).
    { exact Hss. }
    { apply dm_resize_has_storage. }
    rewrite (mbind_Ok _ _ _ _ _ Hrun1). rewrite mbind_gets.
    assert (Hken1 : jacobianBlockNeighbor s1 ElementNeighbor var var = Ken)
      by (rewrite Hblk1; reflexivity).
    (* slave-master *)
    destruct (guarded_block_loop (computeQpJacobian SlaveMaster)
                (computeQpJacobian_reads_inputs SlaveMaster)
                (vals SlaveMaster) n_test_slave n_phi_master ElementNeighbor var var s1)
      as (s2 & Hrun2 & Hacc2 & Hin2 & Hqp2 & Hkee2 & Hkne2 & Hblk2).
    { rewrite Hken1. intros Hne. destruct (Hsm Hne) as [Hc Hst]. split; [|exact Hst].
      apply (contributions_frame _ (computeQpJacobian_reads_inputs SlaveMaster) _ _ _ s0);
        [exact Hin1 | exact Hqp1 | exact Hc]. }
    rewrite (mbind_Ok _ _ _ _ _ Hrun2). rewrite mbind_modify.
    set (s2a := with_Kne _ s2).
    (* master-slave *)
    destruct (Kne_loop (computeQpJacobian MasterSlave)
                (computeQpJacobian_reads_inputs MasterSlave)
                (vals MasterSlave) n_test_master n_connected s2a)
      as (s3 & Hrun3 & Hacc3 & Hin3 & Hqp3 & Hkee3 & Hblk3).
    { apply (contributions_frame _ (computeQpJacobian_reads_inputs MasterSlave) _ _ _ s0);
        [| |exact Hms].
      - change (inputs s2a) with (inputs s2). rewrite Hin2. exact Hin1.
      - change (_qp (idx s2a)) with (_qp (idx s2)). rewrite Hqp2. exact Hqp1. }
    { apply dm_resize_has_storage. }
    rewrite (mbind_Ok _ _ _ _ _ Hrun3). rewrite mbind_gets.
    assert (Hknn3 : jacobianBlockNeighbor s3 NeighborNeighbor master_var var = Knn).
    { rewrite Hblk3. change (jacobianBlockNeighbor s2a) with (jacobianBlockNeighbor s2).
      rewrite Hblk2 by congruence. rewrite Hblk1. reflexivity. }
    (* master-master *)
    destruct (guarded_block_loop (computeQpJacobian MasterMaster)
                (computeQpJacobian_reads_inputs MasterMaster)
                (vals MasterMaster) n_test_master n_phi_master
                NeighborNeighbor master_var var s3)
      as (s4 & Hrun4 & Hacc4 & Hin4 & Hqp4 & Hkee4 & Hkne4 & Hblk4).
    { rewrite Hknn3. intros Hne. destruct (Hmm Hne) as [Hc Hst]. split; [|exact Hst].
      apply (contributions_frame _ (computeQpJacobian_reads_inputs MasterMaster) _ _ _ s0);
        [| |exact Hc].
      - rewrite Hin3. change (inputs s2a) with (inputs s2). rewrite Hin2. exact Hin1.
      - rewrite Hqp3. change (_qp (idx s2a)) with (_qp (idx s2)).
        rewrite Hqp2. exact Hqp1. }
    exists s4. split; [exact Hrun4|].
    split; [|split; [|split; [|split]]].
    - rewrite Hkee4, Hkee3. change (_Kee s2a) with (_Kee s2). rewrite Hkee2. exact Hacc1.
    - rewrite Hkne4. exact Hacc3.
    - rewrite Hblk4 by congruence. rewrite Hblk3.
      change (jacobianBlockNeighbor s2a) with (jacobianBlockNeighbor s2).
      rewrite Hken1 in Hacc2. exact Hacc2.
    - rewrite Hknn3 in Hacc4. exact Hacc4.
    - intros t ivar jvar Hne1 Hne2.
      rewrite Hblk4 by exact Hne2. rewrite Hblk3.
      change (jacobianBlockNeighbor s2a) with (jacobianBlockNeighbor s2).
      rewrite Hblk2 by exact Hne1. rewrite Hblk1. reflexivity.
  }
  { intros connectedDofIndices s jvar vals.
    intros var master_var s0 n_test_slave n_test_master n_phi_master n_connected Ken Knn
           Hss Hms Hken Hknn.
    unfold computeOffDiagJacobian.
    rewrite !mbind_gets.
    rewrite (mbind_Ok _ _ _ _ _ (getConnectedDofIndices_state connectedDofIndices jvar s)).
    fold s0. rewrite mbind_modify. rewrite !mbind_gets.
    set (sa := with_Kee _ s0).
    change (length (_test_slave sa)) with n_test_slave.
    change (length (_test_master sa)) with n_test_master.
    change (length (_phi_master sa)) with n_phi_master.
    change (length (_connected_dof_indices sa)) with n_connected.
    fold var. fold master_var.
    (* slave-slave *)
    destruct (Kee_loop (computeQpOffDiagJacobian SlaveSlave jvar)
                (computeQpOffDiagJacobian_reads_inputs SlaveSlave jvar)
                (vals SlaveSlave) n_test_slave n_connected sa)
      as (s1 & Hrun1 & Hacc1 & Hin1 & Hqp1 & Hkne1 & Hblk1).
    { exact Hss. }
    { apply dm_resize_has_storage. }
    rewrite (mbind_Ok _ _ _ _ _ Hrun1).
    (* slave-master, without a guard *)
    destruct (block_loop (computeQpOffDiagJacobian SlaveMaster jvar)
                (computeQpOffDiagJacobian_reads_inputs SlaveMaster jvar)
                (fun _ _ => 0%float) n_test_slave n_phi_master ElementNeighbor var jvar s1)
      as (s2 & Hrun2 & Hacc2 & Hin2 & Hqp2 & Hkee2 & Hkne2 & Hblk2).
    { intros i j Hi Hj. reflexivity. }
    { rewrite Hblk1. exact Hken. }
    rewrite (mbind_Ok _ _ _ _ _ Hrun2). rewrite mbind_modify. rewrite mbind_gets.
    set (s2a := with_Kne _ s2).
    (* master-slave, skipped when the resized block is empty *)
    destruct (guarded_Kne_loop (computeQpOffDiagJacobian MasterSlave jvar)
                (vals MasterSlave) n_test_master n_connected s2a)
      as (s3 & Hrun3 & Hacc3 & Hskip3 & Hin3 & Hqp3 & Hkee3 & Hblk3).
    { apply computeQpOffDiagJacobian_reads_inputs. }
    { apply (contributions_frame _ (computeQpOffDiagJacobian_reads_inputs MasterSlave jvar)
               _ _ _ s0); [| |exact Hms].
      - change (inputs s2a) with (inputs s2). rewrite Hin2. exact Hin1.
      - change (_qp (idx s2a)) with (_qp (idx s2)). rewrite Hqp2. exact Hqp1. }
    { reflexivity. }
    rewrite (mbind_Ok _ _ _ _ _ Hrun3).
    (* master-master, without a guard *)
    destruct (block_loop (computeQpOffDiagJacobian MasterMaster jvar)
                (computeQpOffDiagJacobian_reads_inputs MasterMaster jvar)
                (fun _ _ => 0%float) n_test_master n_phi_master
                NeighborNeighbor master_var jvar s3)
      as (s4 & Hrun4 & Hacc4 & Hin4 & Hqp4 & Hkee4 & Hkne4 & Hblk4).
    { intros i j Hi Hj. reflexivity. }
    { rewrite Hblk3. change (jacobianBlockNeighbor s2a) with (jacobianBlockNeighbor s2).
      rewrite Hblk2 by congruence. rewrite Hblk1. exact Hknn. }
    exists s4. split; [exact Hrun4|].
    split; [|split; [|split; [|split; [|split]]]].
    - rewrite Hkee4, Hkee3. change (_Kee s2a) with (_Kee s2). rewrite Hkee2. exact Hacc1.
    - rewrite Hkne4. exact Hacc3.
    - rewrite Hkne4. exact Hskip3.
    - rewrite Hblk4 by congruence. rewrite Hblk3.
      change (jacobianBlockNeighbor s2a) with (jacobianBlockNeighbor s2).
      rewrite Hblk1 in Hacc2. exact Hacc2.
    - rewrite Hblk3 in Hacc4.
      change (jacobianBlockNeighbor s2a) with (jacobianBlockNeighbor s2) in Hacc4.
      rewrite Hblk2 in Hacc4 by congruence. rewrite Hblk1 in Hacc4. exact Hacc4.
    - intros t ivar jvar' Hne1 Hne2.
      rewrite Hblk4 by exact Hne2. rewrite Hblk3.
      change (jacobianBlockNeighbor s2a) with (jacobianBlockNeighbor s2).
      rewrite Hblk2 by exact Hne1. rewrite Hblk1. reflexivity.
  }
Qed.

Lemma jacobian_blocks_accumulate_witness :
  exists s',
    computeJacobian Example.connectedDofIndices (Example.on_master PENALTY) = Ok (tt, s')
    /\ dm_val (_Kee s') !! 0 = Some (0 + 10)%float
    /\ dm_val (_Kne s') !! 0 = Some (0 + -7.5)%float
    /\ dm_val (jacobianBlockNeighbor s' ElementNeighbor 0%N 0%N) !! 1 = Some (0 + -2.5)%float
    /\ dm_val (jacobianBlockNeighbor s' NeighborNeighbor 0%N 0%N) !! 3
       = Some (0 + 0.625)%float
    /\ jacobianBlockNeighbor s' ElementNeighbor 0%N 1%N = Example.empty_matrix.
Proof.
  destruct (proj1 jacobian_blocks_accumulate Example.connectedDofIndices
              (Example.on_master PENALTY) (Example.jacobian_vals PENALTY))
    as (s' & Hrun & HKee & HKne & HKen & HKnn & Hrest).
  - intros i j Hi Hj. cbn in Hi, Hj.
    destruct i as [|i]; [|lia]. destruct j as [|[|[|j]]]; [reflexivity..|lia].
  - intros i j Hi Hj. cbn in Hi, Hj.
    destruct i as [|[|i]]; [| |lia]; (destruct j as [|[|[|j]]]; [reflexivity..|lia]).
  - intros _. split.
    + intros i j Hi Hj. cbn in Hi, Hj.
      destruct i as [|i]; [|lia]. destruct j as [|[|j]]; [reflexivity..|lia].
    + unfold has_storage. split; vm_compute; lia.
  - intros _. split.
    + intros i j Hi Hj. cbn in Hi, Hj.
      destruct i as [|[|i]]; [| |lia]; (destruct j as [|[|j]]; [reflexivity..|lia]).
    + unfold has_storage. split; vm_compute; lia.
  - exists s'. split; [exact Hrun|].
    destruct HKee as (_ & _ & _ & HKee & _).
    destruct HKne as (_ & _ & _ & HKne & _).
    destruct HKen as (_ & _ & _ & HKen & _).
    destruct HKnn as (_ & _ & _ & HKnn & _).
    split; [exact (HKee 0 0 ltac:(cbn; lia) ltac:(cbn; lia))|].
    split; [exact (HKne 0 0 ltac:(cbn; lia) ltac:(cbn; lia))|].
    split; [exact (HKen 0 1 ltac:(cbn; lia) ltac:(cbn; lia))|].
    split; [exact (HKnn 1 1 ltac:(cbn; lia) ltac:(cbn; lia))|].
    apply Hrest; discriminate.
Defined.

(** Without storage in the assembly, computeJacobian leaves the
    slave-master and master-master blocks as they are, while
    computeOffDiagJacobian writes the slave-master block all the same and
    runs past its end. *)
Lemma assembly_without_storage :
  (exists s',
     computeJacobian Example.connectedDofIndices (Example.without_storage PENALTY)
     = Ok (tt, s')
     /\ jacobianBlockNeighbor s' ElementNeighbor 0%N 0%N = Example.empty_matrix
     /\ jacobianBlockNeighbor s' NeighborNeighbor 0%N 0%N = Example.empty_matrix)
  /\ computeOffDiagJacobian Example.connectedDofIndices 1
       (Example.without_storage PENALTY) = Err Undefined.
Proof.
  split.
  - eexists. split; [vm_compute; reflexivity|]. split; reflexivity.
  - vm_compute. reflexivity.
Qed.

(** * Further properties of the map builder *)

Lemma same_but_map_refl (s : State) : same_but_map s s.
Proof. unfold same_but_map. repeat split. Qed.

Lemma same_but_map_trans (s1 s2 s3 : State) :
  same_but_map s1 s2 -> same_but_map s2 s3 -> same_but_map s1 s3.
Proof.
  unfold same_but_map. intros H12 H23.
  repeat match goal with H : _ /\ _ |- _ => destruct H end.
  repeat split; congruence.
Qed.

Lemma first_located_None_inv (loc : Node -> option Elem) (k : dof_id_type)
    (nodes : list Node) :
  first_located loc k nodes = None ->
  forall sn, sn ∈ nodes -> node_id sn = k -> loc sn = None.
Proof.
  induction nodes as [|sn' nodes IH]; intros Hnone sn Hin Hid.
  - inversion Hin.
  - cbn [first_located] in Hnone.
    apply elem_of_cons in Hin. destruct Hin as [->|Hin].
    + destruct (decide (node_id sn' = k)) as [_|Hne]; [|contradiction].
      destruct (loc sn'); [discriminate | reflexivity].
    + apply IH; [|exact Hin|exact Hid].
      destruct (decide (node_id sn' = k)); [|exact Hnone].
      destruct (loc sn'); [discriminate | exact Hnone].
Qed.

Section MapBuilderMore.

Variable mesh : MooseMesh.

(** The loop touches the map and the ghosting requests only, and the
    requests it adds, latest first, are the elements of the entries it
    inserts. *)
Lemma foldl_slave_nodes_frame (nodes : list Node) :
  forall (q0 : list Node) (s0 : State),
    let r := foldl (map_slave_node mesh) (q0, s0) nodes in
    same_but_map s0 (snd r)
    /\ exists added,
         ghosted_elems (fe_problem (snd r)) = added ++ ghosted_elems (fe_problem s0)
         /\ forall mid, mid ∈ added ->
              exists k, _slave_to_master_map s0 !! k = None
                        /\ _slave_to_master_map (snd r) !! k = Some mid.
Proof.
  induction nodes as [|sn nodes IH]; intros q0 s0 r.
  - subst r. cbn. split; [apply same_but_map_refl|].
    exists []. split; [reflexivity|]. intros mid Hin. inversion Hin.
  - subst r. cbn [foldl].
    destruct (map_slave_node_cases mesh q0 s0 sn)
      as [[_ ->] | [(_ & _ & ->) | (me & Hnone & Hloc & ->)]].
    + apply IH.
    + apply IH.
    + set (s1 := addGhostedElem (elem_id me)
                   (with_map (<[node_id sn := elem_id me]> (_slave_to_master_map s0)) s0)).
      destruct (IH (sn :: q0) s1) as (Hframe & added & Hadded & Hvals).
      destruct (foldl_slave_nodes mesh (_master (params s1)) nodes (sn :: q0) s1 eq_refl)
        as (_ & Hmap & _).
      cbv zeta in Hmap.
      split.
      * apply (same_but_map_trans s0 s1); [|exact Hframe].
        unfold same_but_map. repeat split.
      * exists (added ++ [elem_id me]). split.
        -- rewrite Hadded, <- app_assoc. reflexivity.
        -- intros mid Hin. apply elem_of_app in Hin. destruct Hin as [Hin|Hin].
           ++ destruct (Hvals mid Hin) as (k & Hk1 & Hk).
              exists k. split; [|exact Hk].
              destruct (decide (node_id sn = k)) as [<-|Hne].
              ** exact Hnone.
              ** rewrite <- Hk1. subst s1.
                 cbn [_slave_to_master_map addGhostedElem with_fe_problem with_map].
                 rewrite lookup_insert_ne by exact Hne. reflexivity.
           ++ apply list_elem_of_singleton in Hin. subst mid.
              exists (node_id sn). split; [exact Hnone|].
              rewrite Hmap. subst s1.
              cbn [_slave_to_master_map addGhostedElem with_fe_problem with_map].
              rewrite lookup_insert_eq. reflexivity.
Qed.

(** A loop over nodes that are all keys of the map or unknown to the
    locator changes nothing. *)
Lemma foldl_slave_nodes_settled (nodes : list Node) :
  forall (q0 : list Node) (s0 : State),
    (forall sn, sn ∈ nodes ->
       is_Some (_slave_to_master_map s0 !! node_id sn)
       \/ pointLocator mesh (node_point sn) {[ _master (params s0) ]} = None) ->
    snd (foldl (map_slave_node mesh) (q0, s0) nodes) = s0.
Proof.
  induction nodes as [|sn nodes IH]; intros q0 s0 Hall; [reflexivity|].
  assert (Hrest : forall sn', sn' ∈ nodes ->
            is_Some (_slave_to_master_map s0 !! node_id sn')
            \/ pointLocator mesh (node_point sn') {[ _master (params s0) ]} = None).
  { intros sn' Hin. apply Hall. apply list_elem_of_further. exact Hin. }
  cbn [foldl].
  destruct (map_slave_node_cases mesh q0 s0 sn)
    as [[_ ->] | [(_ & _ & ->) | (me & Hnone & Hloc & ->)]].
  - apply IH. exact Hrest.
  - apply IH. exact Hrest.
  - destruct (Hall sn (list_elem_of_here _ _)) as [[v Hv] | Hno]; congruence.
Qed.

(** Nodes of an id that is no key and that the locator never finds an
    element for are handed to the locator at each of their occurrences. *)
Lemma foldl_slave_nodes_requeried (m : subdomain_id_type) (k : dof_id_type)
    (nodes : list Node) :
  (forall sn, sn ∈ nodes -> node_id sn = k ->
     pointLocator mesh (node_point sn) {[ m ]} = None) ->
  forall (q0 : list Node) (s0 : State),
    _master (params s0) = m ->
    _slave_to_master_map s0 !! k = None ->
    queries_of k (fst (foldl (map_slave_node mesh) (q0, s0) nodes))
    = queries_of k q0 + queries_of k nodes.
Proof.
  induction nodes as [|sn nodes IH]; intros Hall q0 s0 Hm Hk.
  - cbn [foldl fst]. change (queries_of k []) with 0. lia.
  - assert (Hall' : forall sn', sn' ∈ nodes -> node_id sn' = k ->
                      pointLocator mesh (node_point sn') {[ m ]} = None).
    { intros sn' Hin. apply Hall. apply list_elem_of_further. exact Hin. }
    specialize (IH Hall').
    cbn [foldl]. rewrite (queries_of_cons k sn nodes).
    destruct (map_slave_node_cases mesh q0 s0 sn)
      as [[[v Hv] ->] | [(Hnone & Hloc & ->) | (me & Hnone & Hloc & ->)]].
    + rewrite (IH q0 s0 Hm Hk).
      destruct (decide (node_id sn = k)) as [Heq|]; [|reflexivity].
      rewrite Heq in Hv. congruence.
    + rewrite (IH (sn :: q0) s0 Hm Hk), queries_of_cons.
      destruct (decide (node_id sn = k)); lia.
    + destruct (decide (node_id sn = k)) as [Heq|Hne].
      { rewrite Hm, (Hall sn (list_elem_of_here _ _) Heq) in Hloc. discriminate. }
      rewrite IH; [| exact Hm |].
      * rewrite queries_of_cons. destruct (decide (node_id sn = k)); [contradiction|].
        reflexivity.
      * cbn [_slave_to_master_map addGhostedElem with_fe_problem with_map].
        rewrite lookup_insert_ne by exact Hne. exact Hk.
Qed.

End MapBuilderMore.

(** X1. prepareSlaveToMasterMap never replaces or removes an entry: whatever
    the map holds before the call it holds after it, also when the locator
    would now answer differently; an id that was no key gets the element of
    the first node of that id the locator finds an element for. *)
Theorem prepareSlaveToMasterMap_keeps_entries (mesh : MooseMesh) (s : State) :
  exists s',
    prepareSlaveToMasterMap mesh s = Ok (tt, s')
    /\ (forall k v, _slave_to_master_map s !! k = Some v ->
          _slave_to_master_map s' !! k = Some v)
    /\ (forall k, _slave_to_master_map s !! k = None ->
          _slave_to_master_map s' !! k
          = first_located (locate mesh s) k (slave_nodes mesh s)).
Proof.
  eexists. split; [reflexivity|].
  unfold prepareSlaveToMasterMap_trace. rewrite foldl_slave_elems.
  destruct (foldl_slave_nodes mesh (_master (params s))
              (active_subdomain_elements mesh (_slave (params s)) ≫= node_ref_range)
              [] s eq_refl) as (_ & Hmap & _).
  cbv zeta in Hmap. split.
  - intros k v Hk. rewrite Hmap, Hk. reflexivity.
  - intros k Hk. rewrite Hmap, Hk. reflexivity.
Qed.

Lemma prepareSlaveToMasterMap_keeps_entries_witness :
  exists s',
    prepareSlaveToMasterMap Example.mesh Example2.stale = Ok (tt, s')
    /\ locate Example.mesh Example2.stale (Example.node 1 1%float)
       = Some Example.master_elem
    /\ _slave_to_master_map s' !! 1%N = Some 7%N.
Proof.
  destruct (prepareSlaveToMasterMap_keeps_entries Example.mesh Example2.stale)
    as (s' & Hrun & Hkeep & _).
  exists s'. split; [exact Hrun|]. split; [reflexivity|].
  apply Hkeep. vm_compute. reflexivity.
Defined.

(** X2. A second run of prepareSlaveToMasterMap on the state the first run
    left, over the same mesh, changes nothing: no entry and no ghosting
    request is added. *)
Theorem prepareSlaveToMasterMap_rerun (mesh : MooseMesh) (s s' : State) :
  prepareSlaveToMasterMap mesh s = Ok (tt, s') ->
  prepareSlaveToMasterMap mesh s' = Ok (tt, s').
Proof.
  intros Hrun. unfold prepareSlaveToMasterMap in Hrun.
  assert (Hs' : s' = snd (prepareSlaveToMasterMap_trace mesh s)) by congruence.
  clear Hrun. unfold prepareSlaveToMasterMap_trace in Hs'.
  rewrite foldl_slave_elems in Hs'.
  set (nodes := active_subdomain_elements mesh (_slave (params s)) ≫= node_ref_range)
    in Hs'.
  destruct (foldl_slave_nodes mesh (_master (params s)) nodes [] s eq_refl)
    as (_ & Hmap & _).
  destruct (foldl_slave_nodes_frame mesh nodes [] s) as ((Hparams & _) & _).
  cbv zeta in Hmap, Hparams. rewrite <- Hs' in Hmap, Hparams.
  unfold prepareSlaveToMasterMap, prepareSlaveToMasterMap_trace.
  rewrite foldl_slave_elems, Hparams. fold nodes.
  rewrite foldl_slave_nodes_settled; [reflexivity|].
  intros sn Hin. rewrite Hparams.
  destruct (_slave_to_master_map s' !! node_id sn) as [v|] eqn:Hk; [left; eauto|].
  right. rewrite Hmap in Hk.
  destruct (_slave_to_master_map s !! node_id sn); [discriminate|].
  exact (first_located_None_inv _ _ _ Hk sn Hin eq_refl).
Qed.

Lemma prepareSlaveToMasterMap_rerun_witness :
  exists s',
    prepareSlaveToMasterMap Example.mesh (Example.initial PENALTY) = Ok (tt, s')
    /\ prepareSlaveToMasterMap Example.mesh s' = Ok (tt, s').
Proof.
  eexists. split; [reflexivity|].
  apply (prepareSlaveToMasterMap_rerun Example.mesh (Example.initial PENALTY)).
  reflexivity.
Defined.

(** X3. prepareSlaveToMasterMap registers for ghosting only elements of
    entries it inserts: the requests after the call are those before it,
    preceded by one element id per new entry, each the value of a key the map
    did not have. *)
Theorem prepareSlaveToMasterMap_ghosts_only_inserted (mesh : MooseMesh) (s : State) :
  exists s' added,
    prepareSlaveToMasterMap mesh s = Ok (tt, s')
    /\ ghosted_elems (fe_problem s') = added ++ ghosted_elems (fe_problem s)
    /\ (forall mid, mid ∈ added ->
          exists k, _slave_to_master_map s !! k = None
                    /\ _slave_to_master_map s' !! k = Some mid)
    /\ length added + size (_slave_to_master_map s) = size (_slave_to_master_map s').
Proof.
  unfold prepareSlaveToMasterMap, prepareSlaveToMasterMap_trace.
  rewrite foldl_slave_elems.
  set (nodes := active_subdomain_elements mesh (_slave (params s)) ≫= node_ref_range).
  destruct (foldl_slave_nodes_frame mesh nodes [] s) as (_ & added & Hadded & Hvals).
  destruct (foldl_slave_nodes mesh (_master (params s)) nodes [] s eq_refl)
    as (_ & _ & _ & _ & Hlen).
  cbv zeta in Hadded, Hvals, Hlen.
  eexists. exists added. split; [reflexivity|]. split; [exact Hadded|].
  split; [exact Hvals|].
  rewrite Hadded, length_app in Hlen. lia.
Qed.

(** X4. prepareSlaveToMasterMap changes the slave-to-master map and the
    ghosting requests and nothing else: the parameters, the system data, the
    neighbor context, the current node, the variable values, the constraint
    residual, the counters and every Jacobian block are as before. *)
Theorem prepareSlaveToMasterMap_frame (mesh : MooseMesh) (s : State) :
  exists s', prepareSlaveToMasterMap mesh s = Ok (tt, s') /\ same_but_map s s'.
Proof.
  unfold prepareSlaveToMasterMap, prepareSlaveToMasterMap_trace.
  rewrite foldl_slave_elems. eexists. split; [reflexivity|].
  apply foldl_slave_nodes_frame.
Qed.

(** X5. A slave node that the locator finds no element for is not
    remembered: when an id is no key of the map and the locator finds nothing
    for the nodes of that id, the locator is asked once for every occurrence
    of such a node in the slave elements. *)
Theorem prepareSlaveToMasterMap_requeries_unlocated (mesh : MooseMesh) (s : State)
    (k : dof_id_type) :
  _slave_to_master_map s !! k = None ->
  (forall sn, sn ∈ slave_nodes mesh s -> node_id sn = k -> locate mesh s sn = None) ->
  queries_of k (fst (prepareSlaveToMasterMap_trace mesh s))
  = queries_of k (slave_nodes mesh s).
Proof.
  intros Hk Hall. unfold prepareSlaveToMasterMap_trace.
  rewrite foldl_slave_elems.
  apply (foldl_slave_nodes_requeried mesh (_master (params s)) k
           (slave_nodes mesh s) Hall [] s eq_refl Hk).
Qed.

Lemma prepareSlaveToMasterMap_requeries_unlocated_witness :
  queries_of 0%N (fst (prepareSlaveToMasterMap_trace Example2.mesh (Example.initial PENALTY)))
  = 2.
Proof.
  rewrite (prepareSlaveToMasterMap_requeries_unlocated Example2.mesh
             (Example.initial PENALTY) 0%N).
  - reflexivity.
  - reflexivity.
  - intros sn Hin Hid.
    assert (Hn : slave_nodes Example2.mesh (Example.initial PENALTY)
                 = [Example.node 4 (-1)%float; Example.node 0 0%float;
                    Example.node 0 0%float; Example.node 1 1%float]) by reflexivity.
    rewrite Hn in Hin.
    repeat (apply elem_of_cons in Hin; destruct Hin as [->|Hin]);
      try reflexivity; try discriminate Hid.
    inversion Hin.
Defined.

(** * The map builder and the activation gate together *)

Lemma example_locator_consistent : locator_consistent Example.mesh.
Proof.
  intros p allowed me. cbn.
  destruct (bool_decide (2%N ∈ allowed) && PrimFloat.leb 0.5 (pt_x p)
            && PrimFloat.leb (pt_x p) 2.5); [|discriminate].
  intros H. inversion H. reflexivity.
Qed.

(** X6. Once prepareSlaveToMasterMap has built the map of a new object, the
    constraint applies to exactly the slave nodes the locator finds an
    element for (node ids identifying the nodes, and located elements being
    elements of the mesh): positioned on a slave node without containing
    master element, shouldApply returns false and changes nothing; positioned
    on a slave node inside a master element, it makes that element the
    neighbor context at the point of the node and goes on to
    reinitConstraint, which under the kinematic formulation gives true and
    the negated ghosted residual at the node's dof. *)
Theorem constraint_applies_to_located_nodes
    (mesh : MooseMesh) (neighborPhys : Elem -> list Point -> NeighborValues)
    (s s' : State) (sn : Node) :
  _slave_to_master_map s = ∅ ->
  unique_node_ids (slave_nodes mesh s) ->
  locator_consistent mesh ->
  prepareSlaveToMasterMap mesh s = Ok (tt, s') ->
  sn ∈ slave_nodes mesh s ->
  let here := with_current_node sn s' in
  (locate mesh s sn = None -> shouldApply mesh neighborPhys here = Ok (false, here))
  /\ (forall me, locate mesh s sn = Some me ->
        let on_me := reinitNeighborPhys neighborPhys me [node_point sn]
                       (setNeighborSubdomainID me here) in
        shouldApply mesh neighborPhys here = (reinitConstraint >> mret true)%M on_me
        /\ (_formulation (params s) = KINEMATIC ->
            shouldApply mesh neighborPhys here
            = Ok (true,
                  with_constraint_residual
                    (- _residual_copy (sys s)
                         (dof_number sn (sys_number (params s))
                            (var_number (params s)) 0%N))%float on_me))).
Proof.
  intros Hempty Huniq Hcons Hrun Hin here.
  unfold prepareSlaveToMasterMap in Hrun.
  assert (Hs' : s' = snd (prepareSlaveToMasterMap_trace mesh s)) by congruence.
  clear Hrun. unfold prepareSlaveToMasterMap_trace in Hs'.
  rewrite foldl_slave_elems in Hs'. fold (slave_nodes mesh s) in Hs'.
  destruct (foldl_slave_nodes mesh (_master (params s)) (slave_nodes mesh s) [] s eq_refl)
    as (_ & Hmap & _).
  destruct (foldl_slave_nodes_frame mesh (slave_nodes mesh s) [] s) as (Hframe & _).
  cbv zeta in Hmap, Hframe. rewrite <- Hs' in Hmap, Hframe.
  destruct Hframe as (Hparams & Hsys & _).
  assert (Hentry : _slave_to_master_map s' !! node_id sn = elem_id <$> locate mesh s sn).
  { rewrite Hmap, Hempty, lookup_empty.
    apply (first_located_own (locate mesh s) (slave_nodes mesh s)); [|exact Hin].
    intros n1 n2 H1 H2 Hid. unfold locate. rewrite (Huniq n1 n2 H1 H2 Hid). reflexivity. }
  split.
  - intros Hloc. rewrite Hloc in Hentry. unfold shouldApply.
    change (_slave_to_master_map here !! node_id (_current_node here))
      with (_slave_to_master_map s' !! node_id sn).
    rewrite Hentry. reflexivity.
  - intros me Hloc on_me. rewrite Hloc in Hentry. cbn in Hentry.
    assert (Hshould : shouldApply mesh neighborPhys here
                      = (reinitConstraint >> mret true)%M on_me).
    { unfold shouldApply.
      change (_slave_to_master_map here !! node_id (_current_node here))
        with (_slave_to_master_map s' !! node_id sn).
      rewrite Hentry, (Hcons _ _ _ Hloc). reflexivity. }
    split; [exact Hshould|].
    intros Hf. rewrite Hshould. unfold mbind, mret, reinitConstraint, slave_dof.
    change (params on_me) with (params s'). change (sys on_me) with (sys s').
    change (_current_node on_me) with sn.
    rewrite Hparams, Hsys, Hf. reflexivity.
Qed.

Lemma constraint_applies_to_located_nodes_witness :
  exists s',
    prepareSlaveToMasterMap Example.mesh (Example.initial KINEMATIC) = Ok (tt, s')
    /\ shouldApply Example.mesh Example.neighborPhys
         (with_current_node (Example.node 0 0%float) s')
       = Ok (false, with_current_node (Example.node 0 0%float) s')
    /\ exists s'',
         shouldApply Example.mesh Example.neighborPhys
           (with_current_node (Example.node 1 1%float) s') = Ok (true, s'')
         /\ neighbor_elem (fe_problem s'') = Some Example.master_elem
         /\ _constraint_residual s'' = (- 3)%float.
Proof.
  eexists. split; [reflexivity|].
  set (s' := snd (prepareSlaveToMasterMap_trace Example.mesh (Example.initial KINEMATIC))).
  assert (Huniq : unique_node_ids (slave_nodes Example.mesh (Example.initial KINEMATIC)))
    by exact example_unique_node_ids.
  split.
  - apply (proj1 (constraint_applies_to_located_nodes Example.mesh Example.neighborPhys
                    (Example.initial KINEMATIC) s' (Example.node 0 0%float)
                    eq_refl Huniq example_locator_consistent eq_refl
                    ltac:(apply list_elem_of_here))).
    reflexivity.
  - eexists. split.
    + apply (proj2 (constraint_applies_to_located_nodes Example.mesh Example.neighborPhys
                      (Example.initial KINEMATIC) s' (Example.node 1 1%float)
                      eq_refl Huniq example_locator_consistent eq_refl
                      ltac:(apply list_elem_of_further, list_elem_of_here))
               Example.master_elem eq_refl).
      reflexivity.
    + split; reflexivity.
Defined.

(** * The assembly as a whole *)

(** The blocks after a run of computeJacobian whose contributions evaluate
    to [vals]. *)
Lemma computeJacobian_run
    (connectedDofIndices : N -> State -> list dof_id_type) (s : State)
    (vals : ConstraintJacobianType -> nat -> nat -> Real) :
  let var := var_number (params s) in
  let master_var := master_var_number (params s) in
  let s0 := after_connectivity connectedDofIndices var s in
  let n_test_slave := length (_test_slave s) in
  let n_test_master := length (_test_master s) in
  let n_phi_master := length (_phi_master s) in
  let n_connected := length (connectedDofIndices var s) in
  let Ken := jacobianBlockNeighbor s ElementNeighbor var var in
  let Knn := jacobianBlockNeighbor s NeighborNeighbor master_var var in
  contributions (computeQpJacobian SlaveSlave) (vals SlaveSlave)
    n_test_slave n_connected s0 ->
  contributions (computeQpJacobian MasterSlave) (vals MasterSlave)
    n_test_master n_connected s0 ->
  (dm_nonempty Ken = true ->
     contributions (computeQpJacobian SlaveMaster) (vals SlaveMaster)
       n_test_slave n_phi_master s0
     /\ has_storage Ken n_test_slave n_phi_master) ->
  (dm_nonempty Knn = true ->
     contributions (computeQpJacobian MasterMaster) (vals MasterMaster)
       n_test_master n_phi_master s0
     /\ has_storage Knn n_test_master n_phi_master) ->
  exists s',
    computeJacobian connectedDofIndices s = Ok (tt, s')
    /\ accumulated (dm_resize n_test_slave n_connected) n_test_slave n_connected
         (vals SlaveSlave) (_Kee s')
    /\ accumulated (dm_resize n_test_master n_connected) n_test_master n_connected
         (vals MasterSlave) (_Kne s')
    /\ (if dm_nonempty Ken
        then accumulated Ken n_test_slave n_phi_master (vals SlaveMaster)
               (jacobianBlockNeighbor s' ElementNeighbor var var)
        else jacobianBlockNeighbor s' ElementNeighbor var var = Ken)
    /\ (if dm_nonempty Knn
        then accumulated Knn n_test_master n_phi_master (vals MasterMaster)
               (jacobianBlockNeighbor s' NeighborNeighbor master_var var)
        else jacobianBlockNeighbor s' NeighborNeighbor master_var var = Knn)
    /\ (forall t ivar jvar,
          (t, ivar, jvar) <> (ElementNeighbor, var, var) ->
          (t, ivar, jvar) <> (NeighborNeighbor, master_var, var) ->
          jacobianBlockNeighbor s' t ivar jvar = jacobianBlockNeighbor s t ivar jvar).
Proof.
  intros var master_var s0 n_test_slave n_test_master n_phi_master n_connected Ken Knn
         Hss Hms Hsm Hmm.
  unfold computeJacobian.
  rewrite !mbind_gets.
  rewrite (mbind_Ok _ _ _ _ _ (getConnectedDofIndices_state connectedDofIndices var s)).
  fold s0. rewrite mbind_modify. rewrite !mbind_gets.
  set (sa := with_Kee _ s0).
  change (length (_test_slave sa)) with n_test_slave.
  change (length (_test_master sa)) with n_test_master.
  change (length (_phi_master sa)) with n_phi_master.
  change (length (_connected_dof_indices sa)) with n_connected.
  fold var. fold master_var.
  (* slave-slave *)
  destruct (Kee_loop (computeQpJacobian SlaveSlave)
              (computeQpJacobian_reads_inputs SlaveSlave)
              (vals SlaveSlave) n_test_slave n_connected sa)
    as (s1 & Hrun1 & Hacc1 & Hin1 & Hqp1 & Hkne1 & Hblk1).
  { exact Hss. }
  { apply dm_resize_has_storage. }
  rewrite (mbind_Ok _ _ _ _ _ Hrun1). rewrite mbind_gets.
  assert (Hken1 : jacobianBlockNeighbor s1 ElementNeighbor var var = Ken)
    by (rewrite Hblk1; reflexivity).
  (* slave-master *)
  destruct (guarded_block_loop (computeQpJacobian SlaveMaster)
              (computeQpJacobian_reads_inputs SlaveMaster)
              (vals SlaveMaster) n_test_slave n_phi_master ElementNeighbor var var s1)
    as (s2 & Hrun2 & Hacc2 & Hin2 & Hqp2 & Hkee2 & Hkne2 & Hblk2).
  { rewrite Hken1. intros Hne. destruct (Hsm Hne) as [Hc Hst]. split; [|exact Hst].
    apply (contributions_frame _ (computeQpJacobian_reads_inputs SlaveMaster) _ _ _ s0);
      [exact Hin1 | exact Hqp1 | exact Hc]. }
  rewrite (mbind_Ok _ _ _ _ _ Hrun2). rewrite mbind_modify.
  set (s2a := with_Kne _ s2).
  (* master-slave *)
  destruct (Kne_loop (computeQpJacobian MasterSlave)
              (computeQpJacobian_reads_inputs MasterSlave)
              (vals MasterSlave) n_test_master n_connected s2a)
    as (s3 & Hrun3 & Hacc3 & Hin3 & Hqp3 & Hkee3 & Hblk3).
  { apply (contributions_frame _ (computeQpJacobian_reads_inputs MasterSlave) _ _ _ s0);
      [| |exact Hms].
    - change (inputs s2a) with (inputs s2). rewrite Hin2. exact Hin1.
    - change (_qp (idx s2a)) with (_qp (idx s2)). rewrite Hqp2. exact Hqp1. }
  { apply dm_resize_has_storage. }
  rewrite (mbind_Ok _ _ _ _ _ Hrun3). rewrite mbind_gets.
  assert (Hknn3 : jacobianBlockNeighbor s3 NeighborNeighbor master_var var = Knn).
  { rewrite Hblk3. change (jacobianBlockNeighbor s2a) with (jacobianBlockNeighbor s2).
    rewrite Hblk2 by congruence. rewrite Hblk1. reflexivity. }
  (* master-master *)
  destruct (guarded_block_loop (computeQpJacobian MasterMaster)
              (computeQpJacobian_reads_inputs MasterMaster)
              (vals MasterMaster) n_test_master n_phi_master
              NeighborNeighbor master_var var s3)
    as (s4 & Hrun4 & Hacc4 & Hin4 & Hqp4 & Hkee4 & Hkne4 & Hblk4).
  { rewrite Hknn3. intros Hne. destruct (Hmm Hne) as [Hc Hst]. split; [|exact Hst].
    apply (contributions_frame _ (computeQpJacobian_reads_inputs MasterMaster) _ _ _ s0);
      [| |exact Hc].
    - rewrite Hin3. change (inputs s2a) with (inputs s2). rewrite Hin2. exact Hin1.
    - rewrite Hqp3. change (_qp (idx s2a)) with (_qp (idx s2)).
      rewrite Hqp2. exact Hqp1. }
  exists s4. split; [exact Hrun4|].
  split; [|split; [|split; [|split]]].
  - rewrite Hkee4, Hkee3. change (_Kee s2a) with (_Kee s2). rewrite Hkee2. exact Hacc1.
  - rewrite Hkne4. exact Hacc3.
  - rewrite Hblk4 by congruence. rewrite Hblk3.
    change (jacobianBlockNeighbor s2a) with (jacobianBlockNeighbor s2).
    rewrite Hken1 in Hacc2. exact Hacc2.
  - rewrite Hknn3 in Hacc4. exact Hacc4.
  - intros t ivar jvar Hne1 Hne2.
    rewrite Hblk4 by exact Hne2. rewrite Hblk3.
    change (jacobianBlockNeighbor s2a) with (jacobianBlockNeighbor s2).
    rewrite Hblk2 by exact Hne1. rewrite Hblk1. reflexivity.
Qed.

(** The blocks after a run of computeOffDiagJacobian(jvar) whose
    slave-slave and master-slave contributions evaluate to [vals]. *)
Lemma computeOffDiagJacobian_run
    (connectedDofIndices : N -> State -> list dof_id_type) (s : State) (jvar : N)
    (vals : ConstraintJacobianType -> nat -> nat -> Real) :
  let var := var_number (params s) in
  let master_var := master_var_number (params s) in
  let s0 := after_connectivity connectedDofIndices jvar s in
  let n_test_slave := length (_test_slave s) in
  let n_test_master := length (_test_master s) in
  let n_phi_master := length (_phi_master s) in
  let n_connected := length (connectedDofIndices jvar s) in
  let Ken := jacobianBlockNeighbor s ElementNeighbor var jvar in
  let Knn := jacobianBlockNeighbor s NeighborNeighbor master_var jvar in
  contributions (computeQpOffDiagJacobian SlaveSlave jvar) (vals SlaveSlave)
    n_test_slave n_connected s0 ->
  contributions (computeQpOffDiagJacobian MasterSlave jvar) (vals MasterSlave)
    n_test_master n_connected s0 ->
  has_storage Ken n_test_slave n_phi_master ->
  has_storage Knn n_test_master n_phi_master ->
  exists s',
    computeOffDiagJacobian connectedDofIndices jvar s = Ok (tt, s')
    /\ accumulated (dm_resize n_test_slave n_connected) n_test_slave n_connected
         (vals SlaveSlave) (_Kee s')
    /\ accumulated (dm_resize n_test_master n_connected) n_test_master n_connected
         (vals MasterSlave) (_Kne s')
    /\ (dm_nonempty (dm_resize n_test_master n_connected) = false ->
        _Kne s' = dm_resize n_test_master n_connected)
    /\ accumulated Ken n_test_slave n_phi_master (fun _ _ => 0%float)
         (jacobianBlockNeighbor s' ElementNeighbor var jvar)
    /\ accumulated Knn n_test_master n_phi_master (fun _ _ => 0%float)
         (jacobianBlockNeighbor s' NeighborNeighbor master_var jvar)
    /\ (forall t ivar jvar',
          (t, ivar, jvar') <> (ElementNeighbor, var, jvar) ->
          (t, ivar, jvar') <> (NeighborNeighbor, master_var, jvar) ->
          jacobianBlockNeighbor s' t ivar jvar' = jacobianBlockNeighbor s t ivar jvar').
Proof.
  intros var master_var s0 n_test_slave n_test_master n_phi_master n_connected Ken Knn
         Hss Hms Hken Hknn.
  unfold computeOffDiagJacobian.
  rewrite !mbind_gets.
  rewrite (mbind_Ok _ _ _ _ _ (getConnectedDofIndices_state connectedDofIndices jvar s)).
  fold s0. rewrite mbind_modify. rewrite !mbind_gets.
  set (sa := with_Kee _ s0).
  change (length (_test_slave sa)) with n_test_slave.
  change (length (_test_master sa)) with n_test_master.
  change (length (_phi_master sa)) with n_phi_master.
  change (length (_connected_dof_indices sa)) with n_connected.
  fold var. fold master_var.
  (* slave-slave *)
  destruct (Kee_loop (computeQpOffDiagJacobian SlaveSlave jvar)
              (computeQpOffDiagJacobian_reads_inputs SlaveSlave jvar)
              (vals SlaveSlave) n_test_slave n_connected sa)
    as (s1 & Hrun1 & Hacc1 & Hin1 & Hqp1 & Hkne1 & Hblk1).
  { exact Hss. }
  { apply dm_resize_has_storage. }
  rewrite (mbind_Ok _ _ _ _ _ Hrun1).
  (* slave-master, without a guard *)
  destruct (block_loop (computeQpOffDiagJacobian SlaveMaster jvar)
              (computeQpOffDiagJacobian_reads_inputs SlaveMaster jvar)
              (fun _ _ => 0%float) n_test_slave n_phi_master ElementNeighbor var jvar s1)
    as (s2 & Hrun2 & Hacc2 & Hin2 & Hqp2 & Hkee2 & Hkne2 & Hblk2).
  { intros i j Hi Hj. reflexivity. }
  { rewrite Hblk1. exact Hken. }
  rewrite (mbind_Ok _ _ _ _ _ Hrun2). rewrite mbind_modify. rewrite mbind_gets.
  set (s2a := with_Kne _ s2).
  (* master-slave, skipped when the resized block is empty *)
  destruct (guarded_Kne_loop (computeQpOffDiagJacobian MasterSlave jvar)
              (vals MasterSlave) n_test_master n_connected s2a)
    as (s3 & Hrun3 & Hacc3 & Hskip3 & Hin3 & Hqp3 & Hkee3 & Hblk3).
  { apply computeQpOffDiagJacobian_reads_inputs. }
  { apply (contributions_frame _ (computeQpOffDiagJacobian_reads_inputs MasterSlave jvar)
             _ _ _ s0); [| |exact Hms].
    - change (inputs s2a) with (inputs s2). rewrite Hin2. exact Hin1.
    - change (_qp (idx s2a)) with (_qp (idx s2)). rewrite Hqp2. exact Hqp1. }
  { reflexivity. }
  rewrite (mbind_Ok _ _ _ _ _ Hrun3).
  (* master-master, without a guard *)
  destruct (block_loop (computeQpOffDiagJacobian MasterMaster jvar)
              (computeQpOffDiagJacobian_reads_inputs MasterMaster jvar)
              (fun _ _ => 0%float) n_test_master n_phi_master
              NeighborNeighbor master_var jvar s3)
    as (s4 & Hrun4 & Hacc4 & Hin4 & Hqp4 & Hkee4 & Hkne4 & Hblk4).
  { intros i j Hi Hj. reflexivity. }
  { rewrite Hblk3. change (jacobianBlockNeighbor s2a) with (jacobianBlockNeighbor s2).
    rewrite Hblk2 by congruence. rewrite Hblk1. exact Hknn. }
  exists s4. split; [exact Hrun4|].
  split; [|split; [|split; [|split; [|split]]]].
  - rewrite Hkee4, Hkee3. change (_Kee s2a) with (_Kee s2). rewrite Hkee2. exact Hacc1.
  - rewrite Hkne4. exact Hacc3.
  - rewrite Hkne4. exact Hskip3.
  - rewrite Hblk4 by congruence. rewrite Hblk3.
    change (jacobianBlockNeighbor s2a) with (jacobianBlockNeighbor s2).
    rewrite Hblk1 in Hacc2. exact Hacc2.
  - rewrite Hblk3 in Hacc4.
    change (jacobianBlockNeighbor s2a) with (jacobianBlockNeighbor s2) in Hacc4.
    rewrite Hblk2 in Hacc4 by congruence. rewrite Hblk1 in Hacc4. exact Hacc4.
  - intros t ivar jvar' Hne1 Hne2.
    rewrite Hblk4 by exact Hne2. rewrite Hblk3.
    change (jacobianBlockNeighbor s2a) with (jacobianBlockNeighbor s2).
    rewrite Hblk2 by exact Hne1. rewrite Hblk1. reflexivity.
Qed.

Lemma mbind_Err {A B : Type} (m : M A) (k : A -> M B) (s : State) (e : Error) :
  m s = Err e -> mbind m k s = Err e.
Proof. intros H. unfold mbind. rewrite H. reflexivity. Qed.

Lemma shape_first_qp (tbl : list (list Real)) (k : nat) :
  evaluated tbl -> k < length tbl -> shape tbl k 0 = Ok (first_qp tbl k).
Proof.
  intros Hev Hk. destruct (lookup_lt_is_Some_2 _ _ Hk) as [row Hrow].
  unfold shape, first_qp, at_index, rbind. rewrite Hrow.
  assert (Hne : row <> []).
  { eapply (proj1 (Forall_forall _ _) Hev). eapply list_elem_of_lookup_2. exact Hrow. }
  destruct row as [|x row]; [contradiction | reflexivity].
Qed.

Lemma shape_point_basis (dof : dof_id_type) (connected : list dof_id_type) (j : nat) :
  j < length connected ->
  shape (point_basis dof connected) j 0 = Ok (basis_at dof connected j).
Proof.
  intros Hj. destruct (lookup_lt_is_Some_2 _ _ Hj) as [c Hc].
  unfold shape, basis_at, at_index, rbind.
  rewrite point_basis_lookup, Hc. reflexivity.
Qed.

Lemma accumulated_zero_resize (rows cols : nat) (K' : DenseMatrix) :
  accumulated (dm_resize rows cols) rows cols (fun _ _ => 0%float) K' ->
  K' = dm_resize rows cols.
Proof.
  intros (Hm & Hn & Hlen & Hin & Hout). destruct K' as [m n val].
  cbn [dm_m dm_n dm_val dm_resize] in *. subst m n. unfold dm_resize. f_equal.
  apply list_eq. intros p.
  destruct (decide (p < rows * cols)) as [Hp|Hp].
  - assert (Hc : cols <> 0) by lia.
    assert (Hi : p / cols < rows) by (apply Nat.Div0.div_lt_upper_bound; lia).
    assert (Hj : p mod cols < cols) by (apply Nat.mod_upper_bound; exact Hc).
    assert (Hpq : p = p / cols * cols + p mod cols).
    { rewrite (Nat.div_mod_eq p cols) at 1. lia. }
    rewrite Hpq, Hin by lia. rewrite <- Hpq.
    rewrite lookup_replicate_2 by exact Hp. reflexivity.
  - apply Hout. intros i j Hi Hj. nia.
Qed.

Lemma computeQpJacobian_invalid (type : ConstraintJacobianType) (s : State) (raw : Z) :
  _formulation (params s) = InvalidFormulation raw ->
  computeQpJacobian type s = Err (MooseError "Invalid formulation").
Proof. intros Hf. destruct type; unfold computeQpJacobian; rewrite Hf; reflexivity. Qed.

(** X7. computeJacobian checks the formulation only when it evaluates a
    contribution. With an invalid formulation, at least one slave test
    function and at least one connected dof, it stops with the fatal error at
    the first slave-slave contribution; with no test function on either side
    it evaluates nothing and returns normally whatever the formulation is. *)
Theorem computeJacobian_invalid_formulation
    (connectedDofIndices : N -> State -> list dof_id_type) (s : State) :
  (forall raw,
     _formulation (params s) = InvalidFormulation raw ->
     _test_slave s <> [] ->
     connectedDofIndices (var_number (params s)) s <> [] ->
     computeJacobian connectedDofIndices s = Err (MooseError "Invalid formulation"))
  /\ (_test_slave s = [] -> _test_master s = [] ->
      exists s', computeJacobian connectedDofIndices s = Ok (tt, s')).
Proof.
  split.
  - intros raw Hf Htest Hconn.
    unfold computeJacobian. rewrite !mbind_gets.
    rewrite (mbind_Ok _ _ _ _ _
               (getConnectedDofIndices_state connectedDofIndices (var_number (params s)) s)).
    rewrite mbind_modify. rewrite !mbind_gets.
    set (sa := with_Kee _ _).
    change (length (_test_slave sa)) with (length (_test_slave s)).
    change (length (_connected_dof_indices sa))
      with (length (connectedDofIndices (var_number (params s)) s)).
    destruct (_test_slave s) as [|row rows] eqn:Erows; [contradiction|].
    destruct (connectedDofIndices (var_number (params s)) s) as [|c conn] eqn:Econn;
      [contradiction|].
    cbn [length]. apply mbind_Err. unfold for_i. apply mbind_Err.
    cbn [for_range]. apply mbind_Err. rewrite mbind_modify.
    unfold for_j. apply mbind_Err. cbn [for_range]. apply mbind_Err.
    rewrite mbind_modify. apply mbind_Err. unfold lift.
    rewrite (computeQpJacobian_invalid SlaveSlave _ raw); [reflexivity|exact Hf].
  - intros Hslave Hmaster.
    unfold computeJacobian. rewrite !mbind_gets.
    rewrite (mbind_Ok _ _ _ _ _
               (getConnectedDofIndices_state connectedDofIndices (var_number (params s)) s)).
    rewrite mbind_modify. rewrite !mbind_gets.
    set (sa := with_Kee _ _).
    change (length (_test_slave sa)) with (length (_test_slave s)).
    change (length (_test_master sa)) with (length (_test_master s)).
    rewrite Hslave, Hmaster. cbn [length].
    unfold for_i, for_range, mbind, mret, modify, gets.
    destruct (dm_nonempty _); destruct (dm_nonempty _); eexists; reflexivity.
Qed.

Lemma computeJacobian_invalid_formulation_witness :
  computeJacobian Example.connectedDofIndices (Example.on_master (InvalidFormulation 2))
  = Err (MooseError "Invalid formulation").
Proof.
  apply (proj1 (computeJacobian_invalid_formulation Example.connectedDofIndices
                  (Example.on_master (InvalidFormulation 2))) 2%Z eq_refl);
    discriminate.
Defined.

(** X8. Under the penalty formulation a cross-variable assembly
    computeOffDiagJacobian(jvar) needs nothing but storage in the two
    assembly blocks: it returns normally, leaves the master-slave block
    [_Kne] a zero block, fills the slave-slave block [_Kee] with the negated
    entries of the system Jacobian at (slave dof, connected dof), the same in
    every row, and adds 0 to the addressed entries of the slave-master and
    master-master blocks. *)
Theorem computeOffDiagJacobian_penalty
    (connectedDofIndices : N -> State -> list dof_id_type) (s : State) (jvar : N) :
  let var := var_number (params s) in
  let master_var := master_var_number (params s) in
  let connected := connectedDofIndices jvar s in
  let n_test_slave := length (_test_slave s) in
  let n_test_master := length (_test_master s) in
  let n_phi_master := length (_phi_master s) in
  let Ken := jacobianBlockNeighbor s ElementNeighbor var jvar in
  let Knn := jacobianBlockNeighbor s NeighborNeighbor master_var jvar in
  _formulation (params s) = PENALTY ->
  has_storage Ken n_test_slave n_phi_master ->
  has_storage Knn n_test_master n_phi_master ->
  exists s',
    computeOffDiagJacobian connectedDofIndices jvar s = Ok (tt, s')
    /\ _Kne s' = dm_resize n_test_master (length connected)
    /\ accumulated (dm_resize n_test_slave (length connected))
         n_test_slave (length connected)
         (fun _ j => (- jacobian_at s connected j)%float) (_Kee s')
    /\ accumulated Ken n_test_slave n_phi_master (fun _ _ => 0%float)
         (jacobianBlockNeighbor s' ElementNeighbor var jvar)
    /\ accumulated Knn n_test_master n_phi_master (fun _ _ => 0%float)
         (jacobianBlockNeighbor s' NeighborNeighbor master_var jvar).
Proof.
  intros var master_var connected n_test_slave n_test_master n_phi_master Ken Knn
         Hf HKen HKnn.
  destruct (computeOffDiagJacobian_run connectedDofIndices s jvar
              (fun type _ j =>
                 match type with
                 | SlaveSlave => (- jacobian_at s connected j)%float
                 | _ => 0%float
                 end))
    as (s' & Hrun & HKee & HKne & _ & HKen' & HKnn' & _).
  - intros i j Hi Hj.
    destruct (lookup_lt_is_Some_2 _ _ Hj) as [c Hc]. fold connected in Hc.
    unfold computeQpOffDiagJacobian, slave_jacobian_entry, jacobian_at, at_index, rbind.
    cbn [_connected_dof_indices after_connectivity with_idx with_phi_slave set_qp
           with_connected idx _j].
    fold connected. rewrite Hc. reflexivity.
  - intros i j Hi Hj. unfold computeQpOffDiagJacobian.
    cbn [params after_connectivity with_idx with_phi_slave set_qp with_connected].
    rewrite Hf. reflexivity.
  - exact HKen.
  - exact HKnn.
  - exists s'. split; [exact Hrun|]. split; [|split; [exact HKee|split; assumption]].
    apply accumulated_zero_resize. exact HKne.
Qed.

Lemma computeOffDiagJacobian_penalty_witness :
  exists s',
    computeOffDiagJacobian Example.connectedDofIndices 0 (Example.on_master PENALTY)
    = Ok (tt, s')
    /\ _Kne s' = dm_resize 2 3
    /\ dm_val (_Kee s') !! 1 = Some (0 + - 0.5)%float.
Proof.
  destruct (computeOffDiagJacobian_penalty Example.connectedDofIndices
              (Example.on_master PENALTY) 0%N eq_refl)
    as (s' & Hrun & HKne & HKee & _).
  - unfold has_storage. split; vm_compute; lia.
  - unfold has_storage. split; vm_compute; lia.
  - exists s'. split; [exact Hrun|]. split; [exact HKne|].
    destruct HKee as (_ & _ & _ & HKee & _).
    exact (HKee 0 1 ltac:(cbn; lia) ltac:(cbn; lia)).
Defined.

(** X9. Under the penalty formulation, with a value at the evaluation point
    for every test and shape function and storage in the assembly blocks
    that are not empty, computeJacobian returns normally and every block
    holds penalty times the product of its trial and test values: in the
    slave-slave block the trial value is the basis of the current node, 1 in
    the column of the node's own dof and 0 in the others, so that block is
    penalty * test_slave there. *)
Theorem computeJacobian_penalty
    (connectedDofIndices : N -> State -> list dof_id_type) (s : State) :
  let var := var_number (params s) in
  let master_var := master_var_number (params s) in
  let connected := connectedDofIndices var s in
  let dof := nodalDofIndex (sys s) var in
  let vals := penalty_contribution s dof connected in
  let n_test_slave := length (_test_slave s) in
  let n_test_master := length (_test_master s) in
  let n_phi_master := length (_phi_master s) in
  let Ken := jacobianBlockNeighbor s ElementNeighbor var var in
  let Knn := jacobianBlockNeighbor s NeighborNeighbor master_var var in
  _formulation (params s) = PENALTY ->
  evaluated (_test_slave s) -> evaluated (_test_master s) -> evaluated (_phi_master s) ->
  (dm_nonempty Ken = true -> has_storage Ken n_test_slave n_phi_master) ->
  (dm_nonempty Knn = true -> has_storage Knn n_test_master n_phi_master) ->
  exists s',
    computeJacobian connectedDofIndices s = Ok (tt, s')
    /\ accumulated (dm_resize n_test_slave (length connected))
         n_test_slave (length connected) (vals SlaveSlave) (_Kee s')
    /\ accumulated (dm_resize n_test_master (length connected))
         n_test_master (length connected) (vals MasterSlave) (_Kne s')
    /\ (if dm_nonempty Ken
        then accumulated Ken n_test_slave n_phi_master (vals SlaveMaster)
               (jacobianBlockNeighbor s' ElementNeighbor var var)
        else jacobianBlockNeighbor s' ElementNeighbor var var = Ken)
    /\ (if dm_nonempty Knn
        then accumulated Knn n_test_master n_phi_master (vals MasterMaster)
               (jacobianBlockNeighbor s' NeighborNeighbor master_var var)
        else jacobianBlockNeighbor s' NeighborNeighbor master_var var = Knn).
Proof.
  intros var master_var connected dof vals n_test_slave n_test_master n_phi_master
         Ken Knn Hf Hts Htm Hpm HKen HKnn.
  assert (Hshape : forall type i j,
            let s0 := with_idx {| _i := i; _j := j; _qp := 0 |}
                        (after_connectivity connectedDofIndices var s) in
            (type = SlaveSlave \/ type = MasterSlave -> j < length connected) ->
            (type = SlaveMaster \/ type = MasterMaster -> j < n_phi_master) ->
            (type = SlaveSlave \/ type = SlaveMaster -> i < n_test_slave) ->
            (type = MasterSlave \/ type = MasterMaster -> i < n_test_master) ->
            computeQpJacobian type s0 = Ok (vals type i j)).
  { intros type i j s0 Hjc Hjm His Him.
    unfold computeQpJacobian.
    change (_formulation (params s0)) with (_formulation (params s)).
    change (_penalty (params s0)) with (_penalty (params s)).
    change (_phi_slave s0) with (point_basis dof connected).
    change (_test_slave s0) with (_test_slave s).
    change (_phi_master s0) with (_phi_master s).
    change (_test_master s0) with (_test_master s).
    change (_i (idx s0)) with i. change (_j (idx s0)) with j.
    change (_qp (idx s0)) with 0.
    rewrite Hf. destruct type.
    - rewrite shape_point_basis by auto. rewrite shape_first_qp by auto. reflexivity.
    - rewrite (shape_first_qp (_phi_master s)) by auto.
      rewrite shape_first_qp by auto. reflexivity.
    - rewrite shape_point_basis by auto. rewrite shape_first_qp by auto. reflexivity.
    - rewrite (shape_first_qp (_test_master s)) by auto.
      rewrite shape_first_qp by auto. reflexivity. }
  destruct (computeJacobian_run connectedDofIndices s vals)
    as (s' & Hrun & HKee & HKne & HKen' & HKnn' & _).
  - intros i j Hi Hj. apply Hshape; intros [H|H]; (discriminate H || assumption).
  - intros i j Hi Hj. apply Hshape; intros [H|H]; (discriminate H || assumption).
  - intros Hne. split; [|exact (HKen Hne)].
    intros i j Hi Hj. apply Hshape; intros [H|H]; (discriminate H || assumption).
  - intros Hne. split; [|exact (HKnn Hne)].
    intros i j Hi Hj. apply Hshape; intros [H|H]; (discriminate H || assumption).
  - exists s'. auto.
Qed.

Lemma computeJacobian_penalty_witness :
  exists s',
    computeJacobian Example.connectedDofIndices (Example.on_master PENALTY) = Ok (tt, s')
    /\ dm_val (_Kee s') !! 0 = Some (0 + 1 * 10 * 1)%float
    /\ dm_val (_Kee s') !! 1 = Some (0 + 0 * 10 * 1)%float.
Proof.
  destruct (computeJacobian_penalty Example.connectedDofIndices
              (Example.on_master PENALTY) eq_refl)
    as (s' & Hrun & HKee & _).
  - repeat constructor; discriminate.
  - repeat constructor; discriminate.
  - repeat constructor; discriminate.
  - intros _. unfold has_storage. split; vm_compute; lia.
  - intros _. unfold has_storage. split; vm_compute; lia.
  - exists s'. split; [exact Hrun|].
    destruct HKee as (_ & _ & _ & HKee & _).
    split.
    + exact (HKee 0 0 ltac:(cbn; lia) ltac:(cbn; lia)).
    + exact (HKee 0 1 ltac:(cbn; lia) ltac:(cbn; lia)).
Defined.

(** * What an assembly leaves untouched *)

Lemma mbind_Ok_inv {A B : Type} (m : M A) (k : A -> M B) (s s' : State) (b : B) :
  mbind m k s = Ok (b, s') ->
  exists a s1, m s = Ok (a, s1) /\ k a s1 = Ok (b, s').
Proof.
  unfold mbind. destruct (m s) as [[a s1]|e]; [|discriminate].
  intros H. exists a, s1. split; [reflexivity | exact H].
Qed.

Section Preserved.

(** A property of the state that the loop counters do not affect. *)
Variable P : State -> Prop.
Hypothesis P_idx : forall i j s, P s -> P (with_idx {| _i := i; _j := j; _qp := _qp (idx s) |} s).

Lemma for_range_preserves (body : nat -> M unit) :
  (forall k s s', P s -> body k s = Ok (tt, s') -> P s') ->
  forall n k s s', P s -> for_range n k body s = Ok (tt, s') -> P s'.
Proof.
  intros Hbody. induction n as [|n IH]; intros k s s' HP Hrun.
  - cbn in Hrun. unfold mret in Hrun. inversion Hrun. subst. exact HP.
  - cbn [for_range] in Hrun.
    destruct (mbind_Ok_inv _ _ _ _ _ Hrun) as ([] & s1 & H1 & H2).
    apply (IH (S k) s1 s'); [|exact H2]. exact (Hbody k s s1 HP H1).
Qed.

Variable f : State -> Result Real.
Variable add : Real -> M unit.
Hypothesis P_add : forall v s s', P s -> add v s = Ok (tt, s') -> P s'.

Lemma for_j_preserves (cols : nat) (s s' : State) :
  P s -> for_j cols (v <~ lift f ;; add v)%M s = Ok (tt, s') -> P s'.
Proof.
  intros HP Hrun. unfold for_j in Hrun.
  destruct (mbind_Ok_inv _ _ _ _ _ Hrun) as ([] & s1 & H1 & H2).
  unfold modify in H2. inversion H2. subst s'.
  apply P_idx.
  refine (for_range_preserves _ _ cols 0 s s1 HP H1).
  intros k sa sb HPa Hbody.
  destruct (mbind_Ok_inv _ _ _ _ _ Hbody) as ([] & sc & Hc & Hd).
  unfold modify in Hc. inversion Hc. subst sc.
  destruct (mbind_Ok_inv _ _ _ _ _ Hd) as (v & se & He & Hadd).
  unfold lift, rbind in He. destruct (f (set_j k sa)); [|discriminate].
  inversion He. subst. apply (P_add _ _ _ (P_idx _ _ _ HPa) Hadd).
Qed.

Lemma for_i_preserves (rows cols : nat) (s s' : State) :
  P s -> for_i rows (for_j cols (v <~ lift f ;; add v)%M) s = Ok (tt, s') -> P s'.
Proof.
  intros HP Hrun. unfold for_i in Hrun.
  destruct (mbind_Ok_inv _ _ _ _ _ Hrun) as ([] & s1 & H1 & H2).
  unfold modify in H2. inversion H2. subst s'.
  apply P_idx.
  refine (for_range_preserves _ _ rows 0 s s1 HP H1).
  intros k sa sb HPa Hbody.
  destruct (mbind_Ok_inv _ _ _ _ _ Hbody) as ([] & sc & Hc & Hd).
  unfold modify in Hc. inversion Hc. subst sc.
  apply (for_j_preserves cols (set_i k sa) sb); [|exact Hd].
  apply P_idx. exact HPa.
Qed.

End Preserved.

Lemma kept_idx {T : Type} (c : T) (obs : State -> T)
    (Hobs : forall ix s, obs (with_idx ix s) = obs s) (i j : nat) (s : State) :
  obs s = c /\ _qp (idx s) = 0 ->
  obs (with_idx {| _i := i; _j := j; _qp := _qp (idx s) |} s) = c
  /\ _qp (idx (with_idx {| _i := i; _j := j; _qp := _qp (idx s) |} s)) = 0.
Proof. intros [H1 H2]. rewrite Hobs. split; [exact H1 | exact H2]. Qed.

Lemma Kee_add_keeps (c : _) (v : Real) (s s' : State) :
  inputs s = c /\ _qp (idx s) = 0 -> Kee_add v s = Ok (tt, s') ->
  inputs s' = c /\ _qp (idx s') = 0.
Proof.
  intros HP Hrun. unfold Kee_add, rbind in Hrun.
  destruct (dm_add _ _ _ _); [|discriminate]. inversion Hrun. subst s'. exact HP.
Qed.

Lemma Kne_add_keeps (c : _) (v : Real) (s s' : State) :
  inputs s = c /\ _qp (idx s) = 0 -> Kne_add v s = Ok (tt, s') ->
  inputs s' = c /\ _qp (idx s') = 0.
Proof.
  intros HP Hrun. unfold Kne_add, rbind in Hrun.
  destruct (dm_add _ _ _ _); [|discriminate]. inversion Hrun. subst s'. exact HP.
Qed.

Lemma block_add_keeps (c : _) (t : DGJacobianType) (ivar jvar : N) (v : Real)
    (s s' : State) :
  inputs s = c /\ _qp (idx s) = 0 -> block_add t ivar jvar v s = Ok (tt, s') ->
  inputs s' = c /\ _qp (idx s') = 0.
Proof.
  intros HP Hrun. unfold block_add, rbind in Hrun.
  destruct (dm_add _ _ _ _); [|discriminate]. inversion Hrun. subst s'. exact HP.
Qed.

(** The double loop over a block keeps [inputs] and the counter [_qp]. *)
Lemma loop_keeps (c : _) (f : State -> Result Real) (add : Real -> M unit)
    (rows cols : nat) (s s' : State) :
  (forall v s s', inputs s = c /\ _qp (idx s) = 0 -> add v s = Ok (tt, s') ->
     inputs s' = c /\ _qp (idx s') = 0) ->
  inputs s = c /\ _qp (idx s) = 0 ->
  for_i rows (for_j cols (v <~ lift f ;; add v)%M) s = Ok (tt, s') ->
  inputs s' = c /\ _qp (idx s') = 0.
Proof.
  intros Hadd HP Hrun.
  refine (for_i_preserves (fun x => inputs x = c /\ _qp (idx x) = 0) _ f add Hadd
            rows cols s s' HP Hrun).
  intros i j x. apply (kept_idx c inputs). reflexivity.
Qed.

(** X10. A run of computeJacobian or computeOffDiagJacobian that returns
    leaves the quadrature counter at 0 and, apart from the connectivity and
    the basis that getConnectedDofIndices stored, changes none of the
    parameters, the system data, the neighbor context, the slave-to-master
    map, the current node, the variable values and the constraint residual:
    only the loop counters and the Jacobian blocks differ. computeQpSlaveValue
    then reads the nodal value [_u_slave[0]]. *)
Theorem assembly_keeps_inputs
    (connectedDofIndices : N -> State -> list dof_id_type) (s s' : State) :
  (computeJacobian connectedDofIndices s = Ok (tt, s') ->
     inputs s' = inputs (after_connectivity connectedDofIndices (var_number (params s)) s)
     /\ _qp (idx s') = 0
     /\ computeQpSlaveValue s' = at_index (_u_slave s) 0)
  /\ (forall jvar,
        computeOffDiagJacobian connectedDofIndices jvar s = Ok (tt, s') ->
        inputs s' = inputs (after_connectivity connectedDofIndices jvar s)
        /\ _qp (idx s') = 0
        /\ computeQpSlaveValue s' = at_index (_u_slave s) 0).
Proof.
  assert (Hvalue : forall var,
            inputs s' = inputs (after_connectivity connectedDofIndices var s)
            /\ _qp (idx s') = 0 ->
            inputs s' = inputs (after_connectivity connectedDofIndices var s)
            /\ _qp (idx s') = 0
            /\ computeQpSlaveValue s' = at_index (_u_slave s) 0).
  { intros var [Hin Hqp]. split; [exact Hin|]. split; [exact Hqp|].
    unfold computeQpSlaveValue. rewrite Hqp.
    unfold inputs in Hin. inversion Hin. reflexivity. }
  split.
  - intros Hrun. apply Hvalue. revert Hrun.
    unfold computeJacobian. rewrite !mbind_gets.
    rewrite (mbind_Ok _ _ _ _ _
               (getConnectedDofIndices_state connectedDofIndices (var_number (params s)) s)).
    rewrite mbind_modify. rewrite !mbind_gets.
    set (c := inputs (after_connectivity connectedDofIndices (var_number (params s)) s)).
    set (sa := with_Kee _ _).
    assert (Ha : inputs sa = c /\ _qp (idx sa) = 0) by (split; reflexivity).
    clearbody sa. intros Hrun.
    destruct (mbind_Ok_inv _ _ _ _ _ Hrun) as ([] & s1 & Hrun1 & Hrest1).
    assert (H1 := loop_keeps c _ _ _ _ _ _ (Kee_add_keeps c) Ha Hrun1).
    rewrite mbind_gets in Hrest1.
    destruct (mbind_Ok_inv _ _ _ _ _ Hrest1) as ([] & s2 & Hrun2 & Hrest2).
    assert (H2 : inputs s2 = c /\ _qp (idx s2) = 0).
    { destruct (dm_nonempty (jacobianBlockNeighbor s1 _ _ _)).
      - exact (loop_keeps c _ _ _ _ _ _ (block_add_keeps c _ _ _) H1 Hrun2).
      - unfold mret in Hrun2. inversion Hrun2. subst. exact H1. }
    rewrite mbind_modify in Hrest2.
    destruct (mbind_Ok_inv _ _ _ _ _ Hrest2) as ([] & s3 & Hrun3 & Hrest3).
    assert (H3 := loop_keeps c _ _ _ _ (with_Kne _ s2) s3 (Kne_add_keeps c) H2 Hrun3).
    rewrite mbind_gets in Hrest3.
    destruct (dm_nonempty (jacobianBlockNeighbor s3 _ _ _)).
    + exact (loop_keeps c _ _ _ _ _ _ (block_add_keeps c _ _ _) H3 Hrest3).
    + unfold mret in Hrest3. inversion Hrest3. subst. exact H3.
  - intros jvar Hrun. apply Hvalue. revert Hrun.
    unfold computeOffDiagJacobian. rewrite !mbind_gets.
    rewrite (mbind_Ok _ _ _ _ _
               (getConnectedDofIndices_state connectedDofIndices jvar s)).
    rewrite mbind_modify. rewrite !mbind_gets.
    set (c := inputs (after_connectivity connectedDofIndices jvar s)).
    set (sa := with_Kee _ _).
    assert (Ha : inputs sa = c /\ _qp (idx sa) = 0) by (split; reflexivity).
    clearbody sa. intros Hrun.
    destruct (mbind_Ok_inv _ _ _ _ _ Hrun) as ([] & s1 & Hrun1 & Hrest1).
    assert (H1 := loop_keeps c _ _ _ _ _ _ (Kee_add_keeps c) Ha Hrun1).
    destruct (mbind_Ok_inv _ _ _ _ _ Hrest1) as ([] & s2 & Hrun2 & Hrest2).
    assert (H2 := loop_keeps c _ _ _ _ _ _ (block_add_keeps c _ _ _) H1 Hrun2).
    rewrite mbind_modify, mbind_gets in Hrest2.
    destruct (mbind_Ok_inv _ _ _ _ _ Hrest2) as ([] & s3 & Hrun3 & Hrest3).
    assert (H3 : inputs s3 = c /\ _qp (idx s3) = 0).
    { destruct (dm_nonempty (_Kne _)).
      - exact (loop_keeps c _ _ _ _ (with_Kne _ s2) s3 (Kne_add_keeps c) H2 Hrun3).
      - unfold mret in Hrun3. inversion Hrun3. subst. exact H2. }
    exact (loop_keeps c _ _ _ _ _ _ (block_add_keeps c _ _ _) H3 Hrest3).
Qed.

Lemma assembly_keeps_inputs_witness :
  exists s',
    computeJacobian Example.connectedDofIndices (Example.on_master PENALTY) = Ok (tt, s')
    /\ _qp (idx s') = 0
    /\ computeQpSlaveValue s' = Ok 2%float.
Proof.
  assert (Hex : exists s', computeJacobian Example.connectedDofIndices
                             (Example.on_master PENALTY) = Ok (tt, s')).
  { eexists. vm_compute. reflexivity. }
  destruct Hex as [s' Hrun]. exists s'. split; [exact Hrun|].
  destruct (proj1 (assembly_keeps_inputs Example.connectedDofIndices
                     (Example.on_master PENALTY) s') Hrun) as (_ & Hqp & Hvalue).
  split; [exact Hqp|]. rewrite Hvalue. reflexivity.
Defined.

(** * The kinematic formulation from activation to assembly *)

(** X11. Under the kinematic formulation, once shouldApply has returned true
    for a node mapped to a master element of the mesh, the residual
    contributions at the evaluation point are, with R the ghosted residual at
    the node's dof, u_s the nodal slave value and u_m the master value that
    reinitNeighborPhys computed at the node: test_slave * (- R + penalty *
    (u_s - u_m)) on the slave side and test_master * - (- R) on the master
    side, the penalty term entering the slave side only. *)
Theorem kinematic_residual_after_activation
    (mesh : MooseMesh) (neighborPhys : Elem -> list Point -> NeighborValues)
    (s : State) (mid : dof_id_type) (master_elem : Elem)
    (psi_slave psi_master us um : Real) :
  let master := neighborPhys master_elem [node_point (_current_node s)] in
  let R := _residual_copy (sys s) (slave_dof s) in
  _formulation (params s) = KINEMATIC ->
  _slave_to_master_map s !! node_id (_current_node s) = Some mid ->
  elemPtr mesh mid = Some master_elem ->
  shape (_test_slave s) (_i (idx s)) (_qp (idx s)) = Ok psi_slave ->
  shape (nv_test master) (_i (idx s)) (_qp (idx s)) = Ok psi_master ->
  _u_slave s !! _qp (idx s) = Some us ->
  nv_u master !! _qp (idx s) = Some um ->
  exists s',
    shouldApply mesh neighborPhys s = Ok (true, s')
    /\ computeQpResidual Slave s'
       = Ok (psi_slave * (- R + _penalty (params s) * (us - um)))%float
    /\ computeQpResidual Master s' = Ok (psi_master * - - R)%float.
Proof.
  intros master R Hf Hmap Helem Hts Htm Hus Hum.
  apply at_index_Ok in Hus. apply at_index_Ok in Hum.
  eexists. split.
  - unfold shouldApply. rewrite Hmap, Helem.
    unfold mbind, mret, reinitConstraint.
    cbn [params setNeighborSubdomainID reinitNeighborPhys with_fe_problem].
    rewrite Hf. reflexivity.
  - split.
    + unfold computeQpResidual.
      cbn [params idx _constraint_residual _test_slave _u_slave
             with_constraint_residual setNeighborSubdomainID reinitNeighborPhys
             with_fe_problem].
      rewrite Hf, Hus. unfold rbind at 2.
      change (_u_master _) with (nv_u master).
      rewrite Hum. unfold rbind at 2. unfold rbind at 1. rewrite Hts. reflexivity.
    + unfold computeQpResidual.
      change (_test_master _) with (nv_test master).
      cbn [idx _constraint_residual with_constraint_residual setNeighborSubdomainID
             reinitNeighborPhys with_fe_problem].
      rewrite Htm. reflexivity.
Qed.

Lemma kinematic_residual_after_activation_witness :
  exists s',
    shouldApply Example.mesh Example.neighborPhys (Example.mapped KINEMATIC) = Ok (true, s')
    /\ computeQpResidual Slave s' = Ok (1 * (- 3 + 10 * (2 - 1)))%float
    /\ computeQpResidual Master s' = Ok (0.75 * - - 3)%float.
Proof.
  apply (kinematic_residual_after_activation Example.mesh Example.neighborPhys
           (Example.mapped KINEMATIC) 1%N Example.master_elem
           1%float 0.75%float 2%float 1%float eq_refl);
    first [reflexivity | vm_compute; reflexivity].
Defined.

(** X12. Under the kinematic formulation, with a value at the evaluation
    point for every test and shape function and storage in the assembly
    blocks that are not empty, computeJacobian returns normally; the
    slave-slave block holds - J + basis * penalty * test_slave and the
    master-slave block J * test_master, with J the entry of the system
    Jacobian at (slave dof, connected dof); the slave-master block receives
    - phi_master * penalty * test_slave and the master-master block 0. *)
Theorem computeJacobian_kinematic
    (connectedDofIndices : N -> State -> list dof_id_type) (s : State) :
  let var := var_number (params s) in
  let master_var := master_var_number (params s) in
  let connected := connectedDofIndices var s in
  let dof := nodalDofIndex (sys s) var in
  let vals := kinematic_contribution s dof connected in
  let n_test_slave := length (_test_slave s) in
  let n_test_master := length (_test_master s) in
  let n_phi_master := length (_phi_master s) in
  let Ken := jacobianBlockNeighbor s ElementNeighbor var var in
  let Knn := jacobianBlockNeighbor s NeighborNeighbor master_var var in
  _formulation (params s) = KINEMATIC ->
  evaluated (_test_slave s) -> evaluated (_test_master s) -> evaluated (_phi_master s) ->
  (dm_nonempty Ken = true -> has_storage Ken n_test_slave n_phi_master) ->
  (dm_nonempty Knn = true -> has_storage Knn n_test_master n_phi_master) ->
  exists s',
    computeJacobian connectedDofIndices s = Ok (tt, s')
    /\ accumulated (dm_resize n_test_slave (length connected))
         n_test_slave (length connected) (vals SlaveSlave) (_Kee s')
    /\ accumulated (dm_resize n_test_master (length connected))
         n_test_master (length connected) (vals MasterSlave) (_Kne s')
    /\ (if dm_nonempty Ken
        then accumulated Ken n_test_slave n_phi_master (vals SlaveMaster)
               (jacobianBlockNeighbor s' ElementNeighbor var var)
        else jacobianBlockNeighbor s' ElementNeighbor var var = Ken)
    /\ (if dm_nonempty Knn
        then accumulated Knn n_test_master n_phi_master (fun _ _ => 0%float)
               (jacobianBlockNeighbor s' NeighborNeighbor master_var var)
        else jacobianBlockNeighbor s' NeighborNeighbor master_var var = Knn).
Proof.
  intros var master_var connected dof vals n_test_slave n_test_master n_phi_master
         Ken Knn Hf Hts Htm Hpm HKen HKnn.
  assert (Hshape : forall type i j,
            let s0 := with_idx {| _i := i; _j := j; _qp := 0 |}
                        (after_connectivity connectedDofIndices var s) in
            (type = SlaveSlave \/ type = MasterSlave -> j < length connected) ->
            (type = SlaveMaster -> j < n_phi_master) ->
            (type = SlaveSlave \/ type = SlaveMaster -> i < n_test_slave) ->
            (type = MasterSlave -> i < n_test_master) ->
            computeQpJacobian type s0 = Ok (vals type i j)).
  { intros type i j s0 Hjc Hjm His Him.
    assert (HJ : j < length connected ->
                 slave_jacobian_entry s0 = Ok (jacobian_at s connected j)).
    { intros Hj. destruct (lookup_lt_is_Some_2 _ _ Hj) as [c Hc].
      unfold slave_jacobian_entry, jacobian_at, at_index, rbind.
      change (_connected_dof_indices s0) with connected.
      change (_j (idx s0)) with j. rewrite Hc. reflexivity. }
    unfold computeQpJacobian.
    change (_formulation (params s0)) with (_formulation (params s)).
    change (_penalty (params s0)) with (_penalty (params s)).
    change (_phi_slave s0) with (point_basis dof connected).
    change (_test_slave s0) with (_test_slave s).
    change (_phi_master s0) with (_phi_master s).
    change (_test_master s0) with (_test_master s).
    change (_i (idx s0)) with i. change (_j (idx s0)) with j.
    change (_qp (idx s0)) with 0.
    rewrite Hf. destruct type.
    - rewrite HJ by auto. unfold rbind at 1.
      rewrite shape_point_basis by auto. rewrite shape_first_qp by auto. reflexivity.
    - rewrite (shape_first_qp (_phi_master s)) by auto.
      rewrite shape_first_qp by auto. reflexivity.
    - rewrite HJ by auto. unfold rbind at 1.
      rewrite shape_first_qp by auto. reflexivity.
    - reflexivity. }
  destruct (computeJacobian_run connectedDofIndices s vals)
    as (s' & Hrun & HKee & HKne & HKen' & HKnn' & _).
  - intros i j Hi Hj. apply Hshape; first [intros [H|H] | intros H];
      (discriminate H || assumption).
  - intros i j Hi Hj. apply Hshape; first [intros [H|H] | intros H];
      (discriminate H || assumption).
  - intros Hne. split; [|exact (HKen Hne)].
    intros i j Hi Hj. apply Hshape; first [intros [H|H] | intros H];
      (discriminate H || assumption).
  - intros Hne. split; [|exact (HKnn Hne)].
    intros i j Hi Hj. apply Hshape; first [intros [H|H] | intros H];
      (discriminate H || assumption).
  - exists s'. auto.
Qed.

Lemma computeJacobian_kinematic_witness :
  exists s',
    computeJacobian Example.connectedDofIndices (Example.on_master KINEMATIC) = Ok (tt, s')
    /\ dm_val (_Kee s') !! 0 = Some (0 + (- 4 + 1 * 10 * 1))%float
    /\ dm_val (_Kne s') !! 1 = Some (0 + 0.5 * 0.75)%float.
Proof.
  destruct (computeJacobian_kinematic Example.connectedDofIndices
              (Example.on_master KINEMATIC) eq_refl)
    as (s' & Hrun & HKee & HKne & _).
  - repeat constructor; discriminate.
  - repeat constructor; discriminate.
  - repeat constructor; discriminate.
  - intros _. unfold has_storage. split; vm_compute; lia.
  - intros _. unfold has_storage. split; vm_compute; lia.
  - exists s'. split; [exact Hrun|].
    destruct HKee as (_ & _ & _ & HKee & _).
    destruct HKne as (_ & _ & _ & HKne & _).
    split.
    + exact (HKee 0 0 ltac:(cbn; lia) ltac:(cbn; lia)).
    + exact (HKne 0 1 ltac:(cbn; lia) ltac:(cbn; lia)).
Defined.
